(** * msvc-code-analysis-action: the CMake file-API loader and the
      compile-command reconstruction of [index.js]

    A shallow embedding of [src/index.js].

    - JavaScript strings are [string]s: sequences of code units, here of
      one byte each.
    - The JSON reply documents are records typed after the schema of the
      CMake file API; a property that [iterateIfExists] reads is a list,
      empty when the property is missing.
    - The object [this.cache] is a [gmap] from names to values.
    - The file system, the process environment and [child_process] are an
      environment that answers each request given the history of what was
      done before; every request is recorded in that history.  A call
      that Node refuses on its arguments asks nothing of the world and
      throws.
    - Every method of [CMakeApi] is a computation in a state-and-exception
      monad over the fields of the object and the history; a [throw] keeps
      the fields as they are at that point.
    - The generator [compileCommandsIterator] is run to its end: what it
      yields, in order, and the error that ended it if one did.
    - [path.join], [path.normalize] and [path.basename] of Node are written
      out in their POSIX flavour. *)

From Stdlib Require Import String Ascii List Arith Bool Lia.
From stdpp Require Import base option strings gmap.
Import ListNotations.

Local Open Scope string_scope.
Local Open Scope list_scope.
Local Open Scope nat_scope.

#[local] Arguments String.append !_ _ / : simpl nomatch.

(* ================================================================== *)
(** * Part I: definitions                                              *)
(* ================================================================== *)

(** ** JavaScript strings *)

(** The two characters the quoting code looks at: code unit 92 and code
    unit 34. *)
Definition backslash : ascii := Ascii false false true true true false true false.
Definition dquote : ascii := Ascii false true false false false true false false.

Definition str1 (c : ascii) : string := String c EmptyString.

(** [s[k] == c] where [s[k]] is [undefined] out of range. *)
Definition char_is (o : option ascii) (c : ascii) : bool :=
  match o with
  | Some d => Ascii.eqb d c
  | None => false
  end.

(** [new Array(n).join(sep)]: [n] empty slots joined by [sep]. *)
Definition Array_join (n : nat) (sep : string) : string :=
  String.concat sep (repeat EmptyString n).

(** [s.endsWith(suffix)] *)
Definition endsWith (s suffix : string) : bool :=
  let n := String.length s in
  let m := String.length suffix in
  (m <=? n) && String.eqb (substring (n - m) m s) suffix.

(** [s.startsWith(p)] *)
Definition startsWith (s p : string) : bool := String.prefix p s.

(** [util.format(prefix + '%s', x)] for a string [x]. *)
Definition util_format_s (prefix x : string) : string := prefix +:+ x.

(** The [<] of JavaScript on two strings (IsLessThan of ECMA-262): false
    when the right operand is a prefix of the left one, true when the left
    one is a proper prefix of the right one, and otherwise decided by the
    code units at the first position where they differ. *)
Fixpoint first_difference (a b : string) : option (ascii * ascii) :=
  match a, b with
  | String x a', String y b' =>
      if Ascii.eqb x y then first_difference a' b' else Some (x, y)
  | _, _ => None
  end.

Definition js_string_lt (a b : string) : bool :=
  if String.prefix b a then false
  else if String.prefix a b then true
  else match first_difference a b with
       | Some (m, n) => nat_of_ascii m <? nat_of_ascii n
       | None => false
       end.

(** ** ArgumentQuoting: [escapeArgument] *)

(** The [while] loop that counts the trailing backslashes, with the
    counter [i] as loop state.  The loop body runs at most [arg.length]
    times, so [fuel] above that never runs out (lemma
    [trailing_loop_fuel]). *)
Fixpoint trailing_loop (arg : string) (fuel i : nat) : nat :=
  match fuel with
  | 0 => i
  | S fuel' =>
      if (i <? String.length arg)
         && char_is (String.get (String.length arg - 1 - i) arg) backslash
      then trailing_loop arg fuel' (i + 1)
      else i
  end.

Definition escapeArgument (arg : string) : string :=
  let i := trailing_loop arg (S (String.length arg)) 0 in
  let arg := if 0 <? i then arg +:+ Array_join (i + 1) (str1 backslash) else arg in
  (str1 dquote +:+ arg) +:+ str1 dquote.

(** *** What the quoting is measured against *)

(** A run of [n] backslashes. *)
Fixpoint backslashes (n : nat) : string :=
  match n with
  | 0 => EmptyString
  | S n' => String backslash (backslashes n')
  end.

Fixpoint all_backslash (s : string) : bool :=
  match s with
  | EmptyString => true
  | String c s' => Ascii.eqb c backslash && all_backslash s'
  end.

(** The length of the run of backslashes a token ends in. *)
Fixpoint trailing_run (s : string) : nat :=
  match s with
  | EmptyString => 0
  | String c s' => if all_backslash s then String.length s else trailing_run s'
  end.

Fixpoint has_char (c : ascii) (s : string) : bool :=
  match s with
  | EmptyString => false
  | String d s' => Ascii.eqb d c || has_char c s'
  end.

Definition last_char (s : string) : option ascii :=
  match String.length s with
  | 0 => None
  | S n => String.get n s
  end.

(** Unquoting, as the compiler family reads one argument of its command
    line (the Microsoft C runtime's rules): backslashes are literal unless
    they stand before a double quote; [2n] backslashes before a quote give
    [n] backslashes and the quote delimits a quoted part; [2n+1]
    backslashes before a quote give [n] backslashes and a literal quote;
    blank space outside a quoted part ends the argument.  [inq] says
    whether the scan is inside a quoted part and [pending] counts the
    backslashes read since the last other character. *)
Definition is_blank (c : ascii) : bool :=
  Ascii.eqb c " "%char || Ascii.eqb c (ascii_of_nat 9).

Fixpoint msvc_scan (s : string) (inq : bool) (pending : nat) : string :=
  match s with
  | EmptyString => backslashes pending
  | String c s' =>
      if Ascii.eqb c backslash then msvc_scan s' inq (S pending)
      else if Ascii.eqb c dquote then
        backslashes (Nat.div2 pending) +:+
        (if Nat.odd pending
         then String dquote (msvc_scan s' inq 0)
         else msvc_scan s' (negb inq) 0)
      else if is_blank c && negb inq then backslashes pending
      else backslashes pending +:+ String c (msvc_scan s' inq 0)
  end.

Definition unquote (q : string) : string := msvc_scan q false 0.

(** ** Node's [path] module

    [path.join], [path.normalize] and [path.basename] in their POSIX
    flavour, with [/] as the only separator.  Node scans the characters of
    a path once; its scan acts on the segments between separators, which
    is how it is written here: an empty segment and [.] are dropped, [..]
    removes the segment before it unless there is none or that one is
    itself [..], in which case it is kept when the path is relative
    ([allowAboveRoot]) and dropped otherwise. *)

Definition isPathSeparator (c : ascii) : bool := Ascii.eqb c "/"%char.

Fixpoint segments (s : string) : list string :=
  match s with
  | EmptyString => [EmptyString]
  | String c s' =>
      if isPathSeparator c then EmptyString :: segments s'
      else match segments s' with
           | seg :: rest => String c seg :: rest
           | [] => [str1 c]
           end
  end.

(** One segment of [normalizeString]; [res] is the result so far, last
    segment first. *)
Definition normalize_step (allowAboveRoot : bool) (res : list string) (seg : string)
  : list string :=
  if String.eqb seg EmptyString || String.eqb seg "." then res
  else if String.eqb seg ".." then
    match res with
    | top :: below =>
        if String.eqb top ".." then (if allowAboveRoot then seg :: res else res)
        else below
    | [] => if allowAboveRoot then [seg] else []
    end
  else seg :: res.

Definition normalize_segments (allowAboveRoot : bool) (segs : list string) (res : list string)
  : list string :=
  fold_left (normalize_step allowAboveRoot) segs res.

Definition normalizeString (path : string) (allowAboveRoot : bool) : string :=
  String.concat "/" (rev (normalize_segments allowAboveRoot (segments path) [])).

Definition isAbsolute (path : string) : bool :=
  match path with
  | String c _ => isPathSeparator c
  | EmptyString => false
  end.

Definition path_normalize (path : string) : string :=
  if String.eqb path EmptyString then "."
  else
    let isAbs := isAbsolute path in
    let trailingSeparator := char_is (last_char path) "/"%char in
    let path := normalizeString path (negb isAbs) in
    if String.eqb path EmptyString then
      if isAbs then "/" else if trailingSeparator then "./" else "."
    else
      let path := if trailingSeparator then path +:+ "/" else path in
      if isAbs then "/" +:+ path else path.

(** [path.join(...args)]: the non-empty arguments joined by [/], then
    normalised; [.] when there is none. *)
Definition path_join (args : list string) : string :=
  let joined :=
    fold_left
      (fun (joined : option string) (arg : string) =>
         if 0 <? String.length arg then
           match joined with
           | None => Some arg
           | Some j => Some (j +:+ "/" +:+ arg)
           end
         else joined)
      args None in
  match joined with
  | None => "."
  | Some j => path_normalize j
  end.

(** [path.basename(path)]: the last non-empty segment, the empty string
    when there is none. *)
Definition path_basename (path : string) : string :=
  List.last (List.filter (fun seg => negb (String.eqb seg EmptyString)) (segments path)) EmptyString.

(** ** ToolchainResolver: what is read off the compiler's path *)

Definition extractVersionFromCompilerPath (compilerPath : string) : string :=
  let versionDir := path_join [compilerPath; "../../.."] in
  path_basename versionDir.

Definition extractIncludesFromCompilerPath (compilerPath : string) : list string :=
  let includeDir := path_join [compilerPath; "../../../include"] in
  [ path_normalize includeDir ].

(** One level up from a path, and the directory [name] next to a path:
    what the directory-depth convention of the resolver is stated in. *)
Definition level_up (p : string) : string := path_join [p; ".."].

Definition sibling (p name : string) : string := path_join [p; "../" +:+ name].

(** *** Normal forms of paths, for the lemmas on [path.join] *)

Definition slash_free (s : string) : Prop := has_char "/"%char s = false.

Definition unsegments (l : list string) : string := String.concat "/" l.

(** A segment that [normalizeString] keeps as it is. *)
Definition is_name (seg : string) : bool :=
  negb (String.eqb seg EmptyString) && negb (String.eqb seg ".")
  && negb (String.eqb seg "..") && negb (has_char "/"%char seg).

(** The results of [normalizeString], last segment first: names above a
    bottom of [..] segments, which only a relative path may have. *)
Fixpoint normal (allowAboveRoot : bool) (res : list string) : bool :=
  match res with
  | [] => true
  | seg :: below =>
      if String.eqb seg ".." then allowAboveRoot && forallb (String.eqb "..") below
      else is_name seg && normal allowAboveRoot below
  end.

(** What [path.normalize] returns for an absolute or relative path with
    the normalised segments [res] and with or without a trailing
    separator. *)
Definition canon (isAbs : bool) (res : list string) (trailingSeparator : bool) : string :=
  let path := unsegments (rev res) in
  if String.eqb path EmptyString then
    if isAbs then "/" else if trailingSeparator then "./" else "."
  else
    let path := if trailingSeparator then path +:+ "/" else path in
    if isAbs then "/" +:+ path else path.

Definition path_stack (x : string) : list string :=
  normalize_segments (negb (isAbsolute x)) (segments x) [].

Definition path_trailing (x : string) : bool := char_is (last_char x) "/"%char.

(** ** Data model *)

Record CompilerInfo := {
  ci_path : string;
  ci_version : string;
  ci_includes : list string
}.

(** *** Reply documents of the CMake file API

    A reply file holds one JSON document.  The documents are typed after
    the schema of the file API; [ROther] is any other JSON value.  The
    readers below give what each property access of the source finds in a
    document, also in one of another kind than the reader expects. *)

Record CacheEntry := { entry_name : string; entry_value : string }.

Record Toolchain := {
  toolchain_language : string;
  compiler_id : string;
  compiler_path : string;
  compiler_version : string;
  compiler_includeDirectories : list string
}.

Record Response := { response_kind : string; response_jsonFile : string }.

(** [client_reply] is [reply["client-msvc-ca-action"]]: [None] when the
    index has no reply for this client, otherwise the [responses] listed
    under its ["query.json"] (none when that member is missing). *)
Record IndexReply := {
  version_string : string;
  client_reply : option (list Response)
}.

(** A configuration of the code model: the [jsonFile] of each target. *)
Record Codemodel := {
  paths_source : string;
  configurations : list (list string)
}.

Record Include := { include_path : string; include_isSystem : bool }.

Record CompileGroup := {
  language : string;
  compileCommandFragments : list string;
  includes : list Include;
  defines : list string;
  sourceIndexes : list nat
}.

(** A target: the [path] of each source and the compile groups. *)
Record TargetData := {
  sources : list string;
  compileGroups : list CompileGroup
}.

Inductive Reply :=
| RIndex (i : IndexReply)
| RCache (entries : list CacheEntry)
| RCodemodel (c : Codemodel)
| RToolchains (toolchains : list Toolchain)
| RTarget (t : TargetData)
| ROther.

(** [iterateIfExists(data, 'entries')] *)
Definition entries_of (data : Reply) : list CacheEntry :=
  match data with RCache es => es | _ => [] end.

(** [iterateIfExists(data, 'toolchains')] *)
Definition toolchains_of (data : Reply) : list Toolchain :=
  match data with RToolchains ts => ts | _ => [] end.

(** [iterateIfExists(targetData, 'compileGroups')] *)
Definition compileGroups_of (data : Reply) : list CompileGroup :=
  match data with RTarget t => compileGroups t | _ => [] end.

(** [targetData.sources], the empty list standing for [undefined] as
    well: indexing either gives [undefined]. *)
Definition sources_of (data : Reply) : list string :=
  match data with RTarget t => sources t | _ => [] end.

(** [indexReply.version.string]: the documents of the file API other than
    a target carry a [version] object, only the index gives it a
    [string]; [None] when [version] itself is missing, [Some None] for
    [undefined]. *)
Definition version_string_of (data : Reply) : option (option string) :=
  match data with
  | RIndex i => Some (Some (version_string i))
  | RCache _ | RCodemodel _ | RToolchains _ => Some None
  | RTarget _ | ROther => None
  end.

(** *** Options and the object state *)

(** The options as the code tests them: each field is the truthiness of
    the option's value.  [usePrecompiledHeaders] is tested and nothing is
    done for it. *)
Record CompilerCommandOptions := {
  ignoreSystemHeaders : bool;
  usePrecompiledHeaders : bool
}.

Record CMakeApi := {
  loaded : bool;
  cCompilerInfo : option CompilerInfo;
  cxxCompilerInfo : option CompilerInfo;
  sourceRoot : option string;
  cache : gmap string string;
  targetFilepaths : list string
}.

(** [new CMakeApi()] *)
Definition CMakeApi_new : CMakeApi := {|
  loaded := false;
  cCompilerInfo := None;
  cxxCompilerInfo := None;
  sourceRoot := None;
  cache := ∅;
  targetFilepaths := []
|}.

Definition clientName : string := "client-msvc-ca-action".

Record CompileCommand := {
  source : string;
  args : string;
  compiler : CompilerInfo
}.

(** ** Effects

    What the code does to the outside world, in the order it does it. *)
Inductive event :=
| EvExistsSync (p : string)
| EvReaddirSync (p : string)
| EvReadFileSync (p : string)
| EvMkdirSync (p : string)
| EvWriteFile (p : string) (data : list (string * string))
| EvSpawn (command : string) (args : list string).

Definition history := list event.

Definition is_spawn (ev : event) : bool :=
  match ev with EvSpawn _ _ => true | _ => false end.

Definition spawned (h : history) : bool := existsb is_spawn h.

Inductive FileRead :=
| ReadFails
| Unparsable
| Parsed (r : Reply).

(** The outside world answers each request given everything that was done
    before it: files may appear or change between two requests, as they do
    while a child process runs. *)
Record Env := {
  fs_existsSync : history -> string -> bool;
  fs_readdirSync : history -> string -> option (list string);
  fs_readFileSync : history -> string -> FileRead;
  fs_mkdirSync : history -> string -> bool;
  child_process_spawn : history -> string -> list string -> bool;
  process_cwd : string;
  process_env_PATH : string
}.

(** Thrown values: [new Error(message)] of the source, and the errors the
    runtime and its libraries throw. *)
Inductive error :=
| Error (message : string)
| TypeError
| SyntaxError
| SystemError.

Inductive outcome (A : Type) :=
| Return (a : A)
| Throw (e : error).
Arguments Return {A} a.
Arguments Throw {A} e.

Record State := { this : CMakeApi; done : history }.

Definition M (A : Type) : Type := Env -> State -> State * outcome A.

Definition ret {A} (a : A) : M A := fun _ s => (s, Return a).

Definition throw {A} (e : error) : M A := fun _ s => (s, Throw e).

Definition bind {A B} (m : M A) (k : A -> M B) : M B :=
  fun env s =>
    match m env s with
    | (s', Return a) => k a env s'
    | (s', Throw e) => (s', Throw e)
    end.

Notation "'let*' x ':=' m 'in' k" := (bind m (fun x => k))
  (at level 10, x name, m at level 100, k at level 200).

Definition get_this : M CMakeApi := fun _ s => (s, Return (this s)).

Definition modify_this (f : CMakeApi -> CMakeApi) : M unit :=
  fun _ s => ({| this := f (this s); done := done s |}, Return tt).

(** An effect is recorded after the world has answered it. *)
Definition perform {A} (ask : Env -> history -> A) (ev : event) : M A :=
  fun env s => ({| this := this s; done := done s ++ [ev] |}, Return (ask env (done s))).

Definition existsSync (p : string) : M bool :=
  perform (fun env h => fs_existsSync env h p) (EvExistsSync p).

Definition readdirSync (p : string) : M (list string) :=
  let* r := perform (fun env h => fs_readdirSync env h p) (EvReaddirSync p) in
  match r with
  | Some names => ret names
  | None => throw SystemError
  end.

(** [JSON.parse(fs.readFileSync(p))] *)
Definition readJson (p : string) : M Reply :=
  let* r := perform (fun env h => fs_readFileSync env h p) (EvReadFileSync p) in
  match r with
  | Parsed d => ret d
  | Unparsable => throw SyntaxError
  | ReadFails => throw SystemError
  end.

Definition mkdirSync (p : string) : M unit :=
  let* ok := perform (fun env h => fs_mkdirSync env h p) (EvMkdirSync p) in
  if ok : bool then ret tt else throw SystemError.

(** [fs.writeFile] only starts the write. *)
Definition writeFile (p : string) (data : list (string * string)) : M unit :=
  perform (fun _ _ => tt) (EvWriteFile p data).

(** What a call [child_process.spawn(file, args, ...)] holds in the
    position of [args].  Node takes an array there, or nothing
    ([undefined] or [null]); a value that is not an object, such as a
    string, is refused. *)
Inductive SpawnArgs :=
| ArgsArray (args : list string)
| ArgsNone
| ArgsString (s : string).

(** The child is started and the call returns at once, without waiting
    for it. *)
Definition start_child (file : string) (args : list string) : M unit :=
  let* ok := perform (fun env h => child_process_spawn env h file args)
                     (EvSpawn file args) in
  if ok : bool then ret tt else throw SystemError.

(** [child_process.spawn(file, args)]: Node first checks its arguments
    and throws a [TypeError] ([ERR_INVALID_ARG_VALUE] for an empty [file],
    [ERR_INVALID_ARG_TYPE] for [args] that is neither an array nor an
    object) before it starts anything. *)
Definition spawn (file : string) (args : SpawnArgs) : M unit :=
  if String.eqb file EmptyString then throw TypeError
  else
    match args with
    | ArgsArray args => start_child file args
    | ArgsNone => start_child file []
    | ArgsString _ => throw TypeError
    end.

(** ** Helpers of the source *)

(** [s.split(c)] for a one-character separator. *)
Fixpoint String_split (c : ascii) (s : string) : list string :=
  match s with
  | EmptyString => [EmptyString]
  | String d s' =>
      if Ascii.eqb d c then EmptyString :: String_split c s'
      else match String_split c s' with
           | piece :: rest => String d piece :: rest
           | [] => [str1 d]
           end
  end.

Fixpoint findExecutable_loop (executable : string) (paths : list string) : M string :=
  match paths with
  | [] => throw (Error (executable +:+ " is not accessible on the PATH"))
  | pathDir :: rest =>
      let executablePath := path_join [pathDir; executable] in
      let* found := existsSync executablePath in
      if found : bool then ret executablePath
      else findExecutable_loop executable rest
  end.

Definition findExecutableOnPath (executable : string) : M string :=
  fun env =>
    let paths := process_cwd env +:+ ";" +:+ process_env_PATH env in
    findExecutable_loop executable (String_split ";" paths) env.

(** ** The methods of [CMakeApi] *)

Definition _parseReplyFile (replyFile : string) : M Reply :=
  if String.eqb replyFile EmptyString then
    throw (Error "Failed to find CMake API reply file.")
  else
    let* found := existsSync replyFile in
    if negb found then
      throw (Error ("Failed to find CMake API reply file: " +:+ replyFile))
    else readJson replyFile.

Definition queryData : list (string * string) :=
  [ ("cache", "2"); ("codemodel", "2"); ("toolchains", "1") ].

Definition _createApiQuery (apiDir : string) : M unit :=
  let queryDir := path_join [apiDir; "query"; clientName] in
  let* found := existsSync queryDir in
  let* _u := (if negb found then mkdirSync queryDir else ret tt) in
  let queryFile := path_join [queryDir; "query.json"] in
  writeFile queryFile queryData.

(** The loop of [_getApiReplyIndex] over the names in the reply
    directory, with [indexFilepath] as loop state; [a > b] is [b < a]. *)
Definition index_step (indexFilepath : option string) (filepath : string) : option string :=
  if startsWith (path_basename filepath) "index-" then
    match indexFilepath with
    | None => Some filepath
    | Some current =>
        if String.eqb current EmptyString || js_string_lt current filepath
        then Some filepath else indexFilepath
    end
  else indexFilepath.

Definition _getApiReplyIndex (apiDir : string) : M Reply :=
  let replyDir := path_join [apiDir; "reply"] in
  let* found := existsSync replyDir in
  if negb found then throw (Error "Failed to generate CMake Api Reply files")
  else
    let* names := readdirSync replyDir in
    match fold_left index_step names None with
    | None => throw (Error "Failed to find CMake API index reply file.")
    | Some indexFilepath =>
        if String.eqb indexFilepath EmptyString
        then throw (Error "Failed to find CMake API index reply file.")
        else _parseReplyFile indexFilepath
    end.

(** [this.cache[name] = value]; an assignment to [__proto__] of a string
    adds no property. *)
Definition cache_set (name value : string) (api : CMakeApi) : CMakeApi :=
  {| loaded := loaded api;
     cCompilerInfo := cCompilerInfo api;
     cxxCompilerInfo := cxxCompilerInfo api;
     sourceRoot := sourceRoot api;
     cache := if String.eqb name "__proto__" then cache api
              else <[name := value]> (cache api);
     targetFilepaths := targetFilepaths api |}.

Definition _loadCache (cacheJsonFile : string) : M unit :=
  let* data := _parseReplyFile cacheJsonFile in
  modify_this (fun api =>
    fold_left (fun api entry => cache_set (entry_name entry) (entry_value entry) api)
              (entries_of data) api).

Definition push_targetFilepath (p : string) (api : CMakeApi) : CMakeApi :=
  {| loaded := loaded api;
     cCompilerInfo := cCompilerInfo api;
     cxxCompilerInfo := cxxCompilerInfo api;
     sourceRoot := sourceRoot api;
     cache := cache api;
     targetFilepaths := targetFilepaths api ++ [p] |}.

Definition set_sourceRoot (root : string) (api : CMakeApi) : CMakeApi :=
  {| loaded := loaded api;
     cCompilerInfo := cCompilerInfo api;
     cxxCompilerInfo := cxxCompilerInfo api;
     sourceRoot := Some root;
     cache := cache api;
     targetFilepaths := targetFilepaths api |}.

(** Only [configurations[0]] is read; a document without
    [configurations] makes the access throw. *)
Definition _loadCodemodel (replyDir codemodelJsonFile : string) : M unit :=
  let* data := _parseReplyFile codemodelJsonFile in
  match data with
  | RCodemodel c =>
      let targets := match configurations c with
                     | first :: _ => first
                     | [] => []
                     end in
      let* _u := modify_this (fun api =>
        fold_left (fun api jsonFile => push_targetFilepath (path_join [replyDir; jsonFile]) api)
                  targets api) in
      modify_this (set_sourceRoot (paths_source c))
  | _ => throw TypeError
  end.

Definition set_cCompilerInfo (info : CompilerInfo) (api : CMakeApi) : CMakeApi :=
  {| loaded := loaded api;
     cCompilerInfo := Some info;
     cxxCompilerInfo := cxxCompilerInfo api;
     sourceRoot := sourceRoot api;
     cache := cache api;
     targetFilepaths := targetFilepaths api |}.

Definition set_cxxCompilerInfo (info : CompilerInfo) (api : CMakeApi) : CMakeApi :=
  {| loaded := loaded api;
     cCompilerInfo := cCompilerInfo api;
     cxxCompilerInfo := Some info;
     sourceRoot := sourceRoot api;
     cache := cache api;
     targetFilepaths := targetFilepaths api |}.

Definition set_loaded (api : CMakeApi) : CMakeApi :=
  {| loaded := true;
     cCompilerInfo := cCompilerInfo api;
     cxxCompilerInfo := cxxCompilerInfo api;
     sourceRoot := sourceRoot api;
     cache := cache api;
     targetFilepaths := targetFilepaths api |}.

(** [!this.cCompilerInfo && !this.cxxCompilerInfo] *)
Definition no_compiler (api : CMakeApi) : bool :=
  match cCompilerInfo api, cxxCompilerInfo api with
  | None, None => true
  | _, _ => false
  end.

Definition require_MSVC : M unit :=
  let* api := get_this in
  if no_compiler api
  then throw (Error "Action requires use of MSVC for either/both C or C++.")
  else ret tt.

Definition toolchain_step (api : CMakeApi) (toolchain : Toolchain) : CMakeApi :=
  let info := {| ci_path := compiler_path toolchain;
                 ci_version := compiler_version toolchain;
                 ci_includes := compiler_includeDirectories toolchain |} in
  if String.eqb (toolchain_language toolchain) "C"
     && String.eqb (compiler_id toolchain) "MSVC"
  then set_cCompilerInfo info api
  else if String.eqb (toolchain_language toolchain) "CXX"
          && String.eqb (compiler_id toolchain) "MSVC"
  then set_cxxCompilerInfo info api
  else api.

Definition _loadToolchains (toolsetJsonFile : string) : M unit :=
  let* data := _parseReplyFile toolsetJsonFile in
  let* _u := modify_this (fun api => fold_left toolchain_step (toolchains_of data) api) in
  require_MSVC.

(** [p.endsWith("cl.exe") || p.endsWith("cl")] on a cache value; the
    method call on [undefined] throws. *)
Definition is_cl (p : string) : bool := endsWith p "cl.exe" || endsWith p "cl".

Definition _loadToolchainsFromCache : M unit :=
  let* api := get_this in
  match cache api !! "CMAKE_C_COMPILER" with
  | None => throw TypeError
  | Some cPath =>
      let* _u :=
        (if is_cl cPath then
           modify_this (set_cCompilerInfo
             {| ci_path := cPath;
                ci_version := extractVersionFromCompilerPath cPath;
                ci_includes := extractIncludesFromCompilerPath cPath |})
         else ret tt) in
      let* api := get_this in
      match cache api !! "CMAKE_CXX_COMPILER" with
      | None => throw TypeError
      | Some cxxPath =>
          let* _u :=
            (if is_cl cxxPath then
               modify_this (set_cxxCompilerInfo
                 {| ci_path := cxxPath;
                    ci_version := extractVersionFromCompilerPath cxxPath;
                    ci_includes := extractIncludesFromCompilerPath cxxPath |})
             else ret tt) in
          require_MSVC
      end
  end.

(** [v < "3.13.7"] for [v = indexReply.version.string]; a comparison
    with [undefined] is false. *)
Definition minimumVersion : string := "3.13.7".

Definition version_too_old (v : option string) : bool :=
  match v with
  | Some s => js_string_lt s minimumVersion
  | None => false
  end.

(** The check that [loadApi] and [_loadReplyFiles] each make on the
    version string of the index they have read. *)
Definition version_gate (indexReply : Reply) : M unit :=
  match version_string_of indexReply with
  | None => throw TypeError
  | Some v =>
      if version_too_old v then throw (Error "Action requires CMake version >= 3.13.7")
      else ret tt
  end.

Record LoadFlags := {
  cacheLoaded : bool;
  codemodelLoaded : bool;
  toolchainLoaded : bool
}.

(** The flags at the start of the loop over the responses. *)
Definition no_flags : LoadFlags :=
  {| cacheLoaded := false; codemodelLoaded := false; toolchainLoaded := false |}.

(** The loop of [_loadReplyFiles] over the responses of the index, with
    the three flags as loop state. *)
Fixpoint responses_loop (replyDir : string) (responses : list Response) (flags : LoadFlags)
  : M LoadFlags :=
  match responses with
  | [] => ret flags
  | response :: rest =>
      let file := path_join [replyDir; response_jsonFile response] in
      let* flags :=
        (if String.eqb (response_kind response) "cache" then
           let* _u := _loadCache file in
           ret {| cacheLoaded := true;
                  codemodelLoaded := codemodelLoaded flags;
                  toolchainLoaded := toolchainLoaded flags |}
         else if String.eqb (response_kind response) "codemodel" then
           let* _u := _loadCodemodel replyDir file in
           ret {| cacheLoaded := cacheLoaded flags;
                  codemodelLoaded := true;
                  toolchainLoaded := toolchainLoaded flags |}
         else if String.eqb (response_kind response) "toolchains" then
           let* _u := _loadToolchains file in
           ret {| cacheLoaded := cacheLoaded flags;
                  codemodelLoaded := codemodelLoaded flags;
                  toolchainLoaded := true |}
         else ret flags) in
      responses_loop replyDir rest flags
  end.

(** What [_loadReplyFiles] does once the index has passed the gate:
    [indexReply.reply[clientName]] and its ["query.json"] cannot be read
    when the former is missing. *)
Definition load_responses (apiDir : string) (indexReply : Reply) : M unit :=
  let replyDir := path_join [apiDir; "reply"] in
  match indexReply with
  | RIndex i =>
      match client_reply i with
      | None => throw TypeError
      | Some responses =>
          let* flags :=
            responses_loop replyDir responses no_flags in
          if negb (cacheLoaded flags) then
            throw (Error "Failed to load cache response from CMake API")
          else if negb (codemodelLoaded flags) then
            throw (Error "Failed to load codemodel response from CMake API")
          else if negb (toolchainLoaded flags) then _loadToolchainsFromCache
          else ret tt
      end
  | _ => throw TypeError
  end.

Definition _loadReplyFiles (apiDir : string) : M unit :=
  let* indexReply := _getApiReplyIndex apiDir in
  let* _u := version_gate indexReply in
  load_responses apiDir indexReply.

(** [compileArguments.push(x)] *)
Definition push {A} (arr : list A) (x : A) : list A := arr ++ [x].

Definition _getCompileGroupArguments (group : CompileGroup) (options : CompilerCommandOptions)
  : string :=
  let compileArguments := [] in
  let compileArguments :=
    fold_left (fun arr fragment => push arr fragment)
              (compileCommandFragments group) compileArguments in
  let compileArguments :=
    fold_left
      (fun arr include =>
         if ignoreSystemHeaders options && include_isSystem include
         then push arr (escapeArgument (util_format_s "/external:I" (include_path include)))
         else push arr (escapeArgument (util_format_s "/I" (include_path include))))
      (includes group) compileArguments in
  let compileArguments :=
    fold_left (fun arr define => push arr (escapeArgument (util_format_s "/D" define)))
              (defines group) compileArguments in
  String.concat " " compileArguments.

(** The call [child_process.spawn(cmakePath, buildRoot, callback)] hands
    the build directory over as it is: a string in the position of
    [args]. *)
Definition loadApi (buildRoot : string) : M unit :=
  if String.eqb buildRoot EmptyString then
    throw (Error "CMakeApi: 'buildRoot' can not be null or empty.")
  else
    let* found := existsSync buildRoot in
    if negb found then throw (Error ("CMake build root not found at: " +:+ buildRoot))
    else
      let* names := readdirSync buildRoot in
      if length names =? 0 then
        throw (Error "CMake build root must be non-empty as project should already be configured")
      else
        let* cmakePath := findExecutableOnPath "cmake.exe" in
        let apiDir := path_join [buildRoot; ".cmake/api/v1"] in
        let* indexQuery := _getApiReplyIndex apiDir in
        let* _u := _createApiQuery apiDir in
        let* _u := spawn cmakePath (ArgsString buildRoot) in
        let* _u := version_gate indexQuery in
        let* found := existsSync apiDir in
        if negb found then
          throw (Error ".cmake/api/v1 missing, run CMake config before using action.")
        else
          let* _u := _loadReplyFiles apiDir in
          modify_this set_loaded.

(** *** The generator [compileCommandsIterator]

    A run of the generator to its end: what it yields, in order, and the
    error that ended it if one did. *)
Definition Yields (A : Type) : Type := (list A * option error)%type.

(** The [switch] on [group.language]. *)
Definition compilerInfo_for (api : CMakeApi) (lang : string) : option CompilerInfo :=
  if String.eqb lang "C" then cCompilerInfo api
  else if String.eqb lang "CXX" then cxxCompilerInfo api
  else None.

(** The loop over [sourceIndexes]; [sources[i]] out of range is
    [undefined], whose [path] cannot be read, and a missing source root
    is refused by [path.join]. *)
Fixpoint yield_sources (api : CMakeApi) (targetData : Reply) (args0 : string)
    (compilerInfo : CompilerInfo) (indexes : list nat) : Yields CompileCommand :=
  match indexes with
  | [] => ([], None)
  | sourceIndex :: rest =>
      match sources_of targetData !! sourceIndex, sourceRoot api with
      | Some p, Some root =>
          let compileCommand := {| source := path_join [root; p];
                                   args := args0;
                                   compiler := compilerInfo |} in
          let '(more, e) := yield_sources api targetData args0 compilerInfo rest in
          (compileCommand :: more, e)
      | _, _ => ([], Some TypeError)
      end
  end.

(** The loop over the compile groups of one target. *)
Fixpoint yield_groups (api : CMakeApi) (options : CompilerCommandOptions)
    (targetData : Reply) (groups : list CompileGroup) : Yields CompileCommand :=
  match groups with
  | [] => ([], None)
  | group :: rest =>
      match compilerInfo_for api (language group) with
      | Some compilerInfo =>
          let args0 := _getCompileGroupArguments group options in
          match yield_sources api targetData args0 compilerInfo (sourceIndexes group) with
          | (ys, Some e) => (ys, Some e)
          | (ys, None) =>
              let '(more, e) := yield_groups api options targetData rest in
              (ys ++ more, e)
          end
      | None => yield_groups api options targetData rest
      end
  end.

(** The loop over the targets. *)
Fixpoint yield_targets (options : CompilerCommandOptions) (targets : list string)
    (env : Env) (s : State) : State * Yields CompileCommand :=
  match targets with
  | [] => (s, ([], None))
  | target :: rest =>
      match _parseReplyFile target env s with
      | (s', Throw e) => (s', ([], Some e))
      | (s', Return targetData) =>
          match yield_groups (this s') options targetData (compileGroups_of targetData) with
          | (ys, Some e) => (s', (ys, Some e))
          | (ys, None) =>
              let '(s'', (more, e)) := yield_targets options rest env s' in
              (s'', (ys ++ more, e))
          end
      end
  end.

Definition compileCommandsIterator (options : CompilerCommandOptions)
    (env : Env) (s : State) : State * Yields CompileCommand :=
  if negb (loaded (this s)) then
    (s, ([], Some (Error "CMakeApi: getCompileCommands called before API is loaded")))
  else yield_targets options (targetFilepaths (this s)) env s.

(** ** What the properties are stated in *)

(** The error classes of the specification and the class of each thrown
    value, by the message the source gives it. *)
Inductive ErrorKind :=
| ConfigurationError
| ProtocolVersionError
| ReplyMissingError
| ReplyMalformedError
| ToolchainUnresolvedError
| ExternalToolError.

Definition message_kind (m : string) : option ErrorKind :=
  if String.eqb m "Action requires CMake version >= 3.13.7" then Some ProtocolVersionError
  else if String.eqb m "Failed to load cache response from CMake API"
          || String.eqb m "Failed to load codemodel response from CMake API"
          || String.eqb m "Failed to find CMake API reply file."
          || startsWith m "Failed to find CMake API reply file: "
          || String.eqb m "Failed to find CMake API index reply file."
          || String.eqb m "Failed to generate CMake Api Reply files"
  then Some ReplyMissingError
  else if String.eqb m "Action requires use of MSVC for either/both C or C++."
  then Some ToolchainUnresolvedError
  else if endsWith m " is not accessible on the PATH" then Some ExternalToolError
  else if String.eqb m "CMakeApi: 'buildRoot' can not be null or empty."
          || startsWith m "CMake build root not found at: "
          || String.eqb m "CMake build root must be non-empty as project should already be configured"
          || String.eqb m ".cmake/api/v1 missing, run CMake config before using action."
  then Some ConfigurationError
  else None.

Definition error_kind (e : error) : option ErrorKind :=
  match e with
  | Error m => message_kind m
  | SyntaxError => Some ReplyMalformedError
  | TypeError | SystemError => None
  end.

(** A thrown value that is not of the protocol-version class. *)
Definition not_version_error (e : error) : Prop :=
  error_kind e <> Some ProtocolVersionError.

Definition version_error : error := Error "Action requires CMake version >= 3.13.7".

(** The argument string of a compile group as the specification words
    it: the fragments, one quoted include flag per include entry, one
    quoted define flag per define entry, joined by single spaces. *)
Definition include_flag (options : CompilerCommandOptions) (include : Include) : string :=
  if ignoreSystemHeaders options && include_isSystem include
  then "/external:I" else "/I".

Definition expected_args (options : CompilerCommandOptions) (group : CompileGroup) : string :=
  String.concat " "
    (compileCommandFragments group
     ++ map (fun include =>
               escapeArgument (include_flag options include +:+ include_path include))
            (includes group)
     ++ map (fun define => escapeArgument ("/D" +:+ define)) (defines group)).

(** The compiler the specification gives a compile group: the one
    resolved for the group's language, C or C++. *)
Definition resolved_compiler (api : CMakeApi) (group : CompileGroup) : option CompilerInfo :=
  if decide (language group = "C") then cCompilerInfo api
  else if decide (language group = "CXX") then cxxCompilerInfo api
  else None.

(** The descriptor of the specification for the source at [sourceIndex]
    of the target [t], in the compile group [group]. *)
Definition expected_descriptor (options : CompilerCommandOptions) (root : string)
    (t : TargetData) (group : CompileGroup) (compilerInfo : CompilerInfo)
    (sourceIndex : nat) : CompileCommand :=
  {| source := path_join [root; nth sourceIndex (sources t) EmptyString];
     args := expected_args options group;
     compiler := compilerInfo |}.

(** The descriptors of the specification, as a pure function of the
    loaded state and the target documents: targets in order, their compile
    groups in order, one descriptor per source index in order, nothing for
    a group without a resolved compiler. *)
Definition expected_group (api : CMakeApi) (options : CompilerCommandOptions)
    (root : string) (t : TargetData) (group : CompileGroup) : list CompileCommand :=
  match resolved_compiler api group with
  | None => []
  | Some compilerInfo =>
      map (expected_descriptor options root t group compilerInfo) (sourceIndexes group)
  end.

Definition expected_descriptors (api : CMakeApi) (options : CompilerCommandOptions)
    (root : string) (targets : list TargetData) : list CompileCommand :=
  flat_map (fun t => flat_map (expected_group api options root t) (compileGroups t)) targets.

(** A compile group the iterator has no compiler for. *)
Definition unsupported (api : CMakeApi) (group : CompileGroup) : Prop :=
  (language group <> "C" /\ language group <> "CXX")
  \/ (language group = "C" /\ cCompilerInfo api = None)
  \/ (language group = "CXX" /\ cxxCompilerInfo api = None).

(** Two worlds that answer alike, but for what the file [target] holds. *)
Definition same_but_for (target : string) (env env' : Env) : Prop :=
  (forall h p, fs_existsSync env h p = fs_existsSync env' h p)
  /\ (forall h p, p <> target -> fs_readFileSync env h p = fs_readFileSync env' h p).

(** The source indexes of the groups that have a resolved compiler
    index into the sources of their target. *)
Definition valid_indexes (api : CMakeApi) (t : TargetData) : Prop :=
  forall group, In group (compileGroups t) ->
    resolved_compiler api group <> None ->
    Forall (fun sourceIndex => sourceIndex < length (sources t)) (sourceIndexes group).

(** A target file that is there and holds the target document [t]
    whenever it is asked for. *)
Definition holds_target (env : Env) (target : string) (t : TargetData) : Prop :=
  target <> EmptyString
  /\ forall h, fs_existsSync env h target = true
               /\ fs_readFileSync env h target = Parsed (RTarget t).

(** What a thrown value of a computation satisfies. *)
Definition throws_only {A} (P : error -> Prop) (m : M A) : Prop :=
  forall env s s' e, m env s = (s', Throw e) -> P e.

Definition response_kinds (responses : list Response) : list string :=
  map response_kind responses.

Definition has_kind (k : string) (responses : list Response) : bool :=
  existsb (String.eqb k) (response_kinds responses).

(** A computation only adds to what has been done, and what it adds
    satisfies [P]. *)
Definition emits {A} (P : event -> Prop) (m : M A) : Prop :=
  forall env s s' o, m env s = (s', o) -> exists h, done s' = done s ++ h /\ Forall P h.

Definition not_spawn (ev : event) : Prop := is_spawn ev = false.

(** The requests by which the code only looks at the file system. *)
Definition is_look (ev : event) : bool :=
  match ev with
  | EvExistsSync _ | EvReaddirSync _ => true
  | _ => false
  end.

Definition looks (ev : event) : Prop := is_look ev = true.

(** The read of a file, and the write of one. *)
Definition is_read (ev : event) : bool :=
  match ev with EvReadFileSync _ => true | _ => false end.

Definition is_write (ev : event) : bool :=
  match ev with EvWriteFile _ _ => true | _ => false end.

(** A thrown value that is neither a [TypeError] nor of the
    protocol-version class. *)
Definition plain_error (e : error) : Prop :=
  e <> TypeError /\ not_version_error e.

(** What reading a file gives, by the answer of the world. *)
Definition read_outcome (r : FileRead) : outcome Reply :=
  match r with
  | Parsed d => Return d
  | Unparsable => Throw SyntaxError
  | ReadFails => Throw SystemError
  end.

(** The directory and the document of this client's query, for the API
    directory [apiDir]. *)
Definition query_dir (apiDir : string) : string :=
  path_join [apiDir; "query"; clientName].

Definition query_file (apiDir : string) : string :=
  path_join [query_dir apiDir; "query.json"].

(** The API directory of a build directory. *)
Definition api_dir_of (buildRoot : string) : string :=
  path_join [buildRoot; ".cmake/api/v1"].


(** What the cache-based fallback is to record for a compiler path, in
    the words of the convention. *)
Definition info_by_convention (p : string) : CompilerInfo :=
  {| ci_path := p;
     ci_version := path_basename (level_up (level_up (level_up p)));
     ci_includes := [ sibling (level_up (level_up p)) "include" ] |}.

(** ** Example worlds

    A disk is the directories with their entries and the files with the
    documents they hold.  [disk_env before after] answers from [before]
    until a child process has been started and from [after] from then on:
    a child that has done all its work by the time the call that started
    it returns; with the same disk twice nothing on the disk changes. *)

Record Disk := {
  disk_dirs : list (string * list string);
  disk_files : list (string * Reply)
}.

Fixpoint assoc {A} (k : string) (l : list (string * A)) : option A :=
  match l with
  | [] => None
  | (k', v) :: rest => if String.eqb k' k then Some v else assoc k rest
  end.

Definition disk_at (before after : Disk) (h : history) : Disk :=
  if spawned h then after else before.

Definition disk_env (before after : Disk) (cwd PATH : string) : Env := {|
  fs_existsSync := fun h p =>
    let d := disk_at before after h in
    match assoc p (disk_dirs d), assoc p (disk_files d) with
    | None, None => false
    | _, _ => true
    end;
  fs_readdirSync := fun h p => assoc p (disk_dirs (disk_at before after h));
  fs_readFileSync := fun h p =>
    match assoc p (disk_files (disk_at before after h)) with
    | Some r => Parsed r
    | None => ReadFails
    end;
  fs_mkdirSync := fun _ _ => true;
  child_process_spawn := fun _ _ _ => true;
  process_cwd := cwd;
  process_env_PATH := PATH
|}.

Definition cl_exe : string := "C:/VS/VC/Tools/MSVC/14.29.30133/bin/Hostx64/x64/cl.exe".

Definition example_group : CompileGroup := {|
  language := "CXX";
  compileCommandFragments := ["-O2"];
  includes := [ {| include_path := "C:\inc"; include_isSystem := false |} ];
  defines := ["FOO=1"];
  sourceIndexes := [0; 1]
|}.

Definition fortran_group : CompileGroup := {|
  language := "Fortran";
  compileCommandFragments := [];
  includes := [];
  defines := [];
  sourceIndexes := [0]
|}.

Definition example_target : TargetData := {|
  sources := ["src/a.cpp"; "src/b.cpp"];
  compileGroups := [fortran_group; example_group]
|}.

Definition old_index (v : string) : Reply :=
  RIndex {| version_string := v; client_reply := None |}.

Definition new_index (kinds : list string) : Reply :=
  RIndex {| version_string := "3.20.0";
            client_reply :=
              Some (map (fun k => {| response_kind := k;
                                     response_jsonFile := k +:+ ".json" |}) kinds) |}.

Definition api_dir : string := "/work/build/.cmake/api/v1".

Definition reply_dir : string := api_dir +:+ "/reply".

(** A configured build directory whose index was written before the
    query of this client: the query directory is there, without a
    directory for this client. *)
Definition stale_disk (v : string) : Disk := {|
  disk_dirs := [ ("/work/build", [".cmake"; "CMakeCache.txt"]);
                 ("/work/build/.cmake/api/v1", ["query"; "reply"]);
                 (api_dir +:+ "/query", []);
                 (reply_dir, ["index-2021-01-01T00-00-00-0000.json"]) ];
  disk_files := [ ("/opt/cmake/bin/cmake.exe", ROther);
                  ("index-2021-01-01T00-00-00-0000.json", old_index v) ]
|}.

(** The same directory after the build tool has answered the query with
    the response kinds [kinds]. *)
Definition fresh_disk_with (t : TargetData) (kinds : list string)
    (entries : list CacheEntry) : Disk := {|
  disk_dirs := [ ("/work/build", [".cmake"; "CMakeCache.txt"]);
                 ("/work/build/.cmake/api/v1", ["query"; "reply"]);
                 (api_dir +:+ "/query", ["client-msvc-ca-action"]);
                 (api_dir +:+ "/query/client-msvc-ca-action", ["query.json"]);
                 (reply_dir, ["index-2021-01-01T00-00-00-0000.json";
                              "index-2021-06-01T00-00-00-0000.json"]) ];
  disk_files := [ ("/opt/cmake/bin/cmake.exe", ROther);
                  ("index-2021-01-01T00-00-00-0000.json", old_index "3.20.0");
                  ("index-2021-06-01T00-00-00-0000.json", new_index kinds);
                  (reply_dir +:+ "/cache.json", RCache entries);
                  (reply_dir +:+ "/codemodel.json",
                   RCodemodel {| paths_source := "/work/src";
                                 configurations := [["target-app.json"]] |});
                  (reply_dir +:+ "/toolchains.json",
                   RToolchains [ {| toolchain_language := "CXX";
                                    compiler_id := "MSVC";
                                    compiler_path := cl_exe;
                                    compiler_version := "19.29.30133.0";
                                    compiler_includeDirectories := [] |} ]);
                  (reply_dir +:+ "/target-app.json", RTarget t) ]
|}.

Definition fresh_disk : list string -> list CacheEntry -> Disk :=
  fresh_disk_with example_target.

Definition both_compilers : list CacheEntry :=
  [ {| entry_name := "CMAKE_C_COMPILER"; entry_value := cl_exe |};
    {| entry_name := "CMAKE_CXX_COMPILER"; entry_value := cl_exe |} ].

Definition cxx_compiler_only : list CacheEntry :=
  [ {| entry_name := "CMAKE_CXX_COMPILER"; entry_value := cl_exe |} ].

Definition all_kinds : list string := ["cache"; "codemodel"; "toolchains"].

(** A world in which the build tool, once started, has answered the
    query by the time the call that started it returns. *)
Definition env_answered (kinds : list string) (entries : list CacheEntry) : Env :=
  disk_env (stale_disk "3.20.0") (fresh_disk kinds entries) "/work" "/opt/cmake/bin;/usr/bin".

(** A world in which the replies stay as they were before the query,
    with an index that reports the version [v]. *)
Definition env_running (v : string) : Env :=
  disk_env (stale_disk v) (stale_disk v) "/work" "/opt/cmake/bin;/usr/bin".

(** The replies are there from the start (a second run of the action). *)
Definition env_settled (kinds : list string) (entries : list CacheEntry) : Env :=
  disk_env (fresh_disk kinds entries) (fresh_disk kinds entries)
           "/work" "/opt/cmake/bin;/usr/bin".

(** The same, with the target document [t]. *)
Definition env_settled_with (t : TargetData) : Env :=
  disk_env (fresh_disk_with t all_kinds both_compilers)
           (fresh_disk_with t all_kinds both_compilers)
           "/work" "/opt/cmake/bin;/usr/bin".

Definition start : State := {| this := CMakeApi_new; done := [] |}.

Definition no_options : CompilerCommandOptions :=
  {| ignoreSystemHeaders := false; usePrecompiledHeaders := false |}.

(** The state after the cache reply with [entries] has been loaded. *)
Definition api_with_cache (entries : list CacheEntry) : CMakeApi :=
  fold_left (fun api entry => cache_set (entry_name entry) (entry_value entry) api)
            entries CMakeApi_new.

(** A loaded state for the example replies. *)
Definition loaded_example : State := {|
  this := {| loaded := true;
             cCompilerInfo := None;
             cxxCompilerInfo :=
               Some {| ci_path := cl_exe;
                       ci_version := "19.29.30133.0";
                       ci_includes := [] |};
             sourceRoot := Some "/work/src";
             cache := ∅;
             targetFilepaths := [reply_dir +:+ "/target-app.json"] |};
  done := []
|}.

(** A token with a double quote inside, and one that ends the quoted
    part it is put in before its end. *)
Definition token_with_quote : string := "a" +:+ str1 dquote +:+ "b".

Definition token_closing_early : string :=
  backslashes 2 +:+ str1 dquote +:+ backslashes 1.


(** ** The helpers of the analysis stage

    The functions of [index.js] around the loader: the action's inputs,
    the options object, the search for the analysis engine next to the
    compiler, the results directory. *)

(** [path.dirname] in its POSIX flavour.  The scan runs from the last
    character down to index 1; [chars] are the characters still to be
    looked at, last first, [i] is the index of the first of them and
    [matchedSlash] says that only separators were seen so far.  The result
    is the value of [end], [None] for [-1]. *)
Fixpoint dirname_scan (chars : list ascii) (i : nat) (matchedSlash : bool) : option nat :=
  match chars with
  | [] => None
  | c :: before =>
      if isPathSeparator c then
        if matchedSlash then dirname_scan before (i - 1) matchedSlash else Some i
      else dirname_scan before (i - 1) false
  end.

Definition path_dirname (path : string) : string :=
  match path with
  | EmptyString => "."
  | String first rest =>
      let hasRoot := isPathSeparator first in
      match dirname_scan (rev (list_ascii_of_string rest)) (String.length rest) true with
      | None => if hasRoot then "/" else "."
      | Some e => if hasRoot && (e =? 1) then "//" else substring 0 e path
      end
  end.

(** The inputs of the action: [core.getInput(name)], the empty string for
    an input that is not set, and [process.env.GITHUB_WORKSPACE]. *)
Record Inputs := {
  core_getInput : string -> string;
  process_env_GITHUB_WORKSPACE : option string
}.

(** [path.join] refuses an argument that is not a string, which is what
    a missing [GITHUB_WORKSPACE] makes of the join. *)
Definition resolveInputPath (inputs : Inputs) (input : string) (required : bool) : M string :=
  let inputPath := core_getInput inputs input in
  let* _u :=
    (if String.eqb inputPath EmptyString then
       if required then throw (Error (input +:+ " input path can not be empty."))
       else ret tt
     else ret tt) in
  if negb (isAbsolute inputPath) then
    match process_env_GITHUB_WORKSPACE inputs with
    | Some workspace => ret (path_join [workspace; inputPath])
    | None => throw TypeError
    end
  else ret inputPath.

(** [new CompilerCommandOptions()]: [ignoreSystemHeaders] holds the input
    string, which the code tests for truthiness. *)
Definition CompilerCommandOptions_new (inputs : Inputs) : CompilerCommandOptions :=
  {| ignoreSystemHeaders :=
       negb (String.eqb (core_getInput inputs "ignoreSystemHeaders") EmptyString);
     usePrecompiledHeaders := false |}.

Definition findEspXEngine (clPath : string) : M string :=
  let clDir := path_dirname clPath in
  let dllPath := path_join [clDir; "EspXEngine.dll"] in
  let* found := existsSync dllPath in
  if found : bool then ret dllPath
  else
    let hostDir := path_dirname clDir in
    let* targetName :=
      (if String.eqb (path_basename hostDir) "HostX86" then ret "x86"
       else if String.eqb (path_basename hostDir) "HostX64" then ret "x64"
       else throw (Error "Unknown MSVC toolset layout")) in
    let dllPath := path_join [hostDir; targetName; "EspXEngine.dll"] in
    let* found := existsSync dllPath in
    if found : bool then ret dllPath
    else throw (Error "Unable to find EspXEngine.dll").

(** [s.toLowerCase()] on code units below 256: the letters [A] to [Z]
    and the capital letters of Latin-1, code units 192 to 222 but for the
    multiplication sign 215. *)
Definition toLowerCase_unit (c : ascii) : ascii :=
  let n := nat_of_ascii c in
  if ((65 <=? n) && (n <=? 90))
     || ((192 <=? n) && (n <=? 222) && negb (n =? 215))
  then ascii_of_nat (n + 32)
  else c.

Fixpoint toLowerCase (s : string) : string :=
  match s with
  | EmptyString => EmptyString
  | String c s' => String (toLowerCase_unit c) (toLowerCase s')
  end.

(** The loop of [prepareResultsDir] over the directory's entries:
    [fs.readdirSync(dir)] gives the names as strings, a string has no
    [isFile], and calling what is [undefined] throws at the first
    entry. *)
Definition clean_loop (files : list string) : M unit :=
  match files with
  | [] => ret tt
  | file :: _ => throw TypeError
  end.

(** The [recursive] option of this [mkdirSync] changes what the world
    does, not what is asked of it. *)
Definition prepareResultsDir (inputs : Inputs) : M string :=
  let* resultsDir := resolveInputPath inputs "resultsDirectory" true in
  let* found := existsSync resultsDir in
  let* _u := (if negb found then mkdirSync resultsDir else ret tt) in
  let cleanSarif := core_getInput inputs "cleanSarif" in
  let* _u :=
    (if String.eqb (toLowerCase cleanSarif) "true" then
       let* files := readdirSync resultsDir in
       clean_loop files
     else if String.eqb (toLowerCase cleanSarif) "false" then ret tt
     else throw (Error "Unsupported value for 'cleanSarif'. Must be either 'True' or 'False'")) in
  ret resultsDir.

(** *** The search for the ruleset

    [findRuleset] also prints a warning.  What [core.warning] has printed
    is kept beside the state, so that it is still there when the function
    throws. *)
Definition MW (A : Type) : Type :=
  Env -> State -> list string -> (State * list string) * outcome A.

Definition liftW {A} (m : M A) : MW A :=
  fun env s printed => let '(s', o) := m env s in ((s', printed), o).

Definition retW {A} (a : A) : MW A := fun _ s printed => ((s, printed), Return a).

Definition throwW {A} (e : error) : MW A := fun _ s printed => ((s, printed), Throw e).

Definition bindW {A B} (m : MW A) (k : A -> MW B) : MW B :=
  fun env s printed =>
    match m env s printed with
    | ((s', printed'), Return a) => k a env s' printed'
    | ((s', printed'), Throw e) => ((s', printed'), Throw e)
    end.

(** [core.warning(message)] *)
Definition core_warning (message : string) : MW unit :=
  fun _ s printed => ((s, printed ++ [message]), Return tt).

(** [rulesetDirectory] is what [findRulesetDirectory] has returned: a
    directory, or [undefined] ([None]).  The result is the path of the
    ruleset, [None] for [undefined]. *)
Definition findRuleset (inputs : Inputs) (rulesetDirectory : option string)
  : MW (option string) :=
  bindW (liftW (resolveInputPath inputs "ruleset" false)) (fun repoRulesetPath =>
  if String.eqb repoRulesetPath EmptyString then retW None
  else
    bindW (liftW (existsSync repoRulesetPath)) (fun found =>
    if found : bool then retW (Some repoRulesetPath)
    else
      let rulesetPath := core_getInput inputs "ruleset" in
      match rulesetDirectory with
      | Some directory =>
          let officialRulesetPath := path_join [directory; rulesetPath] in
          bindW (liftW (existsSync officialRulesetPath)) (fun found =>
          if found : bool then retW (Some officialRulesetPath)
          else throwW (Error ("Unable to fine ruleset specified: " +:+ rulesetPath)))
      | None =>
          bindW (core_warning "Unable to find official rulesets shipped with Visual Studio")
                (fun _ =>
          throwW (Error ("Unable to fine ruleset specified: " +:+ rulesetPath)))
      end)).

(** ** What the further properties are stated in *)

(** A path written with its segments: absolute or relative, the segments
    joined by the separator. *)
Definition path_of (isAbs : bool) (segs : list string) : string :=
  (if isAbs then "/" else EmptyString) +:+ unsegments segs.

Definition all_names (segs : list string) : Prop :=
  Forall (fun seg => is_name seg = true) segs.

(** The directories [findExecutableOnPath] looks in, in order, and the
    file it looks for in each. *)
Definition search_dirs (env : Env) : list string :=
  String_split ";" (process_cwd env +:+ ";" +:+ process_env_PATH env).

Definition candidates (executable : string) (env : Env) : list string :=
  map (fun pathDir => path_join [pathDir; executable]) (search_dirs env).

(** A world whose files do not come and go. *)
Definition stable_files (env : Env) (present : string -> bool) : Prop :=
  forall h p, fs_existsSync env h p = present p.

(** An entry of the reply directory that [_getApiReplyIndex] takes for an
    index file. *)
Definition is_index (filepath : string) : bool :=
  startsWith (path_basename filepath) "index-".

(** The value of the last entry of the cache reply that is named
    [name]. *)
Definition last_value (name : string) (entries : list CacheEntry) : option string :=
  match List.find (fun entry => String.eqb (entry_name entry) name) (rev entries) with
  | Some entry => Some (entry_value entry)
  | None => None
  end.

(** The last toolchain of the reply for the language [lang] whose
    compiler is MSVC, as a [CompilerInfo]. *)
Definition last_MSVC (lang : string) (toolchains : list Toolchain) : option CompilerInfo :=
  match List.find (fun toolchain =>
                     String.eqb (toolchain_language toolchain) lang
                     && String.eqb (compiler_id toolchain) "MSVC")
                  (rev toolchains) with
  | Some toolchain =>
      Some {| ci_path := compiler_path toolchain;
              ci_version := compiler_version toolchain;
              ci_includes := compiler_includeDirectories toolchain |}
  | None => None
  end.

(** A response of one of the three kinds the loader asks for. *)
Definition known_kind (response : Response) : bool :=
  String.eqb (response_kind response) "cache"
  || String.eqb (response_kind response) "codemodel"
  || String.eqb (response_kind response) "toolchains".

(** What a computation keeps true of the object, whatever its outcome. *)
Definition keeps {A} (I : CMakeApi -> Prop) (m : M A) : Prop :=
  forall env s s' o, m env s = (s', o) -> I (this s) -> I (this s').

(** What is true of the object when a computation returns. *)
Definition establishes {A} (I : CMakeApi -> Prop) (m : M A) : Prop :=
  forall env s s' a, m env s = (s', Return a) -> I (this s').

Definition has_compiler (api : CMakeApi) : Prop := no_compiler api = false.

Definition has_sourceRoot (api : CMakeApi) : Prop := sourceRoot api <> None.

(** A look at one of the files [targets]: the only thing the iterator
    does to the world. *)
Definition reads_target (targets : list string) (ev : event) : Prop :=
  exists target, In target targets
                 /\ (ev = EvExistsSync target \/ ev = EvReadFileSync target).

(** A descriptor whose compiler is one the object holds. *)
Definition compiler_of (api : CMakeApi) (command : CompileCommand) : Prop :=
  cCompilerInfo api = Some (compiler command)
  \/ cxxCompilerInfo api = Some (compiler command).

(** The descriptor of the source at [sourceIndex] of the target [t]. *)
Definition descriptor (root : string) (t : TargetData) (args0 : string)
    (compilerInfo : CompilerInfo) (sourceIndex : nat) : CompileCommand :=
  {| source := path_join [root; nth sourceIndex (sources t) EmptyString];
     args := args0;
     compiler := compilerInfo |}.

(** What [_getApiReplyIndex] is to pick among the entries [names] of the
    reply directory: the greatest of the index files in the order of
    [<], none when there is no index file. *)
Definition selected (names : list string) (choice : option string) : Prop :=
  match choice with
  | Some f =>
      In f names /\ is_index f = true
      /\ forall g, In g names -> is_index g = true -> String.leb g f = true
  | None => forall g, In g names -> is_index g = false
  end.

(** The [switch] of [findEspXEngine] on the name of the host directory. *)
Definition host_target (host : string) : option string :=
  if String.eqb host "HostX86" then Some "x86"
  else if String.eqb host "HostX64" then Some "x64"
  else None.

(** ** Further example worlds *)

Definition example_inputs : Inputs := {|
  core_getInput := fun name =>
    if String.eqb name "resultsDirectory" then "out/sarif"
    else if String.eqb name "cleanSarif" then "False"
    else if String.eqb name "ignoreSystemHeaders" then "false"
    else EmptyString;
  process_env_GITHUB_WORKSPACE := Some "/work"
|}.

(** A toolset with the engine in the directory of the 64-bit target
    only. *)
Definition toolset_disk : Disk := {|
  disk_dirs := [];
  disk_files := [ ("/VS/bin/HostX64/x64/EspXEngine.dll", ROther) ]
|}.

Definition toolset_env : Env := disk_env toolset_disk toolset_disk "/work" "/usr/bin".

(** A reply directory as the build tool leaves it: the index file is
    inside the reply directory and nowhere else. *)
Definition nested_disk : Disk := {|
  disk_dirs := [ (reply_dir, ["cache-v2.json"; "index-2021-06-01T00-00-00-0000.json"]) ];
  disk_files := [ (reply_dir +:+ "/index-2021-06-01T00-00-00-0000.json",
                   new_index all_kinds) ]
|}.

Definition nested_env : Env := disk_env nested_disk nested_disk "/work" "/usr/bin".

(** A toolchains reply of a build that uses another compiler. *)
Definition gnu_toolchains : list Toolchain :=
  [ {| toolchain_language := "C";
       compiler_id := "GNU";
       compiler_path := "/usr/bin/gcc";
       compiler_version := "11.2.0";
       compiler_includeDirectories := ["/usr/include"] |};
    {| toolchain_language := "CXX";
       compiler_id := "GNU";
       compiler_path := "/usr/bin/g++";
       compiler_version := "11.2.0";
       compiler_includeDirectories := ["/usr/include"] |} ].

Definition gnu_disk : Disk := {|
  disk_dirs := [];
  disk_files := [ ("/reply/toolchains-v1.json", RToolchains gnu_toolchains) ]
|}.

Definition gnu_env : Env := disk_env gnu_disk gnu_disk "/work" "/usr/bin".

(** The replies of such a build to a query that was answered without the
    code model: the index lists a cache and a toolchains response. *)
Definition gnu_reply_disk : Disk := {|
  disk_dirs := [ (reply_dir, ["index-2021-06-01T00-00-00-0000.json"]) ];
  disk_files := [ ("index-2021-06-01T00-00-00-0000.json",
                   new_index ["cache"; "toolchains"]);
                  (reply_dir +:+ "/cache.json", RCache both_compilers);
                  (reply_dir +:+ "/toolchains.json", RToolchains gnu_toolchains) ]
|}.

Definition gnu_reply_env : Env :=
  disk_env gnu_reply_disk gnu_reply_disk "/work" "/usr/bin".

(** A target document whose compile group lists a source index that its
    [sources] do not have. *)
Definition overrun_group : CompileGroup := {|
  language := "CXX";
  compileCommandFragments := ["-O2"];
  includes := [];
  defines := [];
  sourceIndexes := [0; 3; 1]
|}.

Definition overrun_target : TargetData := {|
  sources := ["src/a.cpp"; "src/b.cpp"];
  compileGroups := [fortran_group; overrun_group]
|}.

(** A toolset whose host directory is spelt [Hostx64], with the engine
    in the directory of the 64-bit target only. *)
Definition lowercase_host_disk : Disk := {|
  disk_dirs := [];
  disk_files := [ ("/VS/bin/Hostx64/x64/EspXEngine.dll", ROther) ]
|}.

Definition lowercase_host_env : Env :=
  disk_env lowercase_host_disk lowercase_host_disk "/work" "/usr/bin".

(** A target with a source outside the source tree, which the code model
    lists by its absolute path. *)
Definition generated_target : TargetData := {|
  sources := ["src/a.cpp"; "/work/build/gen/moc_a.cpp"];
  compileGroups := [ {| language := "CXX";
                        compileCommandFragments := [];
                        includes := [];
                        defines := [];
                        sourceIndexes := [1] |} ]
|}.

(** A reply directory without an index file. *)
Definition no_index_disk : Disk := {|
  disk_dirs := [ (reply_dir, ["cache-v2-0123.json"; "codemodel-v2-4567.json"]) ];
  disk_files := []
|}.

Definition no_index_env : Env := disk_env no_index_disk no_index_disk "/work" "/usr/bin".

(** Inputs that set no ruleset, and a world in which the workspace
    directory is there. *)
Definition workspace_disk : Disk := {|
  disk_dirs := [ ("/work", ["CMakeLists.txt"; "src"]) ];
  disk_files := []
|}.

Definition workspace_env : Env := disk_env workspace_disk workspace_disk "/work" "/usr/bin".
(* ================================================================== *)
(** * Part II: verification                                            *)
(* ================================================================== *)

Example escapeArgument_foo :
  escapeArgument "C:\\foo\\" = str1 dquote +:+ "C:\\foo\\\\" +:+ str1 dquote.
Proof. reflexivity. Qed.

(** ** Strings *)

Lemma append_nil_r (s : string) : s +:+ EmptyString = s.
Proof. induction s; simpl; congruence. Qed.

Lemma append_assoc (a b c : string) : (a +:+ b) +:+ c = a +:+ (b +:+ c).
Proof. induction a; simpl; congruence. Qed.

Lemma length_append (a b : string) :
  String.length (a +:+ b) = String.length a + String.length b.
Proof. induction a; simpl; lia. Qed.

Lemma length_backslashes n : String.length (backslashes n) = n.
Proof. induction n; simpl; lia. Qed.

Lemma backslashes_add n m : backslashes (n + m) = backslashes n +:+ backslashes m.
Proof. induction n; simpl; congruence. Qed.

Lemma backslashes_snoc n : backslashes (S n) = backslashes n +:+ str1 backslash.
Proof.
  induction n as [|n IH]; [reflexivity|].
  simpl. f_equal. exact IH.
Qed.

Lemma get_backslashes n k : n < k -> String.get n (backslashes k) = Some backslash.
Proof.
  revert n; induction k; intros n Hn; [lia|].
  destruct n; simpl; [reflexivity|]. apply IHk; lia.
Qed.

Lemma all_backslash_backslashes n : all_backslash (backslashes n) = true.
Proof. induction n; simpl; auto. Qed.

Lemma all_backslash_eq s : all_backslash s = true -> s = backslashes (String.length s).
Proof.
  induction s as [|c s IH]; simpl; [reflexivity|].
  intros [Hc Hs]%andb_true_iff. apply Ascii.eqb_eq in Hc. subst c.
  f_equal. auto.
Qed.

Lemma all_backslash_app a b :
  all_backslash (a +:+ b) = all_backslash a && all_backslash b.
Proof. induction a; simpl; [reflexivity|]. rewrite IHa. apply andb_assoc. Qed.

Lemma Array_join_backslashes i : Array_join (i + 1) (str1 backslash) = backslashes i.
Proof.
  unfold Array_join. replace (i + 1) with (S i) by lia.
  induction i; [reflexivity|].
  change (repeat EmptyString (S (S i))) with (EmptyString :: repeat EmptyString (S i)).
  change (String.concat (str1 backslash) (EmptyString :: repeat EmptyString (S i)))
    with (EmptyString +:+ str1 backslash +:+ String.concat (str1 backslash) (repeat EmptyString (S i))).
  rewrite IHi. reflexivity.
Qed.

(** ** The trailing run of a token *)

Lemma get_lt n s : n < String.length s -> exists d, String.get n s = Some d.
Proof.
  revert n. induction s as [|c s IH]; simpl; intros n Hn; [lia|].
  destruct n; [eauto|]. apply IH. lia.
Qed.

Lemma last_char_cons c s :
  last_char (String c s) = match last_char s with Some d => Some d | None => Some c end.
Proof.
  unfold last_char. simpl String.length.
  destruct (String.length s) as [|n] eqn:Hlen; [reflexivity|].
  simpl. destruct (get_lt n s) as [d Hd]; [lia|]. now rewrite Hd.
Qed.

Lemma last_char_None s : last_char s = None -> s = EmptyString.
Proof.
  destruct s as [|c s]; [reflexivity|]. rewrite last_char_cons.
  destruct (last_char s); discriminate.
Qed.

Lemma last_char_app_char s c : last_char (s +:+ str1 c) = Some c.
Proof.
  induction s as [|d s IH]; [reflexivity|]. simpl. rewrite last_char_cons, IH. reflexivity.
Qed.

(** A token is its body followed by its trailing run, and the body does
    not end in a backslash. *)
Lemma trailing_run_split s :
  exists u, s = u +:+ backslashes (trailing_run s) /\ last_char u <> Some backslash.
Proof.
  induction s as [|c s (u & Hs & Hu)].
  - exists EmptyString. split; [reflexivity|discriminate].
  - cbn [trailing_run]. destruct (all_backslash (String c s)) eqn:Hall.
    + exists EmptyString. split; [|discriminate]. simpl append. now apply all_backslash_eq.
    + exists (String c u). split; [simpl; congruence|].
      rewrite last_char_cons. destruct (last_char u) eqn:Hl; [congruence|].
      apply last_char_None in Hl. subst u. simpl in Hs.
      intros [= ->]. simpl in Hall. rewrite Hs in Hall.
      rewrite all_backslash_backslashes in Hall. discriminate.
Qed.

Lemma trailing_run_all s : all_backslash s = true -> trailing_run s = String.length s.
Proof. destruct s as [|c s]; [reflexivity|]. intros H. cbn [trailing_run]. now rewrite H. Qed.

Lemma trailing_run_unique u k :
  last_char u <> Some backslash -> trailing_run (u +:+ backslashes k) = k.
Proof.
  intros Hu. induction u as [|c u IH].
  - simpl. rewrite trailing_run_all by apply all_backslash_backslashes.
    apply length_backslashes.
  - change (String c u +:+ backslashes k) with (String c (u +:+ backslashes k)).
    cbn [trailing_run].
    change (String c (u +:+ backslashes k)) with (String c u +:+ backslashes k).
    rewrite all_backslash_app, all_backslash_backslashes, andb_true_r.
    destruct (all_backslash (String c u)) eqn:Hall.
    + exfalso. apply Hu. apply all_backslash_eq in Hall. rewrite Hall.
      simpl String.length. rewrite backslashes_snoc. apply last_char_app_char.
    + apply IH. rewrite last_char_cons in Hu. destruct (last_char u); congruence.
Qed.

Lemma trailing_run_app_backslashes s k :
  trailing_run (s +:+ backslashes k) = trailing_run s + k.
Proof.
  destruct (trailing_run_split s) as (u & Hs & Hu).
  rewrite Hs at 1. rewrite append_assoc, <- backslashes_add.
  now apply trailing_run_unique.
Qed.

Lemma trailing_run_last s :
  last_char s <> Some backslash -> trailing_run s = 0.
Proof.
  intros H. rewrite <- (append_nil_r s). now apply (trailing_run_unique s 0).
Qed.

Lemma trailing_run_cons_other c s :
  c <> backslash -> trailing_run (String c s) = trailing_run s.
Proof.
  intros Hc. cbn [trailing_run all_backslash].
  apply Ascii.eqb_neq in Hc. now rewrite Hc.
Qed.

(** ** The counting loop of [escapeArgument] *)

Lemma last_char_get u : u <> EmptyString -> String.get (String.length u - 1) u = last_char u.
Proof.
  destruct u as [|c u]; [congruence|]. intros _. unfold last_char.
  simpl String.length. replace (S (String.length u) - 1) with (String.length u) by lia.
  reflexivity.
Qed.

Lemma trailing_loop_run u k fuel i :
  last_char u <> Some backslash -> i <= k -> k - i < fuel ->
  trailing_loop (u +:+ backslashes k) fuel i = k.
Proof.
  intros Hu. revert i. induction fuel as [|fuel IH]; intros i Hi Hf; [lia|].
  cbn [trailing_loop]. rewrite length_append, length_backslashes.
  destruct (Nat.eq_dec i k) as [->|Hne].
  - destruct (String.length u) as [|n] eqn:Hlen.
    + replace (k <? 0 + k) with false by (symmetry; apply Nat.ltb_ge; lia). reflexivity.
    + replace (S n + k - 1 - k) with (String.length u - 1) by lia.
      rewrite <- append_correct1 by lia.
      rewrite last_char_get by (intros ->; discriminate).
      destruct (last_char u) as [d|] eqn:Hl; simpl; [|now rewrite andb_false_r].
      destruct (Ascii.eqb_spec d backslash); [congruence|now rewrite andb_false_r].
  - replace (i <? String.length u + k) with true by (symmetry; apply Nat.ltb_lt; lia).
    replace (String.length u + k - 1 - i) with ((k - 1 - i) + String.length u) by lia.
    rewrite <- append_correct2, get_backslashes by lia.
    cbn [char_is]. rewrite Ascii.eqb_refl. cbn [andb]. apply IH; lia.
Qed.

(** With more fuel than the token is long the loop stops because its
    guard fails, at the trailing run of the token; the fuel given by
    [escapeArgument] is enough. *)
Lemma trailing_loop_fuel arg fuel :
  String.length arg < fuel -> trailing_loop arg fuel 0 = trailing_run arg.
Proof.
  intros Hfuel. destruct (trailing_run_split arg) as (u & Hs & Hu).
  rewrite Hs in Hfuel. rewrite length_append, length_backslashes in Hfuel.
  rewrite Hs at 1. apply trailing_loop_run; [assumption|lia|lia].
Qed.

Lemma trailing_loop_exit arg :
  trailing_loop arg (S (String.length arg)) 0 = trailing_run arg.
Proof. apply trailing_loop_fuel. lia. Qed.

Lemma escapeArgument_unfold arg :
  escapeArgument arg =
  String dquote (arg +:+ backslashes (trailing_run arg) +:+ str1 dquote).
Proof.
  unfold escapeArgument. rewrite trailing_loop_exit.
  destruct (trailing_run arg) as [|k] eqn:Hk.
  - simpl (0 <? 0). cbn [backslashes]. simpl. reflexivity.
  - replace (0 <? S k) with true by reflexivity.
    rewrite Array_join_backslashes. simpl. now rewrite append_assoc.
Qed.

(** ** Unquoting a quoted token *)

Lemma backslashes_S_app n s :
  backslashes (S n) +:+ s = backslashes n +:+ String backslash s.
Proof. induction n as [|n IH]; [reflexivity|]. simpl in *. now rewrite IH. Qed.

Lemma dquote_not_backslash : Ascii.eqb dquote backslash = false.
Proof. reflexivity. Qed.

(** A run of backslashes that reaches a quote is halved, and the parity of
    the run decides whether the quote is literal. *)
Lemma msvc_scan_run_quote m rest inq n :
  msvc_scan (backslashes m +:+ String dquote rest) inq n =
  backslashes (Nat.div2 (n + m)) +:+
  (if Nat.odd (n + m) then String dquote (msvc_scan rest inq 0)
   else msvc_scan rest (negb inq) 0).
Proof.
  revert n. induction m as [|m IH]; intros n.
  - rewrite Nat.add_0_r. reflexivity.
  - simpl. rewrite IH. now replace (S n + m) with (n + S m) by lia.
Qed.

Lemma msvc_scan_closing m :
  msvc_scan (backslashes (2 * m) +:+ str1 dquote) true 0 = backslashes m.
Proof.
  unfold str1. rewrite msvc_scan_run_quote.
  change (0 + 2 * m) with (2 * m).
  rewrite Nat.div2_double, Nat.odd_even. simpl. apply append_nil_r.
Qed.

Lemma msvc_scan_quoted s :
  has_char dquote s = false ->
  forall n,
    msvc_scan (s +:+ backslashes (trailing_run s) +:+ str1 dquote) true n =
    if all_backslash s
    then msvc_scan (backslashes (2 * String.length s) +:+ str1 dquote) true n
    else backslashes n +:+ s.
Proof.
  induction s as [|c s IH]; intros Hq n; [reflexivity|].
  simpl in Hq. apply orb_false_iff in Hq as [Hc Hq]. specialize (IH Hq).
  cbn [trailing_run all_backslash].
  change (String c s +:+ ?t) with (String c (s +:+ t)).
  destruct (Ascii.eqb_spec c backslash) as [->|Hb]; cbn [andb].
  - destruct (all_backslash s) eqn:Hall.
    + f_equal. apply all_backslash_eq in Hall. rewrite Hall at 1.
      rewrite <- append_assoc, <- backslashes_add.
      change (String backslash (backslashes ?k +:+ ?t)) with (backslashes (S k) +:+ t).
      do 2 f_equal. simpl String.length. lia.
    + cbn [msvc_scan]. rewrite Ascii.eqb_refl, IH. apply backslashes_S_app.
  - cbn [msvc_scan]. apply Ascii.eqb_neq in Hb. rewrite Hb, Hc, andb_false_r.
    f_equal. f_equal. rewrite IH. destruct (all_backslash s) eqn:Hall; [|reflexivity].
    rewrite msvc_scan_closing. symmetry. now apply all_backslash_eq.
Qed.

Lemma unquote_escapeArgument s :
  has_char dquote s = false -> unquote (escapeArgument s) = s.
Proof.
  intros Hq. rewrite escapeArgument_unfold. unfold unquote.
  cbn [msvc_scan]. rewrite dquote_not_backslash, Ascii.eqb_refl.
  cbn [Nat.odd Nat.even Nat.div2 backslashes negb]. simpl String.append.
  rewrite msvc_scan_quoted by assumption.
  destruct (all_backslash s) eqn:Hall; [|reflexivity].
  rewrite msvc_scan_closing. symmetry. now apply all_backslash_eq.
Qed.

(** The quoting of every token, with or without quotes inside: the token,
    its trailing run once more, between two double quotes; the closing
    quote after an even run of backslashes. *)
Lemma escapeArgument_shape (s : string) :
  escapeArgument s =
    str1 dquote +:+ s +:+ backslashes (trailing_run s) +:+ str1 dquote
  /\ exists body,
       escapeArgument s = body +:+ str1 dquote
       /\ trailing_run body = 2 * trailing_run s.
Proof.
  split; [apply escapeArgument_unfold|].
  exists (String dquote (s +:+ backslashes (trailing_run s))). split.
  - rewrite escapeArgument_unfold. simpl. now rewrite append_assoc.
  - rewrite trailing_run_cons_other by discriminate.
    rewrite trailing_run_app_backslashes. lia.
Qed.

(** C2 (amended).  For every token, the quoting appends as many
    backslashes as the token has at its end and wraps the result in double
    quotes, and the closing quote of the quoted form stands after an even
    run of backslashes (twice the token's), so it is not escaped; for
    every token without a double quote inside, unquoting the quoted form
    gives the token back, so its trailing run of backslashes has the
    length of the original's. *)
Theorem C2_quoting (s : string) :
  escapeArgument s =
    str1 dquote +:+ s +:+ backslashes (trailing_run s) +:+ str1 dquote
  /\ (exists body,
        escapeArgument s = body +:+ str1 dquote
        /\ trailing_run body = 2 * trailing_run s)
  /\ (has_char dquote s = false ->
      unquote (escapeArgument s) = s
      /\ trailing_run (unquote (escapeArgument s)) = trailing_run s).
Proof.
  destruct (escapeArgument_shape s) as [Hshape Heven].
  split; [exact Hshape|]. split; [exact Heven|].
  intros Hq. rewrite unquote_escapeArgument by assumption. now split.
Qed.

Lemma C2_quoting_witness :
  has_char dquote "C:\\foo\\" = false
  /\ unquote (escapeArgument "C:\\foo\\") = "C:\\foo\\"
  /\ trailing_run (unquote (escapeArgument "C:\\foo\\")) = trailing_run "C:\\foo\\".
Proof.
  split; [reflexivity|].
  exact (proj2 (proj2 (C2_quoting "C:\\foo\\")) eq_refl).
Defined.

(** C2 as stated fails at the token of two backslashes, a double quote
    and one backslash: in its quoted form the inner quote stands after an
    even run of backslashes and ends the quoted part, and unquoting gives
    two backslashes, a trailing run of two where the token has one. *)
Lemma C2_counterexample :
  escapeArgument token_closing_early
    = str1 dquote +:+ backslashes 2 +:+ str1 dquote +:+ backslashes 2 +:+ str1 dquote
  /\ unquote (escapeArgument token_closing_early) = backslashes 2
  /\ trailing_run token_closing_early = 1
  /\ trailing_run (unquote (escapeArgument token_closing_early))
     <> trailing_run token_closing_early.
Proof. repeat split; vm_compute; congruence. Qed.

(** C10.  A token whose last character is not a backslash is returned
    between one leading and one trailing double quote and otherwise
    unchanged, double quotes inside it included. *)
Theorem C10_plain_wrap (s : string) (Hlast : last_char s <> Some backslash) :
  escapeArgument s = str1 dquote +:+ s +:+ str1 dquote.
Proof.
  rewrite escapeArgument_unfold, trailing_run_last by assumption. reflexivity.
Qed.

Lemma C10_plain_wrap_witness :
  last_char token_with_quote <> Some backslash
  /\ escapeArgument token_with_quote
     = str1 dquote +:+ token_with_quote +:+ str1 dquote.
Proof.
  assert (H : last_char token_with_quote <> Some backslash) by (vm_compute; discriminate).
  split; [exact H|]. exact (C10_plain_wrap token_with_quote H).
Defined.

(** ** Paths: segments *)

Lemma segments_not_nil s : segments s <> [].
Proof.
  destruct s as [|c s]; simpl; [discriminate|].
  destruct (isPathSeparator c); [discriminate|]. destruct (segments s); discriminate.
Qed.

Lemma segments_app_sep a b :
  segments (a +:+ String "/" b) = segments a ++ segments b.
Proof.
  induction a as [|c a IH]; [reflexivity|].
  simpl. rewrite IH. destruct (isPathSeparator c); [reflexivity|].
  destruct (segments a) eqn:Ha; [now apply segments_not_nil in Ha|reflexivity].
Qed.

Lemma segments_slash_free s : Forall slash_free (segments s).
Proof.
  induction s as [|c s IH]; simpl.
  - constructor; [reflexivity|constructor].
  - unfold isPathSeparator. destruct (Ascii.eqb c "/") eqn:Hc.
    + constructor; [reflexivity|assumption].
    + destruct (segments s) as [|seg rest]; inversion IH; subst.
      * constructor; [|constructor]. unfold slash_free. simpl. now rewrite Hc.
      * constructor; [|assumption]. unfold slash_free in *. simpl. now rewrite Hc.
Qed.

Lemma segments_of_name s : slash_free s -> segments s = [s].
Proof.
  unfold slash_free. induction s as [|c s IH]; [reflexivity|].
  simpl. intros [Hc Hs]%orb_false_iff. unfold isPathSeparator. rewrite Hc.
  now rewrite IH.
Qed.

Lemma segments_unsegments l :
  l <> [] -> Forall slash_free l -> segments (unsegments l) = l.
Proof.
  induction l as [|s l IH]; [congruence|]. intros _ Hl. inversion Hl; subst.
  destruct l as [|t r].
  - now apply segments_of_name.
  - change (unsegments (s :: t :: r)) with (s +:+ String "/" (unsegments (t :: r))).
    rewrite segments_app_sep, IH, segments_of_name by (assumption || discriminate).
    reflexivity.
Qed.

Lemma unsegments_nil_inv l :
  Forall (fun s => s <> EmptyString) l -> unsegments l = EmptyString -> l = [].
Proof.
  destruct l as [|s l]; [reflexivity|]. intros Hl H. inversion Hl; subst.
  unfold unsegments in H. destruct l; simpl in H; [congruence|].
  destruct s; [congruence|discriminate].
Qed.

Lemma isAbsolute_slash_free s : slash_free s -> isAbsolute s = false.
Proof.
  destruct s as [|c s]; [reflexivity|]. unfold slash_free. simpl.
  now intros [Hc _]%orb_false_iff.
Qed.

Lemma isAbsolute_app a b : a <> EmptyString -> isAbsolute (a +:+ b) = isAbsolute a.
Proof. destruct a; [congruence|reflexivity]. Qed.

Lemma isAbsolute_unsegments s l :
  s <> EmptyString -> slash_free s -> isAbsolute (unsegments (s :: l)) = false.
Proof.
  intros Hs Hf. destruct l.
  - now apply isAbsolute_slash_free.
  - change (unsegments (s :: s0 :: l)) with (s +:+ String "/" (unsegments (s0 :: l))).
    rewrite isAbsolute_app by assumption. now apply isAbsolute_slash_free.
Qed.

Lemma last_char_app a b : b <> EmptyString -> last_char (a +:+ b) = last_char b.
Proof.
  intros Hb. induction a as [|c a IH]; [reflexivity|].
  simpl. rewrite last_char_cons, IH.
  destruct (last_char b) eqn:Hl; [reflexivity|]. now apply last_char_None in Hl.
Qed.

Lemma path_trailing_slash_free s : slash_free s -> path_trailing s = false.
Proof.
  unfold slash_free, path_trailing. induction s as [|c s IH]; [reflexivity|].
  simpl. intros [Hc Hs]%orb_false_iff. rewrite last_char_cons.
  specialize (IH Hs). destruct (last_char s); [exact IH|]. simpl. exact Hc.
Qed.

Lemma path_trailing_unsegments l :
  l <> [] -> Forall slash_free l -> Forall (fun s => s <> EmptyString) l ->
  path_trailing (unsegments l) = false.
Proof.
  induction l as [|s l IH]; [congruence|]. intros _ Hf Hn.
  inversion Hf; subst. inversion Hn; subst. destruct l as [|t r].
  - now apply path_trailing_slash_free.
  - change (unsegments (s :: t :: r)) with (s +:+ String "/" (unsegments (t :: r))).
    unfold path_trailing.
    change (s +:+ String "/" (unsegments (t :: r)))
      with (s +:+ str1 "/" +:+ unsegments (t :: r)).
    rewrite <- append_assoc, last_char_app.
    + apply IH; [discriminate|assumption|assumption].
    + intros H. apply unsegments_nil_inv in H; [discriminate|assumption].
Qed.

(** ** Paths: normal forms *)

Lemma is_name_spec seg :
  is_name seg = true ->
  seg <> EmptyString /\ seg <> "." /\ seg <> ".." /\ slash_free seg.
Proof.
  unfold is_name, slash_free.
  intros [[[H1 H2]%andb_true_iff H3]%andb_true_iff H4]%andb_true_iff.
  apply negb_true_iff in H1, H2, H3, H4.
  apply String.eqb_neq in H1, H2, H3. auto.
Qed.

Lemma all_up_normal res :
  forallb (String.eqb "..") res = true -> normal true res = true.
Proof.
  induction res as [|seg below IH]; [reflexivity|].
  cbn [forallb normal]. intros [Hs Hb]%andb_true_iff.
  apply String.eqb_eq in Hs. subst seg. rewrite String.eqb_refl. exact Hb.
Qed.

Lemma normal_below aar seg below :
  normal aar (seg :: below) = true -> normal aar below = true.
Proof.
  cbn [normal]. destruct (String.eqb seg "..").
  - intros [-> Hb]%andb_true_iff. now apply all_up_normal.
  - now intros [_ Hb]%andb_true_iff.
Qed.

Lemma normal_slash_free aar res :
  normal aar res = true -> Forall slash_free res.
Proof.
  induction res as [|seg below IH]; [constructor|].
  intros H. constructor; [|eapply IH, normal_below; eassumption].
  cbn [normal] in H. destruct (String.eqb_spec seg "..") as [->|_]; [reflexivity|].
  apply andb_true_iff in H as [H _]. now apply is_name_spec in H.
Qed.

Lemma normal_nonempty aar res :
  normal aar res = true -> Forall (fun s => s <> EmptyString) res.
Proof.
  induction res as [|seg below IH]; [constructor|].
  intros H. constructor; [|eapply IH, normal_below; eassumption].
  cbn [normal] in H. destruct (String.eqb_spec seg "..") as [->|_]; [discriminate|].
  apply andb_true_iff in H as [H _]. now apply is_name_spec in H.
Qed.

Lemma normalize_step_normal aar res seg :
  normal aar res = true -> slash_free seg ->
  normal aar (normalize_step aar res seg) = true.
Proof.
  intros Hres Hseg. unfold normalize_step.
  destruct (String.eqb_spec seg EmptyString) as [->|H1]; [exact Hres|].
  destruct (String.eqb_spec seg ".") as [->|H2]; [exact Hres|]. cbn [orb].
  destruct (String.eqb_spec seg "..") as [->|H3].
  - destruct res as [|top below]; [now destruct aar|].
    destruct (String.eqb_spec top "..") as [->|Ht].
    + destruct aar; [|exact Hres]. cbn [normal forallb] in *.
      rewrite !String.eqb_refl in *. exact Hres.
    + eapply normal_below; eassumption.
  - cbn [normal]. apply String.eqb_neq in H1, H2, H3. rewrite H3. unfold is_name.
    rewrite H1, H2, H3, Hseg. exact Hres.
Qed.

Lemma normalize_segments_normal aar segs res :
  normal aar res = true -> Forall slash_free segs ->
  normal aar (normalize_segments aar segs res) = true.
Proof.
  unfold normalize_segments. revert res.
  induction segs as [|seg segs IH]; intros res Hres Hs; [exact Hres|].
  inversion Hs; subst. simpl. apply IH; [|assumption].
  now apply normalize_step_normal.
Qed.

Lemma normalize_step_keep aar seg below :
  normal aar (seg :: below) = true -> normalize_step aar below seg = seg :: below.
Proof.
  cbn [normal]. unfold normalize_step.
  destruct (String.eqb_spec seg "..") as [->|Hs].
  - intros [-> Hb]%andb_true_iff. cbn [orb].
    destruct below as [|top below']; [reflexivity|].
    cbn [forallb] in Hb. apply andb_true_iff in Hb as [Ht _].
    apply String.eqb_eq in Ht. subst top. reflexivity.
  - intros [Hn _]%andb_true_iff. apply is_name_spec in Hn as (H1 & H2 & _).
    apply String.eqb_neq in H1, H2. now rewrite H1, H2.
Qed.

(** Normalising the segments of a normal form gives it back. *)
Lemma normalize_segments_rev aar res :
  normal aar res = true -> normalize_segments aar (rev res) [] = res.
Proof.
  unfold normalize_segments.
  induction res as [|seg below IH]; intros H; [reflexivity|].
  simpl rev. rewrite fold_left_app. simpl.
  rewrite IH by (eapply normal_below; eassumption).
  now apply normalize_step_keep.
Qed.

Lemma normalize_segments_app aar l1 l2 res :
  normalize_segments aar (l1 ++ l2) res =
  normalize_segments aar l2 (normalize_segments aar l1 res).
Proof. apply fold_left_app. Qed.

Lemma path_stack_normal x : normal (negb (isAbsolute x)) (path_stack x) = true.
Proof. apply normalize_segments_normal; [reflexivity|apply segments_slash_free]. Qed.

(** ** Paths: [path.normalize] and [path.join] through normal forms *)

Lemma path_normalize_canon x :
  x <> EmptyString ->
  path_normalize x = canon (isAbsolute x) (path_stack x) (path_trailing x).
Proof.
  intros Hx. unfold path_normalize. apply String.eqb_neq in Hx. now rewrite Hx.
Qed.

Lemma rev_not_nil {A} (l : list A) : l <> [] -> rev l <> [].
Proof.
  destruct l; [congruence|]. simpl. intros _ H. now apply app_eq_nil in H as [_ H].
Qed.

Lemma unsegments_rev_normal aar res :
  normal aar res = true -> res <> [] -> unsegments (rev res) <> EmptyString.
Proof.
  intros Hn Hne H. apply unsegments_nil_inv in H.
  - now apply rev_not_nil in Hne.
  - apply Forall_rev. eapply normal_nonempty; eassumption.
Qed.

Lemma canon_cons a res t :
  normal (negb a) res = true -> res <> [] ->
  canon a res t =
  (if a then "/" else EmptyString) +:+ unsegments (rev res)
  +:+ (if t then "/" else EmptyString).
Proof.
  intros Hn Hne. unfold canon.
  pose proof (unsegments_rev_normal _ _ Hn Hne) as Hb.
  apply String.eqb_neq in Hb. rewrite Hb.
  destruct a, t; simpl; now rewrite ?append_nil_r.
Qed.

Lemma canon_not_empty a res t : canon a res t <> EmptyString.
Proof.
  unfold canon. destruct (String.eqb_spec (unsegments (rev res)) EmptyString) as [|Hb].
  - destruct a; [discriminate|]. destruct t; discriminate.
  - destruct a; [discriminate|]. destruct t; [|exact Hb].
    destruct (unsegments (rev res)); [congruence|discriminate].
Qed.

Lemma segments_canon a res t :
  normal (negb a) res = true -> res <> [] ->
  segments (canon a res t) =
  (if a then [EmptyString] else []) ++ rev res ++ (if t then [EmptyString] else []).
Proof.
  intros Hn Hne. rewrite canon_cons by assumption.
  assert (Hs : segments (unsegments (rev res)) = rev res).
  { apply segments_unsegments; [now apply rev_not_nil|].
    apply Forall_rev. eapply normal_slash_free; eassumption. }
  assert (Ht : segments (unsegments (rev res) +:+ (if t then "/" else EmptyString))
               = rev res ++ (if t then [EmptyString] else [])).
  { destruct t.
    - change "/" with (String "/" EmptyString). now rewrite segments_app_sep, Hs.
    - now rewrite append_nil_r, app_nil_r. }
  destruct a; simpl; now rewrite Ht.
Qed.

Lemma isAbsolute_canon a res t :
  normal (negb a) res = true -> isAbsolute (canon a res t) = a.
Proof.
  intros Hn. destruct res as [|seg below].
  - destruct a; [reflexivity|]. now destruct t.
  - rewrite canon_cons by (assumption || discriminate).
    destruct a; [reflexivity|].
    change (EmptyString +:+ ?y) with y.
    rewrite isAbsolute_app by (eapply unsegments_rev_normal; [eassumption|discriminate]).
    pose proof (normal_slash_free _ _ Hn) as Hf. apply Forall_rev in Hf.
    pose proof (normal_nonempty _ _ Hn) as Hne. apply Forall_rev in Hne.
    destruct (rev (seg :: below)) as [|s l] eqn:Hr.
    + exfalso. revert Hr. now apply rev_not_nil.
    + inversion Hf; subst. inversion Hne; subst. now apply isAbsolute_unsegments.
Qed.

Lemma normalize_segments_skip aar res :
  normalize_segments aar [EmptyString] res = res.
Proof. reflexivity. Qed.

Lemma path_stack_canon a res t :
  normal (negb a) res = true -> path_stack (canon a res t) = res.
Proof.
  intros Hn. unfold path_stack. rewrite isAbsolute_canon by assumption.
  destruct res as [|seg below].
  - destruct a; [reflexivity|]. now destruct t.
  - rewrite segments_canon by (assumption || discriminate).
    rewrite !normalize_segments_app.
    replace (normalize_segments (negb a) (if a then [EmptyString] else []) [])
      with (@nil string) by now destruct a.
    rewrite normalize_segments_rev by assumption. now destruct t.
Qed.

Lemma path_trailing_canon a res t :
  normal (negb a) res = true -> res <> [] -> path_trailing (canon a res t) = t.
Proof.
  intros Hn Hne. rewrite canon_cons by assumption.
  unfold path_trailing. destruct t.
  - change "/" with (str1 "/") at 2. rewrite <- append_assoc.
    now rewrite last_char_app_char.
  - rewrite append_nil_r, last_char_app by (eapply unsegments_rev_normal; eassumption).
    apply path_trailing_unsegments.
    + now apply rev_not_nil.
    + apply Forall_rev. eapply normal_slash_free; eassumption.
    + apply Forall_rev. eapply normal_nonempty; eassumption.
Qed.

(** [path.normalize] leaves a normalised path as it is. *)
Lemma path_normalize_canon_id a res t :
  normal (negb a) res = true -> path_normalize (canon a res t) = canon a res t.
Proof.
  intros Hn. destruct res as [|seg below].
  - destruct a; [reflexivity|]. now destruct t.
  - rewrite path_normalize_canon by apply canon_not_empty.
    rewrite isAbsolute_canon, path_stack_canon by assumption.
    now rewrite path_trailing_canon by (assumption || discriminate).
Qed.

Lemma path_normalize_idempotent x :
  path_normalize (path_normalize x) = path_normalize x.
Proof.
  destruct (String.eqb_spec x EmptyString) as [->|Hx]; [reflexivity|].
  rewrite (path_normalize_canon x) by assumption.
  apply path_normalize_canon_id, path_stack_normal.
Qed.

Lemma path_join_two x q :
  x <> EmptyString -> q <> EmptyString ->
  path_join [x; q] = path_normalize (x +:+ String "/" q).
Proof.
  intros Hx Hq. unfold path_join. simpl.
  destruct x; [congruence|]. destruct q; [congruence|]. reflexivity.
Qed.

Lemma path_join_canon x q :
  x <> EmptyString -> q <> EmptyString ->
  path_join [x; q] =
  canon (isAbsolute x)
        (normalize_segments (negb (isAbsolute x)) (segments q) (path_stack x))
        (path_trailing q).
Proof.
  intros Hx Hq. rewrite path_join_two by assumption.
  rewrite path_normalize_canon by (destruct x; [congruence|discriminate]).
  rewrite isAbsolute_app by assumption. f_equal.
  - unfold path_stack. rewrite isAbsolute_app by assumption.
    now rewrite segments_app_sep, normalize_segments_app.
  - unfold path_trailing. change (String "/" q) with (str1 "/" +:+ q).
    now rewrite <- append_assoc, last_char_app.
Qed.

(** Joining onto a normalised path continues the normalisation where it
    stopped. *)
Lemma path_join_onto_canon a res t q :
  normal (negb a) res = true -> q <> EmptyString ->
  path_join [canon a res t; q] =
  canon a (normalize_segments (negb a) (segments q) res) (path_trailing q).
Proof.
  intros Hn Hq. rewrite path_join_canon by (apply canon_not_empty || assumption).
  now rewrite isAbsolute_canon, path_stack_canon.
Qed.

Lemma path_join_join x q1 q2 :
  x <> EmptyString -> q1 <> EmptyString -> q2 <> EmptyString ->
  path_join [path_join [x; q1]; q2] = path_join [x; q1 +:+ String "/" q2].
Proof.
  intros Hx H1 H2. rewrite (path_join_canon x q1) by assumption.
  rewrite path_join_onto_canon
    by (first [assumption
              |apply normalize_segments_normal;
               [apply path_stack_normal|apply segments_slash_free]]).
  rewrite path_join_canon
    by (first [assumption|destruct q1; [congruence|discriminate]]).
  rewrite segments_app_sep, normalize_segments_app. f_equal.
  unfold path_trailing. change (String "/" q2) with (str1 "/" +:+ q2).
  now rewrite <- append_assoc, last_char_app.
Qed.

(** ** ToolchainResolver: the directory-depth convention *)

Lemma path_join_two_not_empty x q :
  x <> EmptyString -> q <> EmptyString -> path_join [x; q] <> EmptyString.
Proof. intros Hx Hq. rewrite path_join_canon by assumption. apply canon_not_empty. Qed.

Lemma level_up_twice x :
  x <> EmptyString -> level_up (level_up x) = path_join [x; "../.."].
Proof.
  intros Hx. unfold level_up.
  now rewrite path_join_join by (assumption || discriminate).
Qed.

Lemma level_up_thrice x :
  x <> EmptyString -> level_up (level_up (level_up x)) = path_join [x; "../../.."].
Proof.
  intros Hx. rewrite (level_up_twice x) by assumption. unfold level_up.
  now rewrite path_join_join by (assumption || discriminate).
Qed.

Lemma sibling_two_up x name :
  x <> EmptyString -> name <> EmptyString ->
  sibling (level_up (level_up x)) name = path_join [x; "../../../" +:+ name].
Proof.
  intros Hx Hn. rewrite (level_up_twice x) by assumption. unfold sibling.
  now rewrite path_join_join by (assumption || discriminate).
Qed.

Lemma path_normalize_join_two x q :
  x <> EmptyString -> q <> EmptyString ->
  path_normalize (path_join [x; q]) = path_join [x; q].
Proof.
  intros Hx Hq. rewrite path_join_two by assumption. apply path_normalize_idempotent.
Qed.

Lemma version_and_includes_from_path (p : string) :
  extractVersionFromCompilerPath p
    = path_basename (level_up (level_up (level_up p)))
  /\ extractIncludesFromCompilerPath p
    = [ sibling (level_up (level_up p)) "include" ]
  /\ sibling (level_up (level_up p)) "include"
    = path_join [level_up (level_up (level_up p)); "include"].
Proof.
  destruct (String.eqb_spec p EmptyString) as [->|Hp]; [repeat split; reflexivity|].
  unfold extractVersionFromCompilerPath, extractIncludesFromCompilerPath.
  rewrite (level_up_thrice p), (sibling_two_up p) by (assumption || discriminate).
  rewrite path_normalize_join_two by (assumption || discriminate).
  repeat split.
  now rewrite path_join_join by (assumption || discriminate).
Qed.

Lemma info_by_convention_eq p :
  {| ci_path := p;
     ci_version := extractVersionFromCompilerPath p;
     ci_includes := extractIncludesFromCompilerPath p |} = info_by_convention p.
Proof.
  destruct (version_and_includes_from_path p) as (Hv & Hi & _).
  unfold info_by_convention. now rewrite Hv, Hi.
Qed.

(** The fallback when both cache variables are there. *)
Lemma _loadToolchainsFromCache_both env s cPath cxxPath :
  cache (this s) !! "CMAKE_C_COMPILER" = Some cPath ->
  cache (this s) !! "CMAKE_CXX_COMPILER" = Some cxxPath ->
  let api1 := if is_cl cPath
              then set_cCompilerInfo (info_by_convention cPath) (this s) else this s in
  let api2 := if is_cl cxxPath
              then set_cxxCompilerInfo (info_by_convention cxxPath) api1 else api1 in
  _loadToolchainsFromCache env s =
  ({| this := api2; done := done s |},
   if no_compiler api2
   then Throw (Error "Action requires use of MSVC for either/both C or C++.")
   else Return tt).
Proof.
  intros Hc Hcxx. unfold _loadToolchainsFromCache, bind, get_this, require_MSVC.
  cbn beta iota. rewrite Hc.
  destruct (is_cl cPath); cbn; rewrite Hcxx; destruct (is_cl cxxPath); cbn;
    rewrite ?info_by_convention_eq; destruct s as [api h]; cbn;
    try reflexivity;
    match goal with |- context [no_compiler ?a] => destruct (no_compiler a) end;
    reflexivity.
Qed.

Lemma normal_names aar segs : all_names segs -> normal aar segs = true.
Proof.
  induction 1 as [|seg below Hseg _ IH]; [reflexivity|].
  cbn [normal]. destruct (is_name_spec _ Hseg) as (_ & _ & Hup & _).
  apply String.eqb_neq in Hup. now rewrite Hup, Hseg, IH.
Qed.

Lemma all_names_rev segs : all_names segs -> all_names (rev segs).
Proof. apply Forall_rev. Qed.

Lemma path_of_canon isAbs segs :
  all_names segs -> segs <> [] -> path_of isAbs segs = canon isAbs (rev segs) false.
Proof.
  intros Hn Hne. rewrite canon_cons.
  - rewrite rev_involutive. unfold path_of. now rewrite append_nil_r.
  - now apply normal_names, all_names_rev.
  - now apply rev_not_nil.
Qed.

Lemma filter_nonempty (l : list string) :
  Forall (fun s => s <> EmptyString) l ->
  List.filter (fun seg => negb (String.eqb seg EmptyString)) l = l.
Proof.
  induction 1 as [|s l Hs _ IH]; [reflexivity|].
  cbn [List.filter]. apply String.eqb_neq in Hs. now rewrite Hs, IH.
Qed.

Lemma path_basename_canon isAbs seg below t :
  normal (negb isAbs) (seg :: below) = true ->
  path_basename (canon isAbs (seg :: below) t) = seg.
Proof.
  intros Hn. unfold path_basename.
  rewrite segments_canon by (assumption || discriminate).
  rewrite !List.filter_app, (filter_nonempty (rev (seg :: below)))
    by (apply Forall_rev; eapply normal_nonempty; eassumption).
  replace (List.filter _ (if isAbs then [EmptyString] else [])) with (@nil string)
    by now destruct isAbs.
  replace (List.filter _ (if t then [EmptyString] else [])) with (@nil string)
    by now destruct t.
  cbn [app rev]. rewrite app_nil_r. apply last_last.
Qed.

Lemma normalize_step_up aar seg below :
  is_name seg = true -> normalize_step aar (seg :: below) ".." = below.
Proof.
  intros Hseg. destruct (is_name_spec _ Hseg) as (_ & _ & Hup & _).
  apply String.eqb_neq in Hup. unfold normalize_step. cbn [String.eqb Ascii.eqb].
  cbn. now rewrite Hup.
Qed.

Lemma normalize_step_name aar seg res :
  is_name seg = true -> normalize_step aar res seg = seg :: res.
Proof.
  intros Hseg. destruct (is_name_spec _ Hseg) as (H1 & H2 & H3 & _).
  apply String.eqb_neq in H1, H2, H3. unfold normalize_step. now rewrite H1, H2, H3.
Qed.

(** The layout of a toolset: what the two functions read off a
    compiler path with three directories above the binary. *)
Lemma layout_of_compiler_path (isAbs : bool) (dirs : list string) (v d2 d1 cl : string) :
  all_names (dirs ++ [v; d2; d1; cl]) ->
  extractVersionFromCompilerPath (path_of isAbs (dirs ++ [v; d2; d1; cl])) = v
  /\ extractIncludesFromCompilerPath (path_of isAbs (dirs ++ [v; d2; d1; cl]))
     = [ path_of isAbs (dirs ++ [v; "include"]) ].
Proof.
  intros Hnames.
  assert (Hsplit : all_names dirs /\ all_names [v; d2; d1; cl]) by now apply Forall_app.
  destruct Hsplit as [Hdirs Hlast].
  inversion Hlast as [|? ? Hv H1]; subst. inversion H1 as [|? ? Hd2 H2]; subst.
  inversion H2 as [|? ? Hd1 H3]; subst. inversion H3 as [|? ? Hcl _]; subst.
  assert (Hstack : normal (negb isAbs) (rev (dirs ++ [v; d2; d1; cl])) = true)
    by now apply normal_names, all_names_rev.
  assert (Hinclude : all_names (dirs ++ [v; "include"]))
    by (apply Forall_app; split; [assumption|repeat constructor; assumption]).
  rewrite path_of_canon by (assumption || now destruct dirs).
  unfold extractVersionFromCompilerPath, extractIncludesFromCompilerPath.
  rewrite path_normalize_join_two by (apply canon_not_empty || discriminate).
  rewrite !path_join_onto_canon by (assumption || discriminate).
  rewrite rev_app_distr in *. cbn [rev app] in *.
  change (segments "../../..") with [".."; ".."; ".."].
  change (segments "../../../include") with [".."; ".."; ".."; "include"].
  unfold normalize_segments. cbn [fold_left].
  rewrite !normalize_step_up by assumption.
  rewrite normalize_step_name by reflexivity.
  split.
  - apply path_basename_canon. eapply normal_below, normal_below, normal_below.
    exact Hstack.
  - rewrite path_of_canon by (assumption || now destruct dirs).
    rewrite rev_app_distr. reflexivity.
Qed.

(** One level up from a path written with its segments is the path
    without its last segment. *)
Lemma level_up_path_of isAbs segs name :
  all_names (segs ++ [name]) -> segs <> [] ->
  level_up (path_of isAbs (segs ++ [name])) = path_of isAbs segs.
Proof.
  intros Hnames Hne.
  assert (Hsplit : all_names segs /\ all_names [name]) by now apply Forall_app.
  destruct Hsplit as [Hsegs Hname]. inversion Hname as [|? ? Hn _]; subst.
  rewrite path_of_canon by (assumption || now destruct segs).
  unfold level_up.
  rewrite path_join_onto_canon
    by (first [now apply normal_names, all_names_rev|discriminate]).
  rewrite rev_app_distr. cbn [rev app].
  change (segments "..") with [".."].
  unfold normalize_segments. cbn [fold_left].
  rewrite normalize_step_up by assumption.
  now rewrite path_of_canon by assumption.
Qed.

(** C7.  For every compiler path the fallback accepts, the version
    derived from it is the basename of the directory three levels up from
    the path, and the default includes are the one directory [include]
    next to the directory two levels up from it (which is the directory
    [include] inside the one three levels up); the cache-based fallback
    records exactly these for the C and for the C++ compiler.  Written
    out for a path [<dirs>/<v>/<d2>/<d1>/<cl>]: one, two and three levels
    up are [<dirs>/<v>/<d2>/<d1>], [<dirs>/<v>/<d2>] and [<dirs>/<v>], the
    version is [<v>] and the one include directory is
    [<dirs>/<v>/include]. *)
Theorem C7_version_and_includes_from_path (p : string) (Haccepted : is_cl p = true) :
  extractVersionFromCompilerPath p
    = path_basename (level_up (level_up (level_up p)))
  /\ extractIncludesFromCompilerPath p
    = [ sibling (level_up (level_up p)) "include" ]
  /\ sibling (level_up (level_up p)) "include"
    = path_join [level_up (level_up (level_up p)); "include"]
  /\ (forall env s other,
        cache (this s) !! "CMAKE_C_COMPILER" = Some p ->
        cache (this s) !! "CMAKE_CXX_COMPILER" = Some other ->
        cCompilerInfo (this (fst (_loadToolchainsFromCache env s)))
        = Some (info_by_convention p))
  /\ (forall env s other,
        cache (this s) !! "CMAKE_C_COMPILER" = Some other ->
        cache (this s) !! "CMAKE_CXX_COMPILER" = Some p ->
        cxxCompilerInfo (this (fst (_loadToolchainsFromCache env s)))
        = Some (info_by_convention p))
  /\ (forall isAbs dirs v d2 d1 cl,
        all_names (dirs ++ [v; d2; d1; cl]) ->
        p = path_of isAbs (dirs ++ [v; d2; d1; cl]) ->
        level_up p = path_of isAbs (dirs ++ [v; d2; d1])
        /\ level_up (level_up p) = path_of isAbs (dirs ++ [v; d2])
        /\ level_up (level_up (level_up p)) = path_of isAbs (dirs ++ [v])
        /\ extractVersionFromCompilerPath p = v
        /\ extractIncludesFromCompilerPath p = [ path_of isAbs (dirs ++ [v; "include"]) ]
        /\ info_by_convention p
           = {| ci_path := p;
                ci_version := v;
                ci_includes := [ path_of isAbs (dirs ++ [v; "include"]) ] |}).
Proof.
  destruct (version_and_includes_from_path p) as (Hv & Hi & Hs).
  do 3 (split; [assumption|]).
  split; [|split].
  - intros env s other Hc Hcxx.
    rewrite (_loadToolchainsFromCache_both env s p other Hc Hcxx).
    rewrite Haccepted. cbn. now destruct (is_cl other).
  - intros env s other Hc Hcxx.
    rewrite (_loadToolchainsFromCache_both env s other p Hc Hcxx).
    rewrite Haccepted. cbn. reflexivity.
  - intros isAbs dirs v d2 d1 cl Hnames ->.
    destruct (layout_of_compiler_path isAbs dirs v d2 d1 cl Hnames) as [Hversion Hincludes].
    assert (H4 : all_names ((dirs ++ [v; d2; d1]) ++ [cl]))
      by now rewrite <- app_assoc.
    assert (H3 : all_names ((dirs ++ [v; d2]) ++ [d1])).
    { rewrite <- app_assoc. cbn [app].
      replace (dirs ++ [v; d2; d1]) with (List.removelast ((dirs ++ [v; d2; d1]) ++ [cl]))
        by apply removelast_last.
      apply Forall_app in H4 as [H4 _]. now rewrite removelast_last. }
    assert (H2 : all_names ((dirs ++ [v]) ++ [d2])).
    { rewrite <- app_assoc. cbn [app].
      apply Forall_app in H3 as [H3 _]. exact H3. }
    assert (U1 : level_up (path_of isAbs (dirs ++ [v; d2; d1; cl]))
                 = path_of isAbs (dirs ++ [v; d2; d1])).
    { replace (dirs ++ [v; d2; d1; cl]) with ((dirs ++ [v; d2; d1]) ++ [cl])
        by now rewrite <- app_assoc.
      apply level_up_path_of; [assumption|now destruct dirs]. }
    assert (U2 : level_up (path_of isAbs (dirs ++ [v; d2; d1]))
                 = path_of isAbs (dirs ++ [v; d2])).
    { replace (dirs ++ [v; d2; d1]) with ((dirs ++ [v; d2]) ++ [d1])
        by now rewrite <- app_assoc.
      apply level_up_path_of; [assumption|now destruct dirs]. }
    assert (U3 : level_up (path_of isAbs (dirs ++ [v; d2]))
                 = path_of isAbs (dirs ++ [v])).
    { replace (dirs ++ [v; d2]) with ((dirs ++ [v]) ++ [d2])
        by now rewrite <- app_assoc.
      apply level_up_path_of; [assumption|now destruct dirs]. }
    rewrite U1, U2, U3. repeat split; try assumption.
    rewrite <- info_by_convention_eq. now rewrite Hversion, Hincludes.
Qed.

Example extractVersion_visual_studio :
  extractVersionFromCompilerPath "C:/VS/VC/Tools/MSVC/14.29.30133/bin/Hostx64/x64/cl.exe"
  = "bin"
  /\ extractIncludesFromCompilerPath "C:/VS/VC/Tools/MSVC/14.29.30133/bin/Hostx64/x64/cl.exe"
  = ["C:/VS/VC/Tools/MSVC/14.29.30133/bin/include"].
Proof. split; reflexivity. Qed.

(** ** The monad *)

Lemma bind_Return {A B} (m : M A) (k : A -> M B) env s s' a :
  m env s = (s', Return a) -> bind m k env s = k a env s'.
Proof. intros H. unfold bind. now rewrite H. Qed.

Lemma bind_Throw {A B} (m : M A) (k : A -> M B) env s s' e :
  m env s = (s', Throw e) -> bind m k env s = (s', Throw e).
Proof. intros H. unfold bind. now rewrite H. Qed.

Lemma bind_Throw_inv {A B} (m : M A) (k : A -> M B) env s s' e :
  bind m k env s = (s', Throw e) ->
  m env s = (s', Throw e)
  \/ exists s1 a, m env s = (s1, Return a) /\ k a env s1 = (s', Throw e).
Proof.
  unfold bind. destruct (m env s) as [s1 [a|e1]] eqn:Hm; intros H.
  - right. eauto.
  - left. now injection H as -> ->.
Qed.

Lemma bind_inv {A B} (m : M A) (k : A -> M B) env s s' o :
  bind m k env s = (s', o) ->
  (exists e, m env s = (s', Throw e) /\ o = Throw e)
  \/ exists s1 a, m env s = (s1, Return a) /\ k a env s1 = (s', o).
Proof.
  unfold bind. destruct (m env s) as [s1 [a|e]] eqn:Hm; intros H.
  - right. eauto.
  - left. injection H as <- <-. eauto.
Qed.

Section ThrowsOnly.
Variable P : error -> Prop.

Lemma throws_only_ret {A} (a : A) : throws_only P (ret a).
Proof. intros env s s' e H. discriminate H. Qed.

Lemma throws_only_throw {A} e : P e -> throws_only P (@throw A e).
Proof. intros HP env s s' e' H. now injection H as _ <-. Qed.

Lemma throws_only_bind {A B} (m : M A) (k : A -> M B) :
  throws_only P m -> (forall a, throws_only P (k a)) -> throws_only P (bind m k).
Proof.
  intros Hm Hk env s s' e H.
  apply bind_Throw_inv in H as [H|(s1 & a & _ & H)]; [eapply Hm|eapply Hk]; eassumption.
Qed.

Lemma throws_only_perform {A} (ask : Env -> history -> A) ev :
  throws_only P (perform ask ev).
Proof. intros env s s' e H. discriminate H. Qed.

Lemma throws_only_modify_this f : throws_only P (modify_this f).
Proof. intros env s s' e H. discriminate H. Qed.

Lemma throws_only_get_this : throws_only P get_this.
Proof. intros env s s' e H. discriminate H. Qed.

End ThrowsOnly.

(** ** The version gate *)

Lemma ascii_compare_refl x : Ascii.compare x x = Eq.
Proof. apply N.compare_refl. Qed.

Lemma ascii_compare_lt x y :
  (nat_of_ascii x <? nat_of_ascii y) = if Ascii.compare x y is Lt then true else false.
Proof.
  unfold Ascii.compare, nat_of_ascii. rewrite N2Nat.inj_compare.
  destruct (Nat.compare_spec (N.to_nat (N_of_ascii x)) (N.to_nat (N_of_ascii y)));
    [apply Nat.ltb_ge; lia|apply Nat.ltb_lt; lia|apply Nat.ltb_ge; lia].
Qed.

(** The [<] of JavaScript on strings is the lexicographic order on code
    units. *)
Lemma js_string_lt_lexicographic a b : js_string_lt a b = String.ltb a b.
Proof.
  revert b. induction a as [|x a IH]; intros [|y b]; try reflexivity.
  specialize (IH b). unfold js_string_lt, String.ltb in *.
  cbn [String.prefix first_difference String.compare].
  destruct (ascii_dec y x) as [->|Hne].
  - destruct (ascii_dec x x) as [_|Hx]; [|congruence].
    now rewrite Ascii.eqb_refl, ascii_compare_refl.
  - destruct (ascii_dec x y) as [->|_]; [congruence|].
    apply not_eq_sym, Ascii.eqb_neq in Hne. rewrite Hne, ascii_compare_lt.
    destruct (Ascii.compare x y) eqn:Hc; try reflexivity.
    apply Ascii.compare_eq_iff in Hc. apply Ascii.eqb_neq in Hne. congruence.
Qed.

Lemma version_too_old_lexicographic v :
  version_too_old (Some v) = negb (String.leb minimumVersion v).
Proof.
  cbn [version_too_old]. rewrite js_string_lt_lexicographic.
  unfold String.ltb, String.leb. rewrite (String.compare_antisym minimumVersion v).
  now destruct (String.compare v minimumVersion).
Qed.

Lemma version_gate_index i env s :
  version_gate (RIndex i) env s =
  (s, if String.leb minimumVersion (version_string i) then Return tt
      else Throw (Error "Action requires CMake version >= 3.13.7")).
Proof.
  unfold version_gate. cbn [version_string_of].
  rewrite version_too_old_lexicographic.
  now destruct (String.leb minimumVersion (version_string i)).
Qed.

Lemma message_kind_version m :
  message_kind m = Some ProtocolVersionError ->
  m = "Action requires CMake version >= 3.13.7".
Proof.
  unfold message_kind.
  destruct (String.eqb_spec m "Action requires CMake version >= 3.13.7"); [easy|].
  repeat match goal with
         | |- context [if ?c then _ else _] => destruct c
         end; discriminate.
Qed.

Lemma not_version_error_message m :
  m <> "Action requires CMake version >= 3.13.7" -> not_version_error (Error m).
Proof. intros Hm Hk. apply Hm. now apply message_kind_version. Qed.

(** Nothing that [_loadReplyFiles] does after the gate throws an error of
    the protocol-version class. *)
Ltac throws_step :=
  first
    [ apply throws_only_ret
    | apply throws_only_perform
    | apply throws_only_modify_this
    | apply throws_only_get_this
    | apply throws_only_throw;
      first [ apply not_version_error_message; simpl; discriminate
            | vm_compute; discriminate ]
    | apply throws_only_bind; [|intros ?]
    | match goal with
      | |- throws_only _ (if ?c then _ else _) => destruct c
      | |- throws_only _ (match ?x with _ => _ end) => destruct x
      end ].

Lemma _parseReplyFile_not_version replyFile :
  throws_only not_version_error (_parseReplyFile replyFile).
Proof. unfold _parseReplyFile, readJson, existsSync. repeat throws_step. Qed.

Lemma require_MSVC_not_version : throws_only not_version_error require_MSVC.
Proof. unfold require_MSVC. repeat throws_step. Qed.

Lemma _loadCache_not_version f : throws_only not_version_error (_loadCache f).
Proof.
  unfold _loadCache. apply throws_only_bind; [apply _parseReplyFile_not_version|].
  intros ?. throws_step.
Qed.

Lemma _loadCodemodel_not_version d f :
  throws_only not_version_error (_loadCodemodel d f).
Proof.
  unfold _loadCodemodel. apply throws_only_bind; [apply _parseReplyFile_not_version|].
  intros ?. repeat throws_step.
Qed.

Lemma _loadToolchains_not_version f : throws_only not_version_error (_loadToolchains f).
Proof.
  unfold _loadToolchains. apply throws_only_bind; [apply _parseReplyFile_not_version|].
  intros ?. apply throws_only_bind; [throws_step|]. intros ?.
  apply require_MSVC_not_version.
Qed.

Lemma _loadToolchainsFromCache_not_version :
  throws_only not_version_error _loadToolchainsFromCache.
Proof.
  unfold _loadToolchainsFromCache.
  repeat first [apply require_MSVC_not_version | throws_step].
Qed.

Lemma responses_loop_not_version replyDir responses flags :
  throws_only not_version_error (responses_loop replyDir responses flags).
Proof.
  revert flags. induction responses as [|r rest IH]; intros flags; cbn [responses_loop].
  - throws_step.
  - apply throws_only_bind; [|intros ?; apply IH].
    repeat first [ apply _loadCache_not_version
                 | apply _loadCodemodel_not_version
                 | apply _loadToolchains_not_version
                 | throws_step ].
Qed.

Lemma load_responses_not_version apiDir indexReply :
  throws_only not_version_error (load_responses apiDir indexReply).
Proof.
  unfold load_responses.
  repeat first [ apply responses_loop_not_version
               | apply _loadToolchainsFromCache_not_version
               | throws_step ].
Qed.

Lemma _loadReplyFiles_after_index apiDir env s s1 i :
  _getApiReplyIndex apiDir env s = (s1, Return (RIndex i)) ->
  _loadReplyFiles apiDir env s =
  if String.leb minimumVersion (version_string i)
  then load_responses apiDir (RIndex i) env s1
  else (s1, Throw (Error "Action requires CMake version >= 3.13.7")).
Proof.
  intros Hi. unfold _loadReplyFiles. rewrite (bind_Return _ _ _ _ _ _ Hi).
  unfold bind at 1. rewrite version_gate_index.
  now destruct (String.leb minimumVersion (version_string i)).
Qed.

(** C5.  The version gate lets an index through exactly when its version
    string is lexicographically at least ["3.13.7"], and throws the
    protocol-version error otherwise: ["3.13.6"] is refused, ["3.13.7"]
    and ["3.20.0"] pass; [_loadReplyFiles] fails with a protocol-version
    error exactly for the indexes the gate refuses. *)
Theorem C5_version_gate :
  (forall i env s,
      version_gate (RIndex i) env s
      = (s, if String.leb minimumVersion (version_string i) then Return tt
            else Throw (Error "Action requires CMake version >= 3.13.7")))
  /\ error_kind (Error "Action requires CMake version >= 3.13.7")
     = Some ProtocolVersionError
  /\ String.leb minimumVersion "3.13.6" = false
  /\ String.leb minimumVersion "3.13.7" = true
  /\ String.leb minimumVersion "3.20.0" = true
  /\ (forall apiDir env s s1 i,
        _getApiReplyIndex apiDir env s = (s1, Return (RIndex i)) ->
        (exists s' e, _loadReplyFiles apiDir env s = (s', Throw e)
                      /\ error_kind e = Some ProtocolVersionError)
        <-> String.leb minimumVersion (version_string i) = false).
Proof.
  split; [apply version_gate_index|]. repeat (split; [reflexivity|]).
  intros apiDir env s s1 i Hi. rewrite (_loadReplyFiles_after_index _ _ _ _ _ Hi).
  destruct (String.leb minimumVersion (version_string i)); split.
  - intros (s' & e & He & Hk). exfalso.
    now apply (load_responses_not_version _ _ _ _ _ _ He).
  - discriminate.
  - reflexivity.
  - intros _. eauto.
Qed.

(** ** The responses of the index *)

Lemma bind_Return_inv {A B} (m : M A) (k : A -> M B) env s s' b :
  bind m k env s = (s', Return b) ->
  exists s1 a, m env s = (s1, Return a) /\ k a env s1 = (s', Return b).
Proof.
  unfold bind. destruct (m env s) as [s1 [a|e1]] eqn:Hm; intros H; [eauto|discriminate].
Qed.

Lemma has_kind_In k responses :
  has_kind k responses = true <-> In k (response_kinds responses).
Proof.
  unfold has_kind. rewrite existsb_exists. split.
  - intros (x & Hx & ->%String.eqb_eq). exact Hx.
  - intros H. exists k. split; [exact H|apply String.eqb_refl].
Qed.

Lemma has_kind_cons k r rest :
  has_kind k (r :: rest) = String.eqb k (response_kind r) || has_kind k rest.
Proof. reflexivity. Qed.

(** When the loop over the responses comes to its end, each flag says
    whether a response of its kind was listed. *)
Lemma responses_loop_flags replyDir responses flags env s s' flags' :
  responses_loop replyDir responses flags env s = (s', Return flags') ->
  cacheLoaded flags' = cacheLoaded flags || has_kind "cache" responses
  /\ codemodelLoaded flags' = codemodelLoaded flags || has_kind "codemodel" responses
  /\ toolchainLoaded flags' = toolchainLoaded flags || has_kind "toolchains" responses.
Proof.
  revert flags s. induction responses as [|r rest IH]; intros flags s H.
  - injection H as _ <-. rewrite !orb_false_r. auto.
  - cbn [responses_loop] in H.
    apply bind_Return_inv in H as (s1 & flags1 & Hstep & Hrest).
    apply IH in Hrest as (Hc & Hm & Ht). rewrite Hc, Hm, Ht, !has_kind_cons.
    rewrite !(String.eqb_sym _ (response_kind r)). clear Hc Hm Ht IH.
    revert Hstep.
    destruct (String.eqb_spec (response_kind r) "cache") as [Hk|_]; intros Hstep.
    { apply bind_Return_inv in Hstep as (? & ? & _ & Hret). injection Hret as _ <-.
      rewrite ?Hk. cbn. now rewrite ?orb_true_r, ?orb_false_r. }
    revert Hstep.
    destruct (String.eqb_spec (response_kind r) "codemodel") as [Hk|_]; intros Hstep.
    { apply bind_Return_inv in Hstep as (? & ? & _ & Hret). injection Hret as _ <-.
      rewrite ?Hk. cbn. now rewrite ?orb_true_r, ?orb_false_r. }
    revert Hstep.
    destruct (String.eqb_spec (response_kind r) "toolchains") as [Hk|_]; intros Hstep.
    { apply bind_Return_inv in Hstep as (? & ? & _ & Hret). injection Hret as _ <-.
      rewrite ?Hk. cbn. now rewrite ?orb_true_r, ?orb_false_r. }
    injection Hstep as _ <-. now rewrite !orb_false_l.
Qed.

Lemma load_responses_index apiDir i responses env s :
  client_reply i = Some responses ->
  load_responses apiDir (RIndex i) env s =
  match responses_loop (path_join [apiDir; "reply"]) responses no_flags env s with
  | (s', Throw e) => (s', Throw e)
  | (s', Return flags) =>
      if negb (has_kind "cache" responses) then
        (s', Throw (Error "Failed to load cache response from CMake API"))
      else if negb (has_kind "codemodel" responses) then
        (s', Throw (Error "Failed to load codemodel response from CMake API"))
      else if negb (has_kind "toolchains" responses) then _loadToolchainsFromCache env s'
      else (s', Return tt)
  end.
Proof.
  intros Hr. unfold load_responses. rewrite Hr. unfold bind at 1. fold no_flags.
  destruct (responses_loop _ responses no_flags env s) as [s' [flags|e]] eqn:Hloop;
    [|reflexivity].
  apply responses_loop_flags in Hloop as (-> & -> & ->). cbn [no_flags cacheLoaded
    codemodelLoaded toolchainLoaded orb].
  destruct (has_kind "cache" responses); [|reflexivity].
  destruct (has_kind "codemodel" responses); [|reflexivity].
  now destruct (has_kind "toolchains" responses).
Qed.

(** C8.  With the index read, past the gate and with this client's
    responses [responses]: a listed response that fails to load ends
    [_loadReplyFiles] with its own error, whatever is missing; when no
    [codemodel] response is listed, [_loadReplyFiles] fails in every
    case, and with a reply-missing error whenever the listed responses
    have loaded; the same holds for a missing [cache] response; when only
    the [toolchains] response is missing, no error is raised for it and
    the load goes on with the cache-based fallback. *)
Theorem C8_mandatory_responses apiDir env s s1 i responses
    (Hindex : _getApiReplyIndex apiDir env s = (s1, Return (RIndex i)))
    (Hgate : String.leb minimumVersion (version_string i) = true)
    (Hreply : client_reply i = Some responses) :
  let loop := responses_loop (path_join [apiDir; "reply"]) responses no_flags env s1 in
  (forall s2 e, loop = (s2, Throw e) -> _loadReplyFiles apiDir env s = (s2, Throw e))
  /\ (~ In "codemodel" (response_kinds responses) ->
     (exists s' e, _loadReplyFiles apiDir env s = (s', Throw e))
     /\ (forall s2 flags, loop = (s2, Return flags) ->
           exists e, _loadReplyFiles apiDir env s = (s2, Throw e)
                     /\ error_kind e = Some ReplyMissingError))
  /\ (~ In "cache" (response_kinds responses) ->
     (exists s' e, _loadReplyFiles apiDir env s = (s', Throw e))
     /\ (forall s2 flags, loop = (s2, Return flags) ->
           exists e, _loadReplyFiles apiDir env s = (s2, Throw e)
                     /\ error_kind e = Some ReplyMissingError))
  /\ (In "cache" (response_kinds responses) ->
      In "codemodel" (response_kinds responses) ->
      ~ In "toolchains" (response_kinds responses) ->
      forall s2 flags, loop = (s2, Return flags) ->
        _loadReplyFiles apiDir env s = _loadToolchainsFromCache env s2).
Proof.
  intros loop. subst loop.
  rewrite (_loadReplyFiles_after_index _ _ _ _ _ Hindex), Hgate.
  rewrite (load_responses_index _ _ _ _ _ Hreply).
  split; [now intros s2 e ->|].
  repeat split.
  - destruct (responses_loop _ responses no_flags env s1) as [s2 [flags|e]]; [|eauto].
    destruct (has_kind "cache" responses); cbn [negb]; [|eauto].
    destruct (has_kind "codemodel" responses) eqn:Hk; cbn [negb]; [|eauto].
    exfalso. now apply H, has_kind_In.
  - intros s2 flags ->.
    destruct (has_kind "cache" responses); cbn [negb]; [|eauto].
    destruct (has_kind "codemodel" responses) eqn:Hk; cbn [negb]; [|eauto].
    exfalso. now apply H, has_kind_In.
  - destruct (responses_loop _ responses no_flags env s1) as [s2 [flags|e]]; [|eauto].
    destruct (has_kind "cache" responses) eqn:Hk; cbn [negb]; [|eauto].
    exfalso. now apply H, has_kind_In.
  - intros s2 flags ->.
    destruct (has_kind "cache" responses) eqn:Hk; cbn [negb]; [|eauto].
    exfalso. now apply H, has_kind_In.
  - intros Hc Hm Ht s2 flags ->.
    apply has_kind_In in Hc, Hm. rewrite Hc, Hm. cbn [negb].
    destruct (has_kind "toolchains" responses) eqn:Hk; [|reflexivity].
    exfalso. now apply Ht, has_kind_In.
Qed.

(** C8, counterexample.  An index that lists a [cache] and a
    [toolchains] response and no [codemodel] response, with a toolchains
    reply that names no MSVC compiler: the load ends in the loop, with the
    error of [_loadToolchains], before the flags are looked at; the error
    is of the toolchain-unresolved class, not a reply-missing error. *)
Lemma C8_counterexample :
  let load := _loadReplyFiles api_dir gnu_reply_env start in
  snd (_getApiReplyIndex api_dir gnu_reply_env start)
    = Return (new_index ["cache"; "toolchains"])
  /\ ~ In "codemodel" ["cache"; "toolchains"]
  /\ snd load = Throw (Error "Action requires use of MSVC for either/both C or C++.")
  /\ (forall e, snd load = Throw e ->
        error_kind e = Some ToolchainUnresolvedError
        /\ error_kind e <> Some ReplyMissingError).
Proof.
  intros load.
  assert (Hload : snd load
                  = Throw (Error "Action requires use of MSVC for either/both C or C++."))
    by (vm_compute; reflexivity).
  split; [vm_compute; reflexivity|].
  split; [intros [H|[H|[]]]; discriminate H|].
  split; [exact Hload|].
  intros e He. rewrite Hload in He. injection He as <-.
  split; [reflexivity|discriminate].
Qed.

(** ** CompileCommandReconstructor *)

Lemma fold_left_push {A B} (f : A -> B) (l : list A) (arr : list B) :
  fold_left (fun arr x => push arr (f x)) l arr = arr ++ map f l.
Proof.
  revert arr. induction l as [|x l IH]; intros arr; simpl.
  - now rewrite app_nil_r.
  - rewrite IH. unfold push. now rewrite <- app_assoc.
Qed.

Lemma fold_left_push_if {A B} (c : A -> bool) (f g : A -> B) (l : list A) (arr : list B) :
  fold_left (fun arr x => if c x then push arr (f x) else push arr (g x)) l arr
  = arr ++ map (fun x => if c x then f x else g x) l.
Proof.
  rewrite <- fold_left_push. revert arr.
  induction l as [|x l IH]; intros arr; simpl; [reflexivity|].
  rewrite IH. now destruct (c x).
Qed.

(** The argument string is the one the specification words. *)
Lemma _getCompileGroupArguments_expected group options :
  _getCompileGroupArguments group options = expected_args options group.
Proof.
  unfold _getCompileGroupArguments, expected_args.
  rewrite (fold_left_push (fun fragment => fragment)), map_id.
  rewrite (fold_left_push_if
             (fun include => ignoreSystemHeaders options && include_isSystem include)).
  rewrite (fold_left_push (fun define => escapeArgument (util_format_s "/D" define))).
  cbn [app]. rewrite <- app_assoc. do 3 f_equal.
  apply map_ext. intros include. unfold include_flag, util_format_s.
  now destruct (ignoreSystemHeaders options && include_isSystem include).
Qed.

Example args_of_example_group :
  _getCompileGroupArguments example_group no_options
  = "-O2 " +:+ str1 dquote +:+ "/IC:\inc" +:+ str1 dquote +:+ " "
    +:+ str1 dquote +:+ "/DFOO=1" +:+ str1 dquote.
Proof. reflexivity. Qed.

(** The [switch] of the iterator gives a group the compiler the
    specification gives it. *)
Lemma compilerInfo_for_resolved api group :
  compilerInfo_for api (language group) = resolved_compiler api group.
Proof.
  unfold compilerInfo_for, resolved_compiler.
  destruct (String.eqb_spec (language group) "C") as [HC|HC];
    destruct (decide (language group = "C")) as [HC'|HC']; try congruence.
  destruct (String.eqb_spec (language group) "CXX") as [HX|HX];
    destruct (decide (language group = "CXX")) as [HX'|HX']; congruence.
Qed.

Lemma resolved_compiler_language api group compilerInfo :
  (language group = "C" /\ cCompilerInfo api = Some compilerInfo)
  \/ (language group = "CXX" /\ cxxCompilerInfo api = Some compilerInfo) ->
  resolved_compiler api group = Some compilerInfo.
Proof.
  unfold resolved_compiler. intros [[HC H]|[HX H]].
  - destruct (decide (language group = "C")); congruence.
  - destruct (decide (language group = "C")) as [HC|_]; [rewrite HX in HC; discriminate|].
    destruct (decide (language group = "CXX")); congruence.
Qed.

Lemma yield_sources_valid api t root args0 compilerInfo indexes :
  sourceRoot api = Some root ->
  Forall (fun sourceIndex => sourceIndex < length (sources t)) indexes ->
  yield_sources api (RTarget t) args0 compilerInfo indexes =
  (map (fun sourceIndex =>
          {| source := path_join [root; nth sourceIndex (sources t) EmptyString];
             args := args0;
             compiler := compilerInfo |}) indexes,
   None).
Proof.
  intros Hroot. induction 1 as [|i rest Hi _ IH]; [reflexivity|].
  cbn [yield_sources sources_of map]. rewrite Hroot, IH.
  destruct (sources t !! i) as [p|] eqn:Hp.
  - now rewrite (nth_lookup_Some _ _ EmptyString _ Hp).
  - apply lookup_ge_None in Hp. lia.
Qed.

Lemma yield_groups_valid api options t root groups :
  sourceRoot api = Some root ->
  (forall group, In group groups ->
     resolved_compiler api group <> None ->
     Forall (fun sourceIndex => sourceIndex < length (sources t)) (sourceIndexes group)) ->
  yield_groups api options (RTarget t) groups =
  (flat_map (expected_group api options root t) groups, None).
Proof.
  intros Hroot. induction groups as [|group rest IH]; intros Hvalid; [reflexivity|].
  cbn [yield_groups flat_map]. unfold expected_group at 1.
  rewrite IH by (intros g Hg; apply Hvalid; now right).
  rewrite compilerInfo_for_resolved.
  destruct (resolved_compiler api group) as [compilerInfo|] eqn:Hci; [|reflexivity].
  rewrite (yield_sources_valid _ _ root) by
    (first [assumption|apply Hvalid; [now left|congruence]]).
  now rewrite _getCompileGroupArguments_expected.
Qed.

Lemma _parseReplyFile_target env target t s :
  holds_target env target t ->
  _parseReplyFile target env s =
  ({| this := this s; done := (done s ++ [EvExistsSync target]) ++ [EvReadFileSync target] |},
   Return (RTarget t)).
Proof.
  intros [Hne Hfile]. unfold _parseReplyFile.
  apply String.eqb_neq in Hne. rewrite Hne.
  unfold bind, existsSync, readJson, perform, bind. cbn.
  destruct (Hfile (done s)) as [-> _]. cbn.
  destruct (Hfile (done s ++ [EvExistsSync target])) as [_ ->]. reflexivity.
Qed.

Lemma yield_targets_valid env options root targets ts :
  Forall2 (holds_target env) targets ts ->
  forall s,
    sourceRoot (this s) = Some root ->
    Forall (valid_indexes (this s)) ts ->
    exists s',
      yield_targets options targets env s
      = (s', (expected_descriptors (this s) options root ts, None))
      /\ this s' = this s.
Proof.
  induction 1 as [|target t targets ts Hholds _ IH]; intros s Hroot Hvalid.
  - exists s. split; reflexivity.
  - inversion Hvalid as [|? ? Ht Hts]; subst.
    cbn [yield_targets]. rewrite (_parseReplyFile_target _ _ _ _ Hholds).
    cbn [this compileGroups_of].
    rewrite (yield_groups_valid _ _ _ root) by (assumption || exact Ht).
    set (s1 := {| this := this s; done := _ |}).
    destruct (IH s1) as (s' & Hrest & Hthis); [assumption|assumption|].
    rewrite Hrest. exists s'. split; [reflexivity|exact Hthis].
Qed.

(** C1.  For a loaded state whose target files hold the target documents
    [targets], with source indexes that index into the sources of their
    target, and for every option setting: the iterator yields, without an
    error, the descriptors of the targets in order, of the compile groups
    of each target in order, one per source index of the group in order;
    the args string of a group is its fragments verbatim, then one quoted
    include flag per include entry ([/external:I] exactly when
    [ignoreSystemHeaders] is set and the entry is a system one, [/I]
    otherwise), then one quoted [/D] flag per define entry, joined by
    single spaces; a group of one of these targets whose language is C or
    CXX and for whose language a compiler was resolved yields exactly one
    descriptor per entry of its [sourceIndexes], with that compiler. *)
Theorem C1_descriptor_sequence env s options root targets
    (Hloaded : loaded (this s) = true)
    (Hroot : sourceRoot (this s) = Some root)
    (Htargets : Forall2 (holds_target env) (targetFilepaths (this s)) targets)
    (Hvalid : Forall (valid_indexes (this s)) targets) :
  snd (compileCommandsIterator options env s)
    = (expected_descriptors (this s) options root targets, None)
  /\ (forall group,
        _getCompileGroupArguments group options = expected_args options group)
  /\ (forall t group compilerInfo,
        In t targets -> In group (compileGroups t) ->
        (language group = "C" /\ cCompilerInfo (this s) = Some compilerInfo)
        \/ (language group = "CXX" /\ cxxCompilerInfo (this s) = Some compilerInfo) ->
        yield_groups (this s) options (RTarget t) [group]
        = (map (expected_descriptor options root t group compilerInfo)
               (sourceIndexes group),
           None)
        /\ expected_group (this s) options root t group
           = map (expected_descriptor options root t group compilerInfo)
                 (sourceIndexes group)
        /\ length (expected_group (this s) options root t group)
           = length (sourceIndexes group)).
Proof.
  split; [|split].
  - unfold compileCommandsIterator. rewrite Hloaded. cbn [negb].
    destruct (yield_targets_valid env options root _ _ Htargets s Hroot Hvalid)
      as (s' & -> & _).
    reflexivity.
  - intros group. apply _getCompileGroupArguments_expected.
  - intros t group compilerInfo Ht Hgroup Hlang.
    pose proof (resolved_compiler_language _ _ _ Hlang) as Hci.
    assert (Hexp : expected_group (this s) options root t group
                   = map (expected_descriptor options root t group compilerInfo)
                         (sourceIndexes group))
      by (unfold expected_group; now rewrite Hci).
    split; [|split; [exact Hexp|now rewrite Hexp, length_map]].
    rewrite (yield_groups_valid _ _ _ root); [|exact Hroot|].
    + cbn [flat_map]. now rewrite app_nil_r, Hexp.
    + intros g [<-|[]] _.
      rewrite List.Forall_forall in Hvalid. apply (Hvalid t Ht group Hgroup). congruence.
Qed.

(** ** Groups without a compiler *)

Lemma unsupported_no_compiler api group :
  unsupported api group -> compilerInfo_for api (language group) = None.
Proof.
  unfold compilerInfo_for.
  intros [[HC HCXX]|[[-> H]|[-> H]]].
  - apply String.eqb_neq in HC, HCXX. now rewrite HC, HCXX.
  - exact H.
  - exact H.
Qed.

Lemma yield_groups_skip api options targetData pre group post :
  unsupported api group ->
  yield_groups api options targetData (pre ++ group :: post)
  = yield_groups api options targetData (pre ++ post).
Proof.
  intros Hskip. induction pre as [|g pre IH]; cbn [app yield_groups].
  - now rewrite (unsupported_no_compiler _ _ Hskip).
  - now rewrite IH.
Qed.

Lemma yield_sources_same_sources api d1 d2 args0 compilerInfo indexes :
  sources_of d1 = sources_of d2 ->
  yield_sources api d1 args0 compilerInfo indexes
  = yield_sources api d2 args0 compilerInfo indexes.
Proof.
  intros H. induction indexes as [|i rest IH]; [reflexivity|].
  cbn [yield_sources]. now rewrite H, IH.
Qed.

Lemma yield_groups_same_sources api options d1 d2 groups :
  sources_of d1 = sources_of d2 ->
  yield_groups api options d1 groups = yield_groups api options d2 groups.
Proof.
  intros H. induction groups as [|g rest IH]; [reflexivity|].
  cbn [yield_groups]. rewrite IH.
  destruct (compilerInfo_for api (language g)); [|reflexivity].
  now rewrite (yield_sources_same_sources _ d1 d2).
Qed.

(** Reading a reply file leaves the object as it is. *)
Lemma _parseReplyFile_this replyFile env s s' o :
  _parseReplyFile replyFile env s = (s', o) -> this s' = this s.
Proof.
  unfold _parseReplyFile, bind, existsSync, readJson, perform, bind.
  destruct (String.eqb replyFile EmptyString); [now intros [= <- _]|].
  cbn. destruct (negb _); [now intros [= <- _]|].
  cbn. destruct (fs_readFileSync _ _ _); now intros [= <- _].
Qed.

(** The iterator in two worlds that differ only in that the one holds a
    target document with an unsupported group and the other holds it
    without that group. *)
Lemma yield_targets_skip env env' options target t pre group post targets :
  same_but_for target env env' ->
  compileGroups t = pre ++ group :: post ->
  (forall h, fs_readFileSync env h target = Parsed (RTarget t)) ->
  (forall h, fs_readFileSync env' h target
             = Parsed (RTarget {| sources := sources t; compileGroups := pre ++ post |})) ->
  forall s,
    unsupported (this s) group ->
    yield_targets options targets env s = yield_targets options targets env' s.
Proof.
  intros [Hexists Hothers] Hgroups Ht Ht'.
  induction targets as [|p rest IH]; intros s Hskip; [reflexivity|].
  cbn [yield_targets].
  assert (Hcases :
    (_parseReplyFile p env s = _parseReplyFile p env' s)
    \/ exists s1, this s1 = this s
         /\ _parseReplyFile p env s = (s1, Return (RTarget t))
         /\ _parseReplyFile p env' s
            = (s1, Return (RTarget {| sources := sources t;
                                      compileGroups := pre ++ post |}))).
  { unfold _parseReplyFile, bind, existsSync, readJson, perform, bind.
    destruct (String.eqb p EmptyString); [now left|]. cbn.
    rewrite <- Hexists. destruct (negb _); [now left|]. cbn.
    destruct (String.eqb_spec p target) as [->|Hne].
    - right. rewrite Ht, Ht'. eexists. split; [|split; reflexivity]. reflexivity.
    - left. rewrite (Hothers _ _ Hne).
      now destruct (fs_readFileSync env' _ p). }
  destruct Hcases as [<-|(s1 & Hthis & -> & ->)].
  - destruct (_parseReplyFile p env s) as [s1 [d|e]] eqn:Hp; [|reflexivity].
    apply _parseReplyFile_this in Hp.
    rewrite IH by (now rewrite Hp). reflexivity.
  - cbn [compileGroups_of compileGroups]. rewrite Hgroups, Hthis.
    rewrite yield_groups_skip by assumption.
    rewrite (yield_groups_same_sources _ _ (RTarget t)
               (RTarget {| sources := sources t; compileGroups := pre ++ post |}))
      by reflexivity.
    rewrite IH by (now rewrite Hthis). reflexivity.
Qed.

(** C9.  A compile group whose language is neither C nor CXX, or for
    whose language no compiler was resolved, yields no descriptor and
    raises no error, and the iteration goes on with the groups and targets
    that follow: the iterator does what it would do if the target document
    did not list that group. *)
Theorem C9_unsupported_group_skipped env env' s options target t pre group post
    (Hskip : unsupported (this s) group)
    (Hgroups : compileGroups t = pre ++ group :: post)
    (Halike : same_but_for target env env')
    (Hwith : forall h, fs_readFileSync env h target = Parsed (RTarget t))
    (Hwithout : forall h,
        fs_readFileSync env' h target
        = Parsed (RTarget {| sources := sources t; compileGroups := pre ++ post |})) :
  yield_groups (this s) options (RTarget t) [group] = ([], None)
  /\ (forall targetData,
        yield_groups (this s) options targetData (pre ++ group :: post)
        = yield_groups (this s) options targetData (pre ++ post))
  /\ compileCommandsIterator options env s = compileCommandsIterator options env' s.
Proof.
  split; [|split].
  - cbn [yield_groups]. now rewrite (unsupported_no_compiler _ _ Hskip).
  - intros targetData. now apply yield_groups_skip.
  - unfold compileCommandsIterator. destruct (negb (loaded (this s))); [reflexivity|].
    now apply (yield_targets_skip env env' options target t pre group post).
Qed.

(** ** The cache-based fallback without a C compiler *)

Lemma _loadToolchainsFromCache_no_C env s :
  cache (this s) !! "CMAKE_C_COMPILER" = None ->
  _loadToolchainsFromCache env s = (s, Throw TypeError).
Proof.
  intros H. unfold _loadToolchainsFromCache, bind, get_this. now rewrite H.
Qed.

(** C6.  What the code does with the toolchains response absent and a
    cache that sets [CMAKE_CXX_COMPILER] to a path ending in [cl.exe] and
    has no [CMAKE_C_COMPILER]: the fallback reads [endsWith] off the
    missing value and throws a [TypeError]; no C++ [CompilerInfo] is
    recorded and the load fails.  So does [_loadReplyFiles] on replies
    whose index lists the cache and the code model only; [loadApi] on such
    a build directory fails with a [TypeError] as well and records no
    compiler. *)
Theorem C6_fallback_without_C_compiler :
  let s := {| this := api_with_cache cxx_compiler_only; done := [] |} in
  let load := loadApi "/work/build" (env_answered ["cache"; "codemodel"] cxx_compiler_only)
                      start in
  let replies := _loadReplyFiles api_dir
                   (env_settled ["cache"; "codemodel"] cxx_compiler_only) start in
  cache (this s) !! "CMAKE_CXX_COMPILER" = Some cl_exe
  /\ is_cl cl_exe = true
  /\ cache (this s) !! "CMAKE_C_COMPILER" = None
  /\ (forall env, _loadToolchainsFromCache env s = (s, Throw TypeError))
  /\ snd load = Throw TypeError
  /\ cxxCompilerInfo (this (fst load)) = None
  /\ loaded (this (fst load)) = false
  /\ snd replies = Throw TypeError
  /\ cache (this (fst replies)) !! "CMAKE_CXX_COMPILER" = Some cl_exe
  /\ cache (this (fst replies)) !! "CMAKE_C_COMPILER" = None
  /\ cxxCompilerInfo (this (fst replies)) = None.
Proof.
  intros s load replies.
  do 3 (split; [vm_compute; reflexivity|]).
  split; [intros env; apply _loadToolchainsFromCache_no_C; vm_compute; reflexivity|].
  do 6 (split; [vm_compute; reflexivity|]).
  vm_compute. reflexivity.
Qed.

(** ** The order of the steps of [loadApi] *)

Section Emits.
Variable P : event -> Prop.

Lemma emits_ret {A} (a : A) : emits P (ret a).
Proof. intros env s s' o [= <- _]. exists []. now rewrite app_nil_r. Qed.

Lemma emits_throw {A} e : emits P (@throw A e).
Proof. intros env s s' o [= <- _]. exists []. now rewrite app_nil_r. Qed.

Lemma emits_get_this : emits P get_this.
Proof. intros env s s' o [= <- _]. exists []. now rewrite app_nil_r. Qed.

Lemma emits_modify_this f : emits P (modify_this f).
Proof. intros env s s' o [= <- _]. exists []. now rewrite app_nil_r. Qed.

Lemma emits_perform {A} (ask : Env -> history -> A) ev :
  P ev -> emits P (perform ask ev).
Proof. intros HP env s s' o [= <- _]. exists [ev]. split; [reflexivity|now constructor]. Qed.

Lemma emits_bind {A B} (m : M A) (k : A -> M B) :
  emits P m -> (forall a, emits P (k a)) -> emits P (bind m k).
Proof.
  intros Hm Hk env s s' o. unfold bind.
  destruct (m env s) as [s1 [a|e]] eqn:H1.
  - intros H2. apply Hm in H1 as (h1 & E1 & F1). apply Hk in H2 as (h2 & E2 & F2).
    exists (h1 ++ h2). split; [now rewrite E2, E1, app_assoc|now apply Forall_app].
  - intros [= <- _]. now apply Hm in H1.
Qed.

End Emits.

Ltac emits_step :=
  first
    [ apply emits_ret
    | apply emits_throw
    | apply emits_perform; reflexivity
    | apply emits_modify_this
    | apply emits_get_this
    | apply emits_bind; [|intros ?]
    | match goal with
      | |- emits _ (if ?c then _ else _) => destruct c
      | |- emits _ (match ?x with _ => _ end) => destruct x
      end ].

(** The steps of [loadApi] before the call of [spawn] start no child. *)
Lemma existsSync_no_spawn p : emits not_spawn (existsSync p).
Proof. unfold existsSync. emits_step. Qed.

Lemma readdirSync_no_spawn p : emits not_spawn (readdirSync p).
Proof. unfold readdirSync. repeat emits_step. Qed.

Lemma _parseReplyFile_no_spawn f : emits not_spawn (_parseReplyFile f).
Proof. unfold _parseReplyFile, readJson, existsSync. repeat emits_step. Qed.

Lemma findExecutable_loop_no_spawn executable paths :
  emits not_spawn (findExecutable_loop executable paths).
Proof.
  induction paths as [|p rest IH]; cbn [findExecutable_loop]; [apply emits_throw|].
  apply emits_bind; [apply existsSync_no_spawn|]. intros [|]; [apply emits_ret|exact IH].
Qed.

Lemma findExecutableOnPath_no_spawn executable :
  emits not_spawn (findExecutableOnPath executable).
Proof. intros env s s' o H. eapply findExecutable_loop_no_spawn. exact H. Qed.

Lemma _getApiReplyIndex_no_spawn apiDir : emits not_spawn (_getApiReplyIndex apiDir).
Proof.
  unfold _getApiReplyIndex.
  repeat first [ apply existsSync_no_spawn | apply readdirSync_no_spawn
               | apply _parseReplyFile_no_spawn | emits_step ].
Qed.

Lemma _createApiQuery_no_spawn apiDir : emits not_spawn (_createApiQuery apiDir).
Proof.
  unfold _createApiQuery, existsSync, mkdirSync, writeFile. repeat emits_step.
Qed.

Lemma version_gate_silent indexReply env s s' o :
  version_gate indexReply env s = (s', o) -> s' = s.
Proof.
  unfold version_gate. destruct (version_string_of indexReply) as [v|].
  - destruct (version_too_old v); now intros [= <- _].
  - now intros [= <- _].
Qed.

(** *** The call of [spawn]

    [loadApi] passes the build directory to [child_process.spawn] as a
    string, where Node takes the array of the arguments: the call throws
    before anything is started, whatever the world. *)
Lemma spawn_string file x env s : spawn file (ArgsString x) env s = (s, Throw TypeError).
Proof. unfold spawn. now destruct (String.eqb file EmptyString). Qed.

(** The same call with the argument in an array starts the child and
    returns without waiting for it. *)
Example spawn_array file args env s :
  file <> EmptyString ->
  child_process_spawn env (done s) file args = true ->
  spawn file (ArgsArray args) env s
  = ({| this := this s; done := done s ++ [EvSpawn file args] |}, Return tt).
Proof.
  intros Hfile Hok. apply String.eqb_neq in Hfile.
  unfold spawn, start_child, bind, perform. now rewrite Hfile, Hok.
Qed.

Lemma spawn_string_emits P file x {B} (k : unit -> M B) :
  emits P (bind (spawn file (ArgsString x)) k).
Proof.
  intros env s s' o. unfold bind. rewrite spawn_string.
  intros [= <- _]. exists []. now rewrite app_nil_r.
Qed.

(** In every world, [loadApi] starts no child process. *)
Lemma loadApi_no_spawn buildRoot : emits not_spawn (loadApi buildRoot).
Proof.
  unfold loadApi. destruct (String.eqb buildRoot EmptyString); [apply emits_throw|].
  apply emits_bind; [apply existsSync_no_spawn|]. intros found.
  destruct (negb found); [apply emits_throw|].
  apply emits_bind; [apply readdirSync_no_spawn|]. intros names.
  destruct (length names =? 0); [apply emits_throw|].
  apply emits_bind; [apply findExecutableOnPath_no_spawn|]. intros cmakePath.
  apply emits_bind; [apply _getApiReplyIndex_no_spawn|]. intros indexQuery.
  apply emits_bind; [apply _createApiQuery_no_spawn|]. intros _.
  apply spawn_string_emits.
Qed.

(** *** The runs of [loadApi] *)

Lemma plain_error_message m :
  m <> "Action requires CMake version >= 3.13.7" -> plain_error (Error m).
Proof. intros Hm. split; [discriminate|now apply not_version_error_message]. Qed.

Lemma plain_error_SystemError : plain_error SystemError.
Proof. split; discriminate. Qed.

Lemma existsSync_looks p : emits looks (existsSync p).
Proof. unfold existsSync. emits_step. Qed.

Lemma readdirSync_looks p : emits looks (readdirSync p).
Proof. unfold readdirSync. repeat emits_step. Qed.

Lemma findExecutable_loop_looks executable paths :
  emits looks (findExecutable_loop executable paths).
Proof.
  induction paths as [|p rest IH]; cbn [findExecutable_loop]; [apply emits_throw|].
  apply emits_bind; [apply existsSync_looks|]. intros [|]; [apply emits_ret|exact IH].
Qed.

Lemma findExecutableOnPath_looks executable :
  emits looks (findExecutableOnPath executable).
Proof. intros env s s' o H. eapply findExecutable_loop_looks. exact H. Qed.

Lemma existsSync_plain p : throws_only plain_error (existsSync p).
Proof. unfold existsSync. apply throws_only_perform. Qed.

Lemma readdirSync_plain p : throws_only plain_error (readdirSync p).
Proof.
  unfold readdirSync. apply throws_only_bind; [apply throws_only_perform|].
  intros [names|]; [apply throws_only_ret|].
  apply throws_only_throw, plain_error_SystemError.
Qed.

Lemma findExecutable_loop_plain paths :
  throws_only plain_error (findExecutable_loop "cmake.exe" paths).
Proof.
  induction paths as [|p rest IH]; cbn [findExecutable_loop].
  - apply throws_only_throw, plain_error_message. vm_compute. discriminate.
  - apply throws_only_bind; [apply existsSync_plain|].
    intros [|]; [apply throws_only_ret|exact IH].
Qed.

Lemma findExecutableOnPath_plain :
  throws_only plain_error (findExecutableOnPath "cmake.exe").
Proof. intros env s s' e H. eapply findExecutable_loop_plain. exact H. Qed.

(** A step that only looks, in a computation that goes on after it:
    either the computation stops in that step, or it goes on from a state
    to which the step has added looks only. *)
Lemma look_step_inv {A B} (m : M A) (k : A -> M B) env s s' (o : outcome B) :
  emits looks m -> throws_only plain_error m ->
  bind m k env s = (s', o) ->
  (exists h e, done s' = done s ++ h /\ Forall looks h /\ o = Throw e /\ plain_error e)
  \/ exists s1 a h, done s1 = done s ++ h /\ Forall looks h /\ k a env s1 = (s', o).
Proof.
  intros He Ht H. unfold bind in H.
  destruct (m env s) as [s1 [a|e]] eqn:Hm.
  - right. apply He in Hm as (h & E & F). eauto 6.
  - left. injection H as <- <-. pose proof (Ht _ _ _ _ Hm) as Hp.
    apply He in Hm as (h & E & F). eauto 8.
Qed.

Ltac plain_error_solve :=
  first [ apply plain_error_SystemError
        | apply plain_error_message; cbn; discriminate
        | split; discriminate ].

Lemma _parseReplyFile_run replyFile env s s1 o1 :
  _parseReplyFile replyFile env s = (s1, o1) ->
  (exists h e, done s1 = done s ++ h /\ Forall looks h /\ o1 = Throw e /\ plain_error e)
  \/ (done s1 = done s ++ [EvExistsSync replyFile] ++ [EvReadFileSync replyFile]
      /\ o1 = read_outcome (fs_readFileSync env (done s ++ [EvExistsSync replyFile])
                                            replyFile)).
Proof.
  unfold _parseReplyFile, bind, existsSync, readJson, perform, bind.
  destruct (String.eqb replyFile EmptyString).
  { intros [= <- <-]. left. exists [], (Error "Failed to find CMake API reply file.").
    rewrite app_nil_r. split; [reflexivity|]. split; [constructor|].
    split; [reflexivity|plain_error_solve]. }
  cbn. destruct (fs_existsSync env (done s) replyFile); cbn.
  - destruct (fs_readFileSync env (done s ++ [EvExistsSync replyFile]) replyFile);
      intros [= <- <-]; right; cbn; now rewrite <- app_assoc.
  - intros [= <- <-]. left.
    exists [EvExistsSync replyFile],
           (Error ("Failed to find CMake API reply file: " +:+ replyFile)).
    split; [reflexivity|]. split; [repeat constructor|].
    split; [reflexivity|plain_error_solve].
Qed.

Ltac stop_with h e :=
  exists h, e; split; [|split; [|split; [reflexivity|]]].

Ltac looks_solve :=
  repeat (apply Forall_app; split); first [assumption | repeat constructor].

(** The runs of [_getApiReplyIndex]: it stops on an error of its own
    after looks only, or its last request is the read of the file it has
    chosen, and its outcome is what that read gives. *)
Lemma _getApiReplyIndex_run apiDir env s s1 o1 :
  _getApiReplyIndex apiDir env s = (s1, o1) ->
  (exists h e, done s1 = done s ++ h /\ Forall looks h /\ o1 = Throw e /\ plain_error e)
  \/ (exists h idx, done s1 = done s ++ h ++ [EvReadFileSync idx] /\ Forall looks h
      /\ o1 = read_outcome (fs_readFileSync env (done s ++ h) idx)).
Proof.
  unfold _getApiReplyIndex. intros H.
  apply look_step_inv in H as [H|(s2 & found & h2 & E2 & F2 & H)];
    [now left| |apply existsSync_looks|apply existsSync_plain].
  destruct (negb found).
  { injection H as <- <-. left.
    stop_with h2 (Error "Failed to generate CMake Api Reply files");
      [assumption|assumption|plain_error_solve]. }
  apply look_step_inv in H as [(h & e & E & F & -> & Hp)|(s3 & names & h3 & E3 & F3 & H)];
    [| |apply readdirSync_looks|apply readdirSync_plain].
  { left. stop_with (h2 ++ h) e; [now rewrite E, E2, app_assoc|looks_solve|assumption]. }
  assert (Hnone : forall st (o : outcome Reply),
             throw (Error "Failed to find CMake API index reply file.") env s3 = (st, o) ->
             exists h e, done st = done s ++ h /\ Forall looks h /\ o = Throw e
                         /\ plain_error e).
  { intros st o [= <- <-].
    stop_with (h2 ++ h3) (Error "Failed to find CMake API index reply file.");
      [now rewrite E3, E2, app_assoc|looks_solve|plain_error_solve]. }
  destruct (fold_left index_step names None) as [indexFilepath|]; [|left; eauto].
  destruct (String.eqb indexFilepath EmptyString); [left; eauto|].
  apply _parseReplyFile_run in H as [(h & e & E & F & -> & Hp)|[E ->]].
  - left. stop_with (h2 ++ h3 ++ h) e;
      [now rewrite E, E3, E2, !app_assoc|looks_solve|assumption].
  - right. exists (h2 ++ h3 ++ [EvExistsSync indexFilepath]), indexFilepath.
    rewrite E, E3, E2, <- !app_assoc. split; [reflexivity|].
    split; [looks_solve|now rewrite !app_assoc].
Qed.

(** The runs of [_createApiQuery]: a look at the query directory, its
    creation when it is not there, and the write of the query document;
    it stops only when the directory cannot be created. *)
Lemma _createApiQuery_run apiDir env s s' o :
  _createApiQuery apiDir env s = (s', o) ->
  (done s' = done s ++ [EvExistsSync (query_dir apiDir); EvMkdirSync (query_dir apiDir)]
   /\ o = Throw SystemError)
  \/ (exists hm, (hm = [] \/ hm = [EvMkdirSync (query_dir apiDir)])
        /\ done s' = done s ++ EvExistsSync (query_dir apiDir) :: hm
                            ++ [EvWriteFile (query_file apiDir) queryData]
        /\ o = Return tt).
Proof.
  unfold _createApiQuery, query_file, query_dir, bind, existsSync, mkdirSync, writeFile,
    perform, bind, ret, throw.
  cbn. destruct (fs_existsSync env (done s) _); cbn.
  - intros [= <- <-]. right. exists []. cbn. split; [now left|].
    split; [now rewrite <- app_assoc|reflexivity].
  - destruct (fs_mkdirSync env _ _); cbn; intros [= <- <-].
    + right. eexists [_]. split; [now right|]. cbn.
      split; [now rewrite <- !app_assoc|reflexivity].
    + left. cbn. split; [now rewrite <- app_assoc|reflexivity].
Qed.

(** The runs of [loadApi], in every world.  A run stops before any file
    is read, after looks only, on an error of the checks; or it stops at
    the read of the index file, which has failed; or the read has given a
    document, whatever it holds, and the run goes on to the creation of
    the query and ends there: on the query directory that cannot be
    created, or else, the query document written, on the [TypeError] of
    the call of [spawn]. *)
Lemma loadApi_run buildRoot env s s' o :
  loadApi buildRoot env s = (s', o) ->
  let apiDir := api_dir_of buildRoot in
  (exists h e, done s' = done s ++ h /\ Forall looks h /\ o = Throw e /\ plain_error e)
  \/ (exists h idx e,
        done s' = done s ++ h ++ [EvReadFileSync idx] /\ Forall looks h
        /\ o = Throw e /\ (e = SystemError \/ e = SyntaxError)
        /\ forall d, fs_readFileSync env (done s ++ h) idx <> Parsed d)
  \/ (exists h idx d hq,
        Forall looks h
        /\ fs_readFileSync env (done s ++ h) idx = Parsed d
        /\ done s' = done s ++ h ++ [EvReadFileSync idx] ++ hq
        /\ ((hq = [EvExistsSync (query_dir apiDir); EvMkdirSync (query_dir apiDir)]
             /\ o = Throw SystemError)
            \/ (exists hm, (hm = [] \/ hm = [EvMkdirSync (query_dir apiDir)])
                  /\ hq = EvExistsSync (query_dir apiDir) :: hm
                          ++ [EvWriteFile (query_file apiDir) queryData]
                  /\ o = Throw TypeError))).
Proof.
  intros H apiDir. unfold loadApi in H. fold (api_dir_of buildRoot) in H.
  fold apiDir in H.
  destruct (String.eqb buildRoot EmptyString).
  { injection H as <- <-. left.
    stop_with (@nil event) (Error "CMakeApi: 'buildRoot' can not be null or empty.");
      [now rewrite app_nil_r|constructor|plain_error_solve]. }
  apply look_step_inv in H as [H|(s1 & found & h1 & E1 & F1 & H)];
    [now left| |apply existsSync_looks|apply existsSync_plain].
  destruct (negb found).
  { injection H as <- <-. left.
    stop_with h1 (Error ("CMake build root not found at: " +:+ buildRoot));
      [assumption|assumption|plain_error_solve]. }
  apply look_step_inv in H as [(h & e & E & F & -> & Hp)|(s2 & names & h2 & E2 & F2 & H)];
    [| |apply readdirSync_looks|apply readdirSync_plain].
  { left. stop_with (h1 ++ h) e; [now rewrite E, E1, app_assoc|looks_solve|assumption]. }
  destruct (length names =? 0).
  { injection H as <- <-. left.
    stop_with (h1 ++ h2)
      (Error "CMake build root must be non-empty as project should already be configured");
      [now rewrite E2, E1, app_assoc|looks_solve|plain_error_solve]. }
  apply look_step_inv in H
      as [(h & e & E & F & -> & Hp)|(s3 & cmakePath & h3 & E3 & F3 & H)];
    [| |apply findExecutableOnPath_looks|apply findExecutableOnPath_plain].
  { left. stop_with (h1 ++ h2 ++ h) e;
      [now rewrite E, E2, E1, !app_assoc|looks_solve|assumption]. }
  assert (E03 : done s3 = done s ++ (h1 ++ h2 ++ h3))
    by (rewrite E3, E2, E1; now rewrite !app_assoc).
  assert (F03 : Forall looks (h1 ++ h2 ++ h3)) by looks_solve.
  clear E1 E2 E3 F1 F2 F3. revert E03 F03. generalize (h1 ++ h2 ++ h3). intros h0 E0 F0.
  apply bind_inv in H as [(e & H & ->)|(s4 & indexQuery & Hindex & H)].
  { apply _getApiReplyIndex_run in H as [(h & e' & E & F & [= ->] & Hp)|(h & idx & E & F & Hr)].
    - left. stop_with (h0 ++ h) e'; [now rewrite E, E0, app_assoc|looks_solve|assumption].
    - right; left. exists (h0 ++ h), idx, e.
      assert (Hst : done s ++ (h0 ++ h) = done s3 ++ h)
        by (rewrite E0; now rewrite app_assoc).
      split; [rewrite E, E0; now rewrite <- !app_assoc|].
      split; [looks_solve|]. split; [reflexivity|]. rewrite Hst.
      destruct (fs_readFileSync env (done s3 ++ h) idx); cbn in Hr;
        [injection Hr as ->|injection Hr as ->|discriminate Hr];
        (split; [auto|intros d; discriminate]). }
  apply _getApiReplyIndex_run in Hindex
      as [(h & e' & E & F & [=] & Hp)|(h & idx & E & F & Hr)].
  right; right.
  destruct (fs_readFileSync env (done s3 ++ h) idx) as [| |d] eqn:Hread;
    cbn in Hr; try discriminate Hr. injection Hr as ->.
  assert (Hq : exists hq,
             done s' = done s4 ++ hq
             /\ ((hq = [EvExistsSync (query_dir apiDir); EvMkdirSync (query_dir apiDir)]
                  /\ o = Throw SystemError)
                 \/ (exists hm, (hm = [] \/ hm = [EvMkdirSync (query_dir apiDir)])
                       /\ hq = EvExistsSync (query_dir apiDir) :: hm
                               ++ [EvWriteFile (query_file apiDir) queryData]
                       /\ o = Throw TypeError))).
  { apply bind_inv in H as [(e & H & ->)|(s5 & [] & Hquery & H)].
    - apply _createApiQuery_run in H as [[E5 [= ->]]|(hm & _ & _ & [=])].
      eexists. split; [exact E5|]. now left.
    - apply _createApiQuery_run in Hquery as [[_ [=]]|(hm & Hm & E5 & _)].
      unfold bind in H. rewrite spawn_string in H. injection H as <- <-.
      eexists. split; [exact E5|]. right. exists hm. auto. }
  destruct Hq as (hq & Eq & Hq).
  exists (h0 ++ h), idx, d, hq.
  assert (Hst : done s ++ (h0 ++ h) = done s3 ++ h)
    by (rewrite E0; now rewrite app_assoc).
  split; [looks_solve|].
  split; [now rewrite Hst|].
  split; [|exact Hq].
  rewrite Eq, E, E0. now rewrite <- !app_assoc.
Qed.

(** *** Where an event stands in a run *)

(** An event that a test tells from all the others of a history stands
    at one place in it. *)
Lemma split_unique (f : event -> bool) l1 x l2 h1 y h2 :
  Forall (fun ev => f ev = false) l1 -> Forall (fun ev => f ev = false) l2 ->
  f y = true ->
  l1 ++ x :: l2 = h1 ++ y :: h2 -> h1 = l1 /\ y = x /\ h2 = l2.
Proof.
  intros F1 F2 Hy. revert h1. induction F1 as [|b l1 Hb _ IH]; intros [|a h1] H; cbn in H.
  - injection H as -> ->. auto.
  - injection H as -> ->. apply Forall_app in F2 as [_ F2].
    inversion F2 as [|? ? Hy' _]; subst. congruence.
  - injection H as -> _. congruence.
  - injection H as -> H. apply IH in H as (-> & -> & ->). auto.
Qed.

Lemma no_split (f : event -> bool) h h1 y h2 :
  Forall (fun ev => f ev = false) h -> f y = true -> h <> h1 ++ y :: h2.
Proof.
  intros F Hy ->. apply Forall_app in F as [_ F].
  inversion F as [|? ? Hy' _]; subst. congruence.
Qed.

Lemma looks_not_read h : Forall looks h -> Forall (fun ev => is_read ev = false) h.
Proof. apply List.Forall_impl. now intros [] H. Qed.

Lemma looks_not_write h : Forall looks h -> Forall (fun ev => is_write ev = false) h.
Proof. apply List.Forall_impl. now intros [] H. Qed.

Ltac tests_solve :=
  repeat (apply Forall_app; split);
  first [ now apply looks_not_read | now apply looks_not_write | repeat constructor ].

(** In every world, the write of the query document is the last thing
    [loadApi] does, and the run that has come to it ends with the
    [TypeError] of the call of [spawn]. *)
Lemma loadApi_write_is_last buildRoot env s s' o h1 p data h2 :
  loadApi buildRoot env s = (s', o) ->
  done s' = done s ++ h1 ++ EvWriteFile p data :: h2 ->
  h2 = [] /\ o = Throw TypeError
  /\ p = query_file (api_dir_of buildRoot) /\ data = queryData.
Proof.
  intros H Hdone. apply loadApi_run in H. cbv zeta in H.
  destruct H as [(h & e & E & F & _ & _)
                |[(h & idx & e & E & F & _ & _ & _)
                 |(h & idx & d & hq & F & _ & E & Hq)]];
    rewrite E in Hdone; apply app_inv_head in Hdone.
  - exfalso. revert Hdone. apply (no_split is_write); [tests_solve|reflexivity].
  - exfalso. revert Hdone. apply (no_split is_write); [tests_solve|reflexivity].
  - destruct Hq as [[-> _]|(hm & Hm & -> & ->)].
    + exfalso. revert Hdone. apply (no_split is_write); [tests_solve|reflexivity].
    + change (h ++ [EvReadFileSync idx]
                ++ EvExistsSync (query_dir (api_dir_of buildRoot)) :: hm
                ++ [EvWriteFile (query_file (api_dir_of buildRoot)) queryData])
        with (h ++ [EvReadFileSync idx]
                ++ (EvExistsSync (query_dir (api_dir_of buildRoot)) :: hm)
                ++ [EvWriteFile (query_file (api_dir_of buildRoot)) queryData]) in Hdone.
      rewrite !app_assoc in Hdone. rewrite <- !app_assoc in Hdone.
      rewrite !app_assoc in Hdone.
      apply (split_unique is_write) in Hdone as (_ & Hev & ->);
        [|destruct Hm as [-> | ->]; tests_solve|constructor|reflexivity].
      injection Hev as -> ->. auto.
Qed.

(** In every world, a run of [loadApi] in which the read of a file has
    given a document goes on, whatever the document holds, to the creation
    of the query. *)
Lemma loadApi_read_then_query buildRoot env s s' o h1 p h2 d :
  loadApi buildRoot env s = (s', o) ->
  done s' = done s ++ h1 ++ EvReadFileSync p :: h2 ->
  fs_readFileSync env (done s ++ h1) p = Parsed d ->
  let apiDir := api_dir_of buildRoot in
  (h2 = [EvExistsSync (query_dir apiDir); EvMkdirSync (query_dir apiDir)]
   /\ o = Throw SystemError)
  \/ (exists hm, (hm = [] \/ hm = [EvMkdirSync (query_dir apiDir)])
        /\ h2 = EvExistsSync (query_dir apiDir) :: hm
                ++ [EvWriteFile (query_file apiDir) queryData]
        /\ o = Throw TypeError).
Proof.
  intros H Hdone Hread apiDir. apply loadApi_run in H. cbv zeta in H. fold apiDir in H.
  destruct H as [(h & e & E & F & _ & _)
                |[(h & idx & e & E & F & _ & _ & Hfailed)
                 |(h & idx & d' & hq & F & _ & E & Hq)]];
    rewrite E in Hdone; apply app_inv_head in Hdone.
  - exfalso. revert Hdone. apply (no_split is_read); [tests_solve|reflexivity].
  - apply (split_unique is_read) in Hdone as (-> & [= ->] & _);
      [|tests_solve|constructor|reflexivity].
    now apply Hfailed in Hread.
  - apply (split_unique is_read) in Hdone as (_ & _ & ->);
      [exact Hq|tests_solve| |reflexivity].
    destruct Hq as [[-> _]|(hm & [-> | ->] & -> & _)]; repeat constructor.
Qed.

(** In every world, [loadApi] throws, and what it throws is not of the
    protocol-version class. *)
Lemma loadApi_throws buildRoot env s s' o :
  loadApi buildRoot env s = (s', o) -> exists e, o = Throw e /\ not_version_error e.
Proof.
  intros H. apply loadApi_run in H. cbv zeta in H.
  destruct H as [(h & e & _ & _ & -> & _ & Hv)
                |[(h & idx & e & _ & _ & -> & [-> | ->] & _)
                 |(h & idx & d & hq & _ & _ & _ & [[_ ->]|(hm & _ & _ & ->)])]];
    eexists; (split; [reflexivity|]); first [exact Hv|discriminate].
Qed.

(** C3.  What the code does with the build tool.  In every world
    [loadApi] starts no child process: the call of [spawn] is refused on
    its arguments.  The write of the query document is the last thing a
    run does, and a run that has come to it ends with the [TypeError] of
    that call: nothing is read after it.  The one reply file that is read,
    the index found before the query, is read before the call.  So it is
    in a world in which the build tool, once started, would have answered
    the query at once. *)
Theorem C3_build_tool_never_started :
  (forall buildRoot env s s' o,
      loadApi buildRoot env s = (s', o) ->
      exists h, done s' = done s ++ h /\ Forall not_spawn h)
  /\ (forall buildRoot env s s' o h1 p data h2,
        loadApi buildRoot env s = (s', o) ->
        done s' = done s ++ h1 ++ EvWriteFile p data :: h2 ->
        h2 = [] /\ o = Throw TypeError
        /\ p = query_file (api_dir_of buildRoot) /\ data = queryData)
  /\ (let env := env_answered all_kinds both_compilers in
      let load := loadApi "/work/build" env start in
      child_process_spawn env (done (fst load)) "/opt/cmake/bin/cmake.exe" ["/work/build"]
      = true
      /\ snd load = Throw TypeError
      /\ loaded (this (fst load)) = false
      /\ done (fst load) =
         [ EvExistsSync "/work/build";
           EvReaddirSync "/work/build";
           EvExistsSync "/work/cmake.exe";
           EvExistsSync "/opt/cmake/bin/cmake.exe";
           EvExistsSync reply_dir;
           EvReaddirSync reply_dir;
           EvExistsSync "index-2021-01-01T00-00-00-0000.json";
           EvReadFileSync "index-2021-01-01T00-00-00-0000.json";
           EvExistsSync (api_dir +:+ "/query/client-msvc-ca-action");
           EvMkdirSync (api_dir +:+ "/query/client-msvc-ca-action");
           EvWriteFile (api_dir +:+ "/query/client-msvc-ca-action/query.json")
                       queryData ]).
Proof.
  split; [intros buildRoot env s s' o; apply loadApi_no_spawn|].
  split; [apply loadApi_write_is_last|].
  do 3 (split; [vm_compute; reflexivity|]).
  vm_compute. reflexivity.
Qed.

(** C4.  What the code does with the version of the index found before
    the query.  In every world, a run of [loadApi] in which the read of
    the index has given a document goes on to create the query, whatever
    version the document reports: it ends on the query directory that
    cannot be created or, the query document written, on the [TypeError]
    of the call of [spawn]; and no run of [loadApi] ends with an error of
    the protocol-version class.  So it is for the index that reports
    version ["3.13.6"], which the gate refuses. *)
Theorem C4_query_written_before_gate :
  (forall buildRoot env s s' o h1 p h2 d,
      loadApi buildRoot env s = (s', o) ->
      done s' = done s ++ h1 ++ EvReadFileSync p :: h2 ->
      fs_readFileSync env (done s ++ h1) p = Parsed d ->
      let apiDir := api_dir_of buildRoot in
      (h2 = [EvExistsSync (query_dir apiDir); EvMkdirSync (query_dir apiDir)]
       /\ o = Throw SystemError)
      \/ (exists hm, (hm = [] \/ hm = [EvMkdirSync (query_dir apiDir)])
            /\ h2 = EvExistsSync (query_dir apiDir) :: hm
                    ++ [EvWriteFile (query_file apiDir) queryData]
            /\ o = Throw TypeError))
  /\ (forall buildRoot env s s' o,
        loadApi buildRoot env s = (s', o) -> exists e, o = Throw e /\ not_version_error e)
  /\ (let env := env_running "3.13.6" in
      let load := loadApi "/work/build" env start in
      (forall h, fs_readFileSync env h "index-2021-01-01T00-00-00-0000.json"
                 = Parsed (old_index "3.13.6"))
      /\ (forall env' s, version_gate (old_index "3.13.6") env' s = (s, Throw version_error))
      /\ snd load = Throw TypeError
      /\ done (fst load) =
         [ EvExistsSync "/work/build";
           EvReaddirSync "/work/build";
           EvExistsSync "/work/cmake.exe";
           EvExistsSync "/opt/cmake/bin/cmake.exe";
           EvExistsSync reply_dir;
           EvReaddirSync reply_dir;
           EvExistsSync "index-2021-01-01T00-00-00-0000.json";
           EvReadFileSync "index-2021-01-01T00-00-00-0000.json";
           EvExistsSync (api_dir +:+ "/query/client-msvc-ca-action");
           EvMkdirSync (api_dir +:+ "/query/client-msvc-ca-action");
           EvWriteFile (api_dir +:+ "/query/client-msvc-ca-action/query.json")
                       queryData ]).
Proof.
  split; [apply loadApi_read_then_query|].
  split; [apply loadApi_throws|].
  split; [intros h; unfold env_running, disk_env, disk_at; cbn [fs_readFileSync];
          now destruct (spawned h)|].
  split; [intros env' s; reflexivity|].
  split; vm_compute; reflexivity.
Qed.

(** ** The theorems on the example replies *)

Lemma holds_target_settled kinds entries :
  holds_target (env_settled kinds entries) (reply_dir +:+ "/target-app.json") example_target.
Proof.
  split; [discriminate|]. intros h.
  unfold env_settled, disk_env, disk_at. cbn [fs_existsSync fs_readFileSync].
  destruct (spawned h); split; reflexivity.
Qed.

Lemma valid_indexes_example : valid_indexes (this loaded_example) example_target.
Proof.
  intros group [<-|[<-|[]]] Hci.
  - exfalso. now apply Hci.
  - repeat constructor.
Qed.

Lemma C1_descriptor_sequence_witness :
  let env := env_settled all_kinds both_compilers in
  let cxx := {| ci_path := cl_exe; ci_version := "19.29.30133.0"; ci_includes := [] |} in
  let args0 := "-O2 " +:+ str1 dquote +:+ "/IC:\inc" +:+ str1 dquote +:+ " "
               +:+ str1 dquote +:+ "/DFOO=1" +:+ str1 dquote in
  (loaded (this loaded_example) = true
   /\ sourceRoot (this loaded_example) = Some "/work/src"
   /\ Forall2 (holds_target env) (targetFilepaths (this loaded_example)) [example_target]
   /\ Forall (valid_indexes (this loaded_example)) [example_target])
  /\ snd (compileCommandsIterator no_options env loaded_example)
     = ([ {| source := "/work/src/src/a.cpp"; args := args0; compiler := cxx |};
          {| source := "/work/src/src/b.cpp"; args := args0; compiler := cxx |} ],
        None)
  /\ yield_groups (this loaded_example) no_options (RTarget example_target) [example_group]
     = ([ {| source := "/work/src/src/a.cpp"; args := args0; compiler := cxx |};
          {| source := "/work/src/src/b.cpp"; args := args0; compiler := cxx |} ],
        None).
Proof.
  intros env cxx args0.
  assert (H1 : loaded (this loaded_example) = true) by reflexivity.
  assert (H2 : sourceRoot (this loaded_example) = Some "/work/src") by reflexivity.
  assert (H3 : Forall2 (holds_target env) (targetFilepaths (this loaded_example))
                       [example_target])
    by (constructor; [apply holds_target_settled|constructor]).
  assert (H4 : Forall (valid_indexes (this loaded_example)) [example_target])
    by (constructor; [apply valid_indexes_example|constructor]).
  destruct (C1_descriptor_sequence env loaded_example no_options "/work/src"
              [example_target] H1 H2 H3 H4) as (Hseq & _ & Hgroup).
  split; [auto|]. split.
  - rewrite Hseq. vm_compute. reflexivity.
  - destruct (Hgroup example_target example_group cxx
                (or_introl eq_refl) (or_intror (or_introl eq_refl))
                (or_intror (conj eq_refl eq_refl))) as (Hyield & _).
    rewrite Hyield. vm_compute. reflexivity.
Defined.

Example descriptors_of_example :
  snd (compileCommandsIterator no_options (env_settled all_kinds both_compilers)
                               loaded_example)
  = ([ {| source := "/work/src/src/a.cpp";
          args := "-O2 " +:+ str1 dquote +:+ "/IC:\inc" +:+ str1 dquote +:+ " "
                  +:+ str1 dquote +:+ "/DFOO=1" +:+ str1 dquote;
          compiler := {| ci_path := cl_exe;
                         ci_version := "19.29.30133.0";
                         ci_includes := [] |} |};
       {| source := "/work/src/src/b.cpp";
          args := "-O2 " +:+ str1 dquote +:+ "/IC:\inc" +:+ str1 dquote +:+ " "
                  +:+ str1 dquote +:+ "/DFOO=1" +:+ str1 dquote;
          compiler := {| ci_path := cl_exe;
                         ci_version := "19.29.30133.0";
                         ci_includes := [] |} |} ],
     None).
Proof. vm_compute. reflexivity. Qed.

Lemma same_but_for_target t t' :
  same_but_for (reply_dir +:+ "/target-app.json") (env_settled_with t) (env_settled_with t').
Proof.
  split; intros h p.
  - unfold env_settled_with, disk_env, disk_at. cbn [fs_existsSync].
    destruct (spawned h); cbn [disk_dirs disk_files fresh_disk_with assoc];
      repeat match goal with
             | |- context [String.eqb ?a p] => destruct (String.eqb a p)
             end; reflexivity.
  - intros Hne. apply String.eqb_neq in Hne. rewrite String.eqb_sym in Hne.
    unfold env_settled_with, disk_env, disk_at. cbn [fs_readFileSync].
    destruct (spawned h); cbn [disk_files fresh_disk_with assoc];
      repeat match goal with
             | |- context [String.eqb ?a p] =>
                 lazymatch a with
                 | reply_dir +:+ "/target-app.json" => rewrite Hne
                 | _ => destruct (String.eqb a p)
                 end
             end; reflexivity.
Qed.

Lemma target_read_settled t h :
  fs_readFileSync (env_settled_with t) h (reply_dir +:+ "/target-app.json")
  = Parsed (RTarget t).
Proof.
  unfold env_settled_with, disk_env, disk_at. cbn [fs_readFileSync].
  destruct (spawned h); reflexivity.
Qed.

Lemma C9_unsupported_group_skipped_witness :
  let without := {| sources := sources example_target;
                    compileGroups := [example_group] |} in
  unsupported (this loaded_example) fortran_group
  /\ yield_groups (this loaded_example) no_options (RTarget example_target) [fortran_group]
     = ([], None)
  /\ compileCommandsIterator no_options (env_settled_with example_target) loaded_example
     = compileCommandsIterator no_options (env_settled_with without) loaded_example.
Proof.
  intros without.
  assert (Hskip : unsupported (this loaded_example) fortran_group)
    by (left; split; discriminate).
  pose proof (C9_unsupported_group_skipped
                (env_settled_with example_target) (env_settled_with without)
                loaded_example no_options
                (reply_dir +:+ "/target-app.json") example_target
                [] fortran_group [example_group]
                Hskip eq_refl (same_but_for_target _ _)
                (target_read_settled _) (target_read_settled _)) as H.
  split; [exact Hskip|]. split; [exact (proj1 H)|exact (proj2 (proj2 H))].
Defined.

Lemma C7_version_and_includes_from_path_witness :
  is_cl cl_exe = true
  /\ extractVersionFromCompilerPath cl_exe = "bin"
  /\ extractIncludesFromCompilerPath cl_exe
     = [ "C:/VS/VC/Tools/MSVC/14.29.30133/bin/include" ]
  /\ level_up (level_up (level_up cl_exe)) = "C:/VS/VC/Tools/MSVC/14.29.30133/bin"
  /\ level_up (level_up cl_exe) = "C:/VS/VC/Tools/MSVC/14.29.30133/bin/Hostx64"
  /\ info_by_convention cl_exe
     = {| ci_path := cl_exe;
          ci_version := "bin";
          ci_includes := [ "C:/VS/VC/Tools/MSVC/14.29.30133/bin/include" ] |}.
Proof.
  assert (H : is_cl cl_exe = true) by reflexivity.
  assert (Hnames : all_names (["C:"; "VS"; "VC"; "Tools"; "MSVC"; "14.29.30133"]
                              ++ ["bin"; "Hostx64"; "x64"; "cl.exe"]))
    by (repeat constructor).
  destruct (proj2 (proj2 (proj2 (proj2 (proj2
              (C7_version_and_includes_from_path cl_exe H)))))
              false ["C:"; "VS"; "VC"; "Tools"; "MSVC"; "14.29.30133"]
              "bin" "Hostx64" "x64" "cl.exe" Hnames eq_refl)
    as (_ & U2 & U3 & Hv & Hi & Hinfo).
  split; [exact H|].
  split; [exact Hv|]. split; [exact Hi|]. split; [exact U3|]. split; [exact U2|].
  exact Hinfo.
Defined.

Lemma C5_version_gate_witness :
  String.leb minimumVersion "3.13.6" = false
  /\ exists s' e,
       _loadReplyFiles api_dir (env_running "3.13.6") start = (s', Throw e)
       /\ error_kind e = Some ProtocolVersionError.
Proof.
  assert (Hindex : _getApiReplyIndex api_dir (env_running "3.13.6") start
                   = (fst (_getApiReplyIndex api_dir (env_running "3.13.6") start),
                      Return (RIndex {| version_string := "3.13.6";
                                        client_reply := None |})))
    by (vm_compute; reflexivity).
  assert (Hold : String.leb minimumVersion "3.13.6" = false) by reflexivity.
  split; [exact Hold|].
  exact (proj2 (proj2 (proj2 (proj2 (proj2 (proj2 C5_version_gate)))) _ _ _ _ _ Hindex)
               Hold).
Defined.

Lemma C8_mandatory_responses_witness :
  let env := env_settled ["cache"; "toolchains"] both_compilers in
  String.leb minimumVersion "3.20.0" = true
  /\ ~ In "codemodel" ["cache"; "toolchains"]
  /\ exists s' e, _loadReplyFiles api_dir env start = (s', Throw e)
                  /\ error_kind e = Some ReplyMissingError.
Proof.
  intros env.
  assert (Hindex : _getApiReplyIndex api_dir env start
                   = (fst (_getApiReplyIndex api_dir env start),
                      Return (new_index ["cache"; "toolchains"])))
    by (vm_compute; reflexivity).
  assert (Hgate : String.leb minimumVersion "3.20.0" = true) by reflexivity.
  assert (Habsent : ~ In "codemodel" ["cache"; "toolchains"])
    by (intros [H|[H|[]]]; discriminate H).
  split; [exact Hgate|]. split; [exact Habsent|].
  pose (s1 := fst (_getApiReplyIndex api_dir env start)).
  pose (loop := responses_loop (path_join [api_dir; "reply"])
                  (map (fun k => {| response_kind := k;
                                    response_jsonFile := k +:+ ".json" |})
                       ["cache"; "toolchains"])
                  no_flags env s1).
  assert (Hloop : loop = (fst loop, Return {| cacheLoaded := true;
                                              codemodelLoaded := false;
                                              toolchainLoaded := true |}))
    by (vm_compute; reflexivity).
  exists (fst loop).
  exact (proj2 (proj1 (proj2 (C8_mandatory_responses api_dir env start _ _ _
                                Hindex Hgate eq_refl)) Habsent) _ _ Hloop).
Defined.

(* ================================================================== *)
(** * Part III: further properties of the code                         *)
(* ================================================================== *)

(** ** Quoting: distinct tokens stay distinct *)

Lemma append_cancel_r (a b c : string) : a +:+ c = b +:+ c -> a = b.
Proof.
  revert b. induction a as [|x a IH]; intros [|y b] H.
  - reflexivity.
  - exfalso. apply (f_equal String.length) in H.
    simpl in H. rewrite length_append in H. lia.
  - exfalso. apply (f_equal String.length) in H.
    simpl in H. rewrite length_append in H. lia.
  - simpl in H. injection H as -> H. f_equal. now apply IH.
Qed.

(** X1.  [escapeArgument] is injective: two tokens with the same quoted
    form are the same token, whatever characters they hold. *)
Theorem escapeArgument_injective (s t : string) :
  escapeArgument s = escapeArgument t -> s = t.
Proof.
  rewrite !escapeArgument_unfold. intros H. injection H as H.
  rewrite <- !append_assoc in H. apply append_cancel_r in H.
  assert (Hrun : trailing_run s = trailing_run t).
  { apply (f_equal trailing_run) in H.
    rewrite !trailing_run_app_backslashes in H. lia. }
  rewrite Hrun in H. now apply append_cancel_r in H.
Qed.

Lemma escapeArgument_injective_witness :
  escapeArgument "C:\dir\" = escapeArgument ("C:\dir" +:+ str1 backslash)
  /\ "C:\dir\" = "C:\dir" +:+ str1 backslash.
Proof.
  assert (H : escapeArgument "C:\dir\" = escapeArgument ("C:\dir" +:+ str1 backslash))
    by reflexivity.
  split; [exact H|]. exact (escapeArgument_injective _ _ H).
Defined.

(** ** The compiler's path: where the version and the includes come from *)

(** X2.  For a compiler at [<dirs>/<v>/<d2>/<d1>/<cl>], absolute or
    relative, every segment a plain name: the version read off the path
    is the name [<v>] of the directory three levels above the binary, and
    the one default include directory is [<dirs>/<v>/include]. *)
Theorem compiler_path_layout (isAbs : bool) (dirs : list string) (v d2 d1 cl : string) :
  all_names (dirs ++ [v; d2; d1; cl]) ->
  extractVersionFromCompilerPath (path_of isAbs (dirs ++ [v; d2; d1; cl])) = v
  /\ extractIncludesFromCompilerPath (path_of isAbs (dirs ++ [v; d2; d1; cl]))
     = [ path_of isAbs (dirs ++ [v; "include"]) ].
Proof. apply layout_of_compiler_path. Qed.

Lemma compiler_path_layout_witness :
  all_names (["C:"; "VS"; "VC"; "Tools"; "MSVC"; "14.29.30133"]
             ++ ["bin"; "Hostx64"; "x64"; "cl.exe"])
  /\ extractVersionFromCompilerPath cl_exe = "bin"
  /\ extractIncludesFromCompilerPath cl_exe
     = ["C:/VS/VC/Tools/MSVC/14.29.30133/bin/include"].
Proof.
  assert (H : all_names (["C:"; "VS"; "VC"; "Tools"; "MSVC"; "14.29.30133"]
                         ++ ["bin"; "Hostx64"; "x64"; "cl.exe"]))
    by (repeat constructor).
  split; [exact H|].
  exact (compiler_path_layout false ["C:"; "VS"; "VC"; "Tools"; "MSVC"; "14.29.30133"]
                              "bin" "Hostx64" "x64" "cl.exe" H).
Defined.

(** X3.  For a compiler given by its bare name, such as [cl]: the
    version read off the path is [..] and the include directory is
    [../../include], relative to the working directory. *)
Theorem compiler_bare_name (p : string) :
  is_name p = true ->
  extractVersionFromCompilerPath p = ".."
  /\ extractIncludesFromCompilerPath p = ["../../include"].
Proof.
  intros Hp. destruct (is_name_spec _ Hp) as (Hne & _ & _ & Hfree).
  assert (Hstack : path_stack p = [p]).
  { unfold path_stack. rewrite (isAbsolute_slash_free p Hfree), (segments_of_name p Hfree).
    unfold normalize_segments. cbn [fold_left]. now apply normalize_step_name. }
  unfold extractVersionFromCompilerPath, extractIncludesFromCompilerPath.
  rewrite path_normalize_join_two by (assumption || discriminate).
  rewrite !path_join_canon by (assumption || discriminate).
  rewrite Hstack, (isAbsolute_slash_free p Hfree).
  change (segments "../../..") with [".."; ".."; ".."].
  change (segments "../../../include") with [".."; ".."; ".."; "include"].
  unfold normalize_segments. cbn [fold_left negb].
  rewrite normalize_step_up by assumption.
  split; reflexivity.
Qed.

Lemma compiler_bare_name_witness :
  is_name "cl" = true
  /\ extractVersionFromCompilerPath "cl" = ".."
  /\ extractIncludesFromCompilerPath "cl" = ["../../include"].
Proof.
  assert (H : is_name "cl" = true) by reflexivity.
  split; [exact H|]. exact (compiler_bare_name "cl" H).
Defined.

(** ** The search for an executable *)

Lemma String_split_not_nil c s : String_split c s <> [].
Proof.
  destruct s as [|d s]; simpl; [discriminate|].
  destruct (Ascii.eqb d c); [discriminate|]. destruct (String_split c s); discriminate.
Qed.

Lemma String_split_app c a b :
  String_split c (a +:+ String c b) = String_split c a ++ String_split c b.
Proof.
  induction a as [|d a IH]; simpl.
  - now rewrite Ascii.eqb_refl.
  - rewrite IH. destruct (Ascii.eqb d c); [reflexivity|].
    destruct (String_split c a) eqn:Ha; [now apply String_split_not_nil in Ha|reflexivity].
Qed.

Lemma String_split_whole c s : has_char c s = false -> String_split c s = [s].
Proof.
  induction s as [|d s IH]; [reflexivity|].
  simpl. intros [Hd Hs]%orb_false_iff. now rewrite Hd, IH.
Qed.

Lemma findExecutable_loop_stable env present executable dirs s :
  stable_files env present ->
  snd (findExecutable_loop executable dirs env s)
  = match List.find present (map (fun pathDir => path_join [pathDir; executable]) dirs) with
    | Some p => Return p
    | None => Throw (Error (executable +:+ " is not accessible on the PATH"))
    end
  /\ this (fst (findExecutable_loop executable dirs env s)) = this s.
Proof.
  intros Hstable. revert s. induction dirs as [|pathDir rest IH]; intros s.
  - split; reflexivity.
  - cbn [findExecutable_loop map List.find].
    unfold bind, existsSync, perform. rewrite Hstable.
    destruct (present (path_join [pathDir; executable])); [split; reflexivity|].
    match goal with |- context [findExecutable_loop _ _ _ ?s1] =>
      destruct (IH s1) as [Hout Hthis] end.
    split; [exact Hout|exact Hthis].
Qed.

(** X4.  In a world whose files do not come and go,
    [findExecutableOnPath] returns the first of the candidate paths
    [<dir>/<executable>] that is there, for [<dir>] running through the
    working directory and then the entries of [PATH] in order; it throws
    its error exactly when none is there, and it leaves the object as it
    is. *)
Theorem findExecutableOnPath_first_present env present executable s :
  stable_files env present ->
  snd (findExecutableOnPath executable env s)
  = match List.find present (candidates executable env) with
    | Some p => Return p
    | None => Throw (Error (executable +:+ " is not accessible on the PATH"))
    end
  /\ this (fst (findExecutableOnPath executable env s)) = this s.
Proof.
  intros Hstable. unfold findExecutableOnPath, candidates, search_dirs.
  now apply findExecutable_loop_stable.
Qed.

Lemma stable_files_disk d cwd PATH :
  stable_files (disk_env d d cwd PATH) (fs_existsSync (disk_env d d cwd PATH) []).
Proof.
  intros h p. unfold disk_env, disk_at. cbn [fs_existsSync].
  now destruct (spawned h), (spawned []).
Qed.

Lemma findExecutableOnPath_first_present_witness :
  let env := env_settled all_kinds both_compilers in
  stable_files env (fs_existsSync env [])
  /\ snd (findExecutableOnPath "cmake.exe" env start) = Return "/opt/cmake/bin/cmake.exe".
Proof.
  intros env.
  assert (H : stable_files env (fs_existsSync env [])) by apply stable_files_disk.
  split; [exact H|].
  exact (proj1 (findExecutableOnPath_first_present env _ "cmake.exe" start H)).
Defined.

(** X5.  The working directory is searched before [PATH]: when the
    executable is there in the working directory (whose name holds no
    semicolon), [findExecutableOnPath] returns that path after this one
    look, whatever [PATH] holds. *)
Theorem findExecutableOnPath_cwd_first env executable s :
  has_char ";" (process_cwd env) = false ->
  fs_existsSync env (done s) (path_join [process_cwd env; executable]) = true ->
  findExecutableOnPath executable env s
  = ({| this := this s;
        done := done s ++ [EvExistsSync (path_join [process_cwd env; executable])] |},
     Return (path_join [process_cwd env; executable])).
Proof.
  intros Hcwd Hthere. unfold findExecutableOnPath.
  change (process_cwd env +:+ ";" +:+ process_env_PATH env)
    with (process_cwd env +:+ String ";" (process_env_PATH env)).
  rewrite String_split_app, (String_split_whole _ _ Hcwd).
  cbn [app findExecutable_loop]. unfold bind, existsSync, perform.
  now rewrite Hthere.
Qed.

Lemma findExecutableOnPath_cwd_first_witness :
  let env := disk_env toolset_disk toolset_disk "/VS/bin/HostX64/x64" "/usr/bin" in
  has_char ";" (process_cwd env) = false
  /\ fs_existsSync env (done start) (path_join [process_cwd env; "EspXEngine.dll"]) = true
  /\ snd (findExecutableOnPath "EspXEngine.dll" env start)
     = Return "/VS/bin/HostX64/x64/EspXEngine.dll".
Proof.
  intros env.
  assert (H1 : has_char ";" (process_cwd env) = false) by reflexivity.
  assert (H2 : fs_existsSync env (done start)
                 (path_join [process_cwd env; "EspXEngine.dll"]) = true) by reflexivity.
  split; [exact H1|]. split; [exact H2|].
  exact (f_equal snd (findExecutableOnPath_cwd_first env "EspXEngine.dll" start H1 H2)).
Defined.

(** ** The choice of the index file *)

Lemma ascii_compare_Lt_trans x y z :
  Ascii.compare x y = Lt -> Ascii.compare y z = Lt -> Ascii.compare x z = Lt.
Proof.
  unfold Ascii.compare. rewrite !N.compare_lt_iff. lia.
Qed.

Lemma string_compare_refl s : String.compare s s = Eq.
Proof. induction s as [|c s IH]; [reflexivity|]. simpl. now rewrite ascii_compare_refl. Qed.

Lemma string_compare_Lt_trans a b c :
  String.compare a b = Lt -> String.compare b c = Lt -> String.compare a c = Lt.
Proof.
  revert b c. induction a as [|x a IH]; intros [|y b] [|z c]; simpl; try congruence.
  destruct (Ascii.compare x y) eqn:Hxy; try discriminate.
  - apply Ascii.compare_eq_iff in Hxy. subst y.
    destruct (Ascii.compare x z); try congruence. apply IH.
  - intros _. destruct (Ascii.compare y z) eqn:Hyz; try discriminate.
    + apply Ascii.compare_eq_iff in Hyz. subst z. now rewrite Hxy.
    + intros _. now rewrite (ascii_compare_Lt_trans _ _ _ Hxy Hyz).
Qed.

Lemma string_leb_refl s : String.leb s s = true.
Proof. unfold String.leb. now rewrite string_compare_refl. Qed.

Lemma string_leb_trans a b c :
  String.leb a b = true -> String.leb b c = true -> String.leb a c = true.
Proof.
  unfold String.leb.
  destruct (String.compare a b) eqn:Hab; try discriminate;
    destruct (String.compare b c) eqn:Hbc; try discriminate; intros _ _.
  - apply String.compare_eq_iff in Hab. subst b. now rewrite Hbc.
  - apply String.compare_eq_iff in Hab. subst b. now rewrite Hbc.
  - apply String.compare_eq_iff in Hbc. subst c. now rewrite Hab.
  - now rewrite (string_compare_Lt_trans _ _ _ Hab Hbc).
Qed.

Lemma string_ltb_leb a b : String.ltb a b = true -> String.leb a b = true.
Proof. unfold String.ltb, String.leb. now destruct (String.compare a b). Qed.

Lemma string_not_ltb_leb a b : String.ltb a b = false -> String.leb b a = true.
Proof.
  unfold String.ltb, String.leb. rewrite (String.compare_antisym a b).
  now destruct (String.compare b a).
Qed.

Lemma string_leb_empty s : String.leb EmptyString s = true.
Proof. now destruct s. Qed.

Lemma index_step_selected seen choice x :
  selected seen choice -> selected (seen ++ [x]) (index_step choice x).
Proof.
  intros Hsel. unfold index_step. fold (is_index x).
  destruct (is_index x) eqn:Hx.
  - destruct choice as [cur|]; cbn [selected] in *.
    + destruct Hsel as (Hin & Hidx & Hmax).
      destruct (String.eqb cur EmptyString || js_string_lt cur x) eqn:Hc; cbn [selected].
      * assert (Hcx : String.leb cur x = true).
        { apply orb_true_iff in Hc as [Hc|Hc].
          - apply String.eqb_eq in Hc. subst cur. apply string_leb_empty.
          - rewrite js_string_lt_lexicographic in Hc. now apply string_ltb_leb. }
        split; [apply in_app_iff; right; now left|]. split; [exact Hx|].
        intros g [Hg|[<-|[]]]%in_app_iff Hgi; [|apply string_leb_refl].
        eapply string_leb_trans; [now apply Hmax|exact Hcx].
      * apply orb_false_iff in Hc as [_ Hc]. rewrite js_string_lt_lexicographic in Hc.
        split; [apply in_app_iff; now left|]. split; [exact Hidx|].
        intros g [Hg|[<-|[]]]%in_app_iff Hgi; [now apply Hmax|].
        now apply string_not_ltb_leb.
    + split; [apply in_app_iff; right; now left|]. split; [exact Hx|].
      intros g [Hg|[<-|[]]]%in_app_iff Hgi; [|apply string_leb_refl].
      rewrite (Hsel g Hg) in Hgi. discriminate.
  - destruct choice as [cur|]; cbn [selected] in *.
    + destruct Hsel as (Hin & Hidx & Hmax).
      split; [apply in_app_iff; now left|]. split; [exact Hidx|].
      intros g [Hg|[<-|[]]]%in_app_iff Hgi; [now apply Hmax|congruence].
    + intros g [Hg|[<-|[]]]%in_app_iff; [now apply Hsel|exact Hx].
Qed.

Lemma index_fold_selected names seen choice :
  selected seen choice -> selected (seen ++ names) (fold_left index_step names choice).
Proof.
  revert seen choice. induction names as [|x names IH]; intros seen choice Hsel.
  - now rewrite app_nil_r.
  - cbn [fold_left]. replace (seen ++ x :: names) with ((seen ++ [x]) ++ names)
      by now rewrite <- app_assoc.
    now apply IH, index_step_selected.
Qed.

(** X6.  The loop of [_getApiReplyIndex] over the entries of the reply
    directory ends with the greatest, in the order of [<] on strings, of
    the entries whose basename starts with [index-], and with nothing
    exactly when there is no such entry. *)
Theorem index_selection (names : list string) :
  selected names (fold_left index_step names None).
Proof.
  apply (index_fold_selected names [] None). intros g [].
Qed.

Lemma is_index_not_empty f : is_index f = true -> f <> EmptyString.
Proof. intros H ->. discriminate H. Qed.

(** X7.  [_getApiReplyIndex] looks the chosen index file up under the
    bare name that [readdirSync] gave, not under the reply directory: with
    the reply directory there and listing [names], what it does next is
    [_parseReplyFile] on the chosen entry itself; so an index file that is
    in the reply directory and not in the working directory is reported
    as not found. *)
Theorem index_read_by_bare_name apiDir env s names f :
  fs_existsSync env (done s) (path_join [apiDir; "reply"]) = true ->
  fs_readdirSync env (done s ++ [EvExistsSync (path_join [apiDir; "reply"])])
                 (path_join [apiDir; "reply"]) = Some names ->
  fold_left index_step names None = Some f ->
  let listed := {| this := this s;
                   done := (done s ++ [EvExistsSync (path_join [apiDir; "reply"])])
                           ++ [EvReaddirSync (path_join [apiDir; "reply"])] |} in
  In f names
  /\ _getApiReplyIndex apiDir env s = _parseReplyFile f env listed
  /\ (fs_existsSync env (done listed) f = false ->
      snd (_getApiReplyIndex apiDir env s)
      = Throw (Error ("Failed to find CMake API reply file: " +:+ f))).
Proof.
  intros Hdir Hlist Hfold listed.
  assert (Hsel : selected ([] ++ names) (fold_left index_step names None))
    by (apply index_fold_selected; intros g []).
  cbn [app] in Hsel. rewrite Hfold in Hsel.
  destruct Hsel as (Hin & Hidx & _).
  assert (Hcall : _getApiReplyIndex apiDir env s = _parseReplyFile f env listed).
  { unfold _getApiReplyIndex, bind, existsSync, readdirSync, perform, bind.
    rewrite Hdir. cbn. rewrite Hlist. cbn. rewrite Hfold.
    apply is_index_not_empty, String.eqb_neq in Hidx. now rewrite Hidx. }
  split; [exact Hin|]. split; [exact Hcall|].
  intros Hmissing. rewrite Hcall. unfold _parseReplyFile.
  apply is_index_not_empty, String.eqb_neq in Hidx. rewrite Hidx.
  unfold bind, existsSync, perform. now rewrite Hmissing.
Qed.

Lemma index_read_by_bare_name_witness :
  fs_existsSync nested_env [] reply_dir = true
  /\ fs_readdirSync nested_env [EvExistsSync reply_dir] reply_dir
     = Some ["cache-v2.json"; "index-2021-06-01T00-00-00-0000.json"]
  /\ fs_existsSync nested_env [] (reply_dir +:+ "/index-2021-06-01T00-00-00-0000.json")
     = true
  /\ snd (_getApiReplyIndex api_dir nested_env start)
     = Throw (Error ("Failed to find CMake API reply file: "
                     +:+ "index-2021-06-01T00-00-00-0000.json")).
Proof.
  assert (H1 : fs_existsSync nested_env (done start) (path_join [api_dir; "reply"]) = true)
    by reflexivity.
  assert (H2 : fs_readdirSync nested_env
                 (done start ++ [EvExistsSync (path_join [api_dir; "reply"])])
                 (path_join [api_dir; "reply"])
               = Some ["cache-v2.json"; "index-2021-06-01T00-00-00-0000.json"])
    by reflexivity.
  split; [exact H1|]. split; [exact H2|]. split; [reflexivity|].
  exact (proj2 (proj2 (index_read_by_bare_name api_dir nested_env start _
                         "index-2021-06-01T00-00-00-0000.json" H1 H2 eq_refl))
               eq_refl).
Defined.

(** ** The cache reply: later entries win *)

Lemma cache_set_lookup name value api key :
  key <> "__proto__" ->
  cache (cache_set name value api) !! key
  = if String.eqb name key then Some value else cache api !! key.
Proof.
  intros Hkey. unfold cache_set. cbn [cache].
  destruct (String.eqb_spec name key) as [->|Hne].
  - apply String.eqb_neq in Hkey. rewrite Hkey. apply lookup_insert_eq.
  - destruct (String.eqb name "__proto__"); [reflexivity|]. now apply lookup_insert_ne.
Qed.

Lemma cache_fold_lookup entries api key :
  key <> "__proto__" ->
  cache (fold_left (fun api entry => cache_set (entry_name entry) (entry_value entry) api)
                   entries api) !! key
  = match last_value key entries with
    | Some value => Some value
    | None => cache api !! key
    end.
Proof.
  intros Hkey. induction entries as [|entry entries IH] using rev_ind; [reflexivity|].
  rewrite fold_left_app. cbn [fold_left]. rewrite cache_set_lookup by assumption.
  unfold last_value in *. rewrite rev_app_distr. cbn [rev app List.find].
  destruct (String.eqb (entry_name entry) key); [reflexivity|exact IH].
Qed.

(** X8.  After [_loadCache] has read a reply, a name (other than
    [__proto__]) is bound in [this.cache] to the value of the last entry
    of the reply with that name, and a name the reply does not list keeps
    the value it had: the reply is merged into the cache, later entries
    winning. *)
Theorem _loadCache_last_entry_wins cacheJsonFile env s s1 data key :
  _parseReplyFile cacheJsonFile env s = (s1, Return data) ->
  key <> "__proto__" ->
  snd (_loadCache cacheJsonFile env s) = Return tt
  /\ cache (this (fst (_loadCache cacheJsonFile env s))) !! key
     = match last_value key (entries_of data) with
       | Some value => Some value
       | None => cache (this s) !! key
       end.
Proof.
  intros Hread Hkey. unfold _loadCache.
  rewrite (bind_Return _ _ _ _ _ _ Hread). unfold modify_this. cbn [fst snd this].
  split; [reflexivity|]. rewrite cache_fold_lookup by assumption.
  now rewrite (_parseReplyFile_this _ _ _ _ _ Hread).
Qed.

Lemma _loadCache_last_entry_wins_witness :
  let env := env_settled all_kinds
               [ {| entry_name := "CMAKE_C_COMPILER"; entry_value := "gcc" |};
                 {| entry_name := "CMAKE_BUILD_TYPE"; entry_value := "Release" |};
                 {| entry_name := "CMAKE_C_COMPILER"; entry_value := cl_exe |} ] in
  "CMAKE_C_COMPILER" <> "__proto__"
  /\ cache (this (fst (_loadCache (reply_dir +:+ "/cache.json") env start)))
       !! "CMAKE_C_COMPILER" = Some cl_exe.
Proof.
  intros env.
  assert (Hread : _parseReplyFile (reply_dir +:+ "/cache.json") env start
                  = (fst (_parseReplyFile (reply_dir +:+ "/cache.json") env start),
                     Return (RCache
                       [ {| entry_name := "CMAKE_C_COMPILER"; entry_value := "gcc" |};
                         {| entry_name := "CMAKE_BUILD_TYPE"; entry_value := "Release" |};
                         {| entry_name := "CMAKE_C_COMPILER"; entry_value := cl_exe |} ])))
    by (vm_compute; reflexivity).
  assert (Hkey : "CMAKE_C_COMPILER" <> "__proto__") by discriminate.
  split; [exact Hkey|].
  exact (proj2 (_loadCache_last_entry_wins _ env start _ _ "CMAKE_C_COMPILER" Hread Hkey)).
Defined.

(** ** The toolchains reply *)

Lemma toolchain_fold_C toolchains api :
  cCompilerInfo (fold_left toolchain_step toolchains api)
  = match last_MSVC "C" toolchains with
    | Some info => Some info
    | None => cCompilerInfo api
    end.
Proof.
  induction toolchains as [|toolchain toolchains IH] using rev_ind; [reflexivity|].
  rewrite fold_left_app. cbn [fold_left].
  unfold last_MSVC in *. rewrite rev_app_distr. cbn [rev app List.find].
  unfold toolchain_step.
  destruct (String.eqb (toolchain_language toolchain) "C"
            && String.eqb (compiler_id toolchain) "MSVC"); [reflexivity|].
  destruct (String.eqb (toolchain_language toolchain) "CXX"
            && String.eqb (compiler_id toolchain) "MSVC"); exact IH.
Qed.

Lemma toolchain_fold_CXX toolchains api :
  cxxCompilerInfo (fold_left toolchain_step toolchains api)
  = match last_MSVC "CXX" toolchains with
    | Some info => Some info
    | None => cxxCompilerInfo api
    end.
Proof.
  induction toolchains as [|toolchain toolchains IH] using rev_ind; [reflexivity|].
  rewrite fold_left_app. cbn [fold_left].
  unfold last_MSVC in *. rewrite rev_app_distr. cbn [rev app List.find].
  unfold toolchain_step.
  destruct (String.eqb_spec (toolchain_language toolchain) "C") as [HC|HC].
  - rewrite HC. cbn [String.eqb Ascii.eqb Bool.eqb andb].
    destruct (String.eqb (compiler_id toolchain) "MSVC"); exact IH.
  - cbn [andb].
    destruct (String.eqb (toolchain_language toolchain) "CXX"
              && String.eqb (compiler_id toolchain) "MSVC"); [reflexivity|exact IH].
Qed.

(** X9.  After [_loadToolchains] has read a reply, the C compiler of the
    object is the last toolchain of the reply with language [C] and
    compiler id [MSVC], the one it had before when the reply has none, and
    likewise for [CXX]; the call throws its error exactly when the object
    is then left without either, so a reply that lists no MSVC toolchain
    is refused by an object that had none. *)
Theorem _loadToolchains_last_MSVC toolsetJsonFile env s s1 data :
  _parseReplyFile toolsetJsonFile env s = (s1, Return data) ->
  let c := match last_MSVC "C" (toolchains_of data) with
           | Some info => Some info
           | None => cCompilerInfo (this s)
           end in
  let cxx := match last_MSVC "CXX" (toolchains_of data) with
             | Some info => Some info
             | None => cxxCompilerInfo (this s)
             end in
  cCompilerInfo (this (fst (_loadToolchains toolsetJsonFile env s))) = c
  /\ cxxCompilerInfo (this (fst (_loadToolchains toolsetJsonFile env s))) = cxx
  /\ snd (_loadToolchains toolsetJsonFile env s)
     = match c, cxx with
       | None, None => Throw (Error "Action requires use of MSVC for either/both C or C++.")
       | _, _ => Return tt
       end.
Proof.
  intros Hread c cxx. unfold _loadToolchains.
  rewrite (bind_Return _ _ _ _ _ _ Hread).
  unfold bind, modify_this, require_MSVC, bind, get_this. cbn [this].
  set (api' := fold_left toolchain_step (toolchains_of data) (this s1)).
  assert (HC : cCompilerInfo api' = c).
  { subst api' c. now rewrite toolchain_fold_C, (_parseReplyFile_this _ _ _ _ _ Hread). }
  assert (HCXX : cxxCompilerInfo api' = cxx).
  { subst api' cxx. now rewrite toolchain_fold_CXX, (_parseReplyFile_this _ _ _ _ _ Hread). }
  unfold no_compiler. rewrite HC, HCXX. clearbody c cxx.
  destruct c, cxx; cbn [fst snd this]; auto.
Qed.

Lemma _loadToolchains_last_MSVC_witness :
  snd (_parseReplyFile "/reply/toolchains-v1.json" gnu_env start)
  = Return (RToolchains gnu_toolchains)
  /\ snd (_loadToolchains "/reply/toolchains-v1.json" gnu_env start)
     = Throw (Error "Action requires use of MSVC for either/both C or C++.").
Proof.
  assert (Hread : _parseReplyFile "/reply/toolchains-v1.json" gnu_env start
                  = (fst (_parseReplyFile "/reply/toolchains-v1.json" gnu_env start),
                     Return (RToolchains gnu_toolchains)))
    by (vm_compute; reflexivity).
  split; [exact (f_equal snd Hread)|].
  exact (proj2 (proj2 (_loadToolchains_last_MSVC _ gnu_env start _ _ Hread))).
Defined.

(** ** The fallback on the cache *)

Lemma substring_whole s : substring 0 (String.length s) s = s.
Proof. induction s as [|c s IH]; [reflexivity|]. simpl. now rewrite IH. Qed.

Lemma substring_split k s :
  k <= String.length s ->
  s = substring 0 k s +:+ substring k (String.length s - k) s.
Proof.
  revert k. induction s as [|c s IH]; intros [|k] Hk; simpl in *; try lia.
  - reflexivity.
  - now rewrite substring_whole.
  - f_equal. apply IH. lia.
Qed.

Lemma substring_suffix a b :
  substring (String.length a) (String.length b) (a +:+ b) = b.
Proof. induction a as [|c a IH]; [apply substring_whole|exact IH]. Qed.

Lemma endsWith_suffix s suffix :
  endsWith s suffix = true <-> exists q, s = q +:+ suffix.
Proof.
  unfold endsWith. split.
  - intros [Hlen Heq]%andb_true_iff. apply Nat.leb_le in Hlen.
    apply String.eqb_eq in Heq.
    exists (substring 0 (String.length s - String.length suffix) s).
    pose proof (substring_split (String.length s - String.length suffix) s) as Hs.
    replace (String.length s - (String.length s - String.length suffix))
      with (String.length suffix) in Hs by lia.
    rewrite Heq in Hs. apply Hs. lia.
  - intros [q ->]. rewrite length_append.
    replace (String.length q + String.length suffix - String.length suffix)
      with (String.length q) by lia.
    rewrite substring_suffix, String.eqb_refl, andb_true_r. apply Nat.leb_le. lia.
Qed.

(** X10.  The fallback takes a cache value for an MSVC compiler exactly
    when it ends in [cl.exe] or in [cl]; nothing else of the value is
    looked at, so [clang-cl.exe] and [clang-cl] in any directory are
    taken for MSVC as well. *)
Theorem is_cl_suffix :
  (forall p, is_cl p = true <-> exists q, p = q +:+ "cl.exe" \/ p = q +:+ "cl")
  /\ (forall dir, is_cl (dir +:+ "clang-cl.exe") = true
                  /\ is_cl (dir +:+ "clang-cl") = true).
Proof.
  assert (Hiff : forall p, is_cl p = true
                           <-> exists q, p = q +:+ "cl.exe" \/ p = q +:+ "cl").
  { intros p. unfold is_cl. rewrite orb_true_iff, !endsWith_suffix. split.
    - intros [[q ->]|[q ->]]; eauto.
    - intros [q [-> | ->]]; eauto. }
  split; [exact Hiff|]. intros dir. split; apply Hiff.
  - exists (dir +:+ "clang-"). left. now rewrite append_assoc.
  - exists (dir +:+ "clang-"). right. now rewrite append_assoc.
Qed.

Lemma _loadToolchainsFromCache_no_CXX env s cPath :
  cache (this s) !! "CMAKE_C_COMPILER" = Some cPath ->
  cache (this s) !! "CMAKE_CXX_COMPILER" = None ->
  snd (_loadToolchainsFromCache env s) = Throw TypeError.
Proof.
  intros Hc Hcxx. unfold _loadToolchainsFromCache, bind, get_this. rewrite Hc.
  destruct (is_cl cPath); cbn; now rewrite Hcxx.
Qed.

(** X11.  The cache-based fallback returns exactly when the cache
    defines both [CMAKE_C_COMPILER] and [CMAKE_CXX_COMPILER] and either
    one of the two values is taken for MSVC or the object already held a
    compiler; with either variable missing it fails, whatever the other
    one is. *)
Theorem fallback_returns_iff env s :
  (exists s', _loadToolchainsFromCache env s = (s', Return tt))
  <-> exists cPath cxxPath,
        cache (this s) !! "CMAKE_C_COMPILER" = Some cPath
        /\ cache (this s) !! "CMAKE_CXX_COMPILER" = Some cxxPath
        /\ is_cl cPath || is_cl cxxPath || negb (no_compiler (this s)) = true.
Proof.
  destruct (cache (this s) !! "CMAKE_C_COMPILER") as [cPath|] eqn:Hc.
  2:{ rewrite (_loadToolchainsFromCache_no_C env s Hc). split.
      - intros [s' H]. discriminate H.
      - intros (? & ? & H & _). discriminate H. }
  destruct (cache (this s) !! "CMAKE_CXX_COMPILER") as [cxxPath|] eqn:Hcxx.
  2:{ pose proof (_loadToolchainsFromCache_no_CXX env s cPath Hc Hcxx) as Hthrow. split.
      - intros [s' H]. rewrite H in Hthrow. discriminate Hthrow.
      - intros (? & ? & _ & H & _). discriminate H. }
  rewrite (_loadToolchainsFromCache_both env s cPath cxxPath Hc Hcxx). cbv zeta.
  assert (Hno :
    no_compiler
      (if is_cl cxxPath
       then set_cxxCompilerInfo (info_by_convention cxxPath)
              (if is_cl cPath then set_cCompilerInfo (info_by_convention cPath) (this s)
               else this s)
       else if is_cl cPath then set_cCompilerInfo (info_by_convention cPath) (this s)
            else this s)
    = negb (is_cl cPath || is_cl cxxPath || negb (no_compiler (this s)))).
  { unfold no_compiler.
    destruct (is_cl cPath), (is_cl cxxPath); cbn;
      destruct (cCompilerInfo (this s)), (cxxCompilerInfo (this s)); reflexivity. }
  rewrite Hno.
  destruct (is_cl cPath || is_cl cxxPath || negb (no_compiler (this s))) eqn:Hb;
    cbn [negb]; split.
  - intros _. exists cPath, cxxPath. repeat split. exact Hb.
  - intros _. eauto.
  - intros [s' H]. discriminate H.
  - intros (c & cxx & [= <-] & [= <-] & H). congruence.
Qed.

(** ** Responses of other kinds *)

Lemma bind_ext {A B} (m : M A) (k k' : A -> M B) env s :
  (forall a s1, k a env s1 = k' a env s1) -> bind m k env s = bind m k' env s.
Proof. intros H. unfold bind. destruct (m env s) as [s1 [a|e]]; [apply H|reflexivity]. Qed.

Lemma responses_loop_known replyDir responses flags env s :
  responses_loop replyDir responses flags env s
  = responses_loop replyDir (List.filter known_kind responses) flags env s.
Proof.
  revert flags s. induction responses as [|response rest IH]; intros flags s; [reflexivity|].
  cbn [List.filter]. destruct (known_kind response) eqn:Hknown.
  - cbn [responses_loop]. apply bind_ext. intros flags1 s1. apply IH.
  - cbn [responses_loop]. unfold known_kind in Hknown.
    apply orb_false_iff in Hknown as [[Hc Hm]%orb_false_iff Ht].
    rewrite Hc, Hm, Ht. unfold bind at 1, ret at 1. apply IH.
Qed.

(** X12.  Responses of the index whose kind is none of [cache],
    [codemodel] and [toolchains] are passed over: what the loader does
    with the responses of an index, in any world and from any state, is
    what it does with the responses of the three kinds alone. *)
Theorem unknown_responses_ignored apiDir version responses env s :
  load_responses apiDir
    (RIndex {| version_string := version; client_reply := Some responses |}) env s
  = load_responses apiDir
      (RIndex {| version_string := version;
                 client_reply := Some (List.filter known_kind responses) |}) env s.
Proof.
  unfold load_responses. cbn [client_reply]. unfold bind.
  now rewrite responses_loop_known.
Qed.

(** ** What a load leaves in the object *)

Section Keeps.
Variable I : CMakeApi -> Prop.

Lemma keeps_ret {A} (a : A) : keeps I (ret a).
Proof. now intros env s s' o [= <- _]. Qed.

Lemma keeps_throw {A} e : keeps I (@throw A e).
Proof. now intros env s s' o [= <- _]. Qed.

Lemma keeps_get_this : keeps I get_this.
Proof. now intros env s s' o [= <- _]. Qed.

Lemma keeps_perform {A} (ask : Env -> history -> A) ev : keeps I (perform ask ev).
Proof. now intros env s s' o [= <- _]. Qed.

Lemma keeps_modify_this f : (forall api, I api -> I (f api)) -> keeps I (modify_this f).
Proof. intros Hf env s s' o [= <- _]. exact (Hf _). Qed.

Lemma keeps_bind {A B} (m : M A) (k : A -> M B) :
  keeps I m -> (forall a, keeps I (k a)) -> keeps I (bind m k).
Proof.
  intros Hm Hk env s s' o H HI.
  apply bind_inv in H as [(e & H & _)|(s1 & a & H1 & H2)].
  - eapply Hm; eassumption.
  - eapply Hk; [eassumption|]. eapply Hm; eassumption.
Qed.

End Keeps.

Ltac keeps_step :=
  first
    [ apply keeps_ret
    | apply keeps_throw
    | apply keeps_get_this
    | apply keeps_perform
    | apply keeps_bind; [|intros ?]
    | match goal with
      | |- keeps _ (if ?c then _ else _) => destruct c
      | |- keeps _ (match ?x with _ => _ end) => destruct x
      end ].

(** A property of the object that none of the assignments of the loading
    methods undoes is kept by each of them. *)
Section KeptByLoading.
Variable I : CMakeApi -> Prop.
Hypothesis I_cache_set : forall name value api, I api -> I (cache_set name value api).
Hypothesis I_push : forall p api, I api -> I (push_targetFilepath p api).
Hypothesis I_sourceRoot : forall root api, I api -> I (set_sourceRoot root api).
Hypothesis I_cCompilerInfo : forall info api, I api -> I (set_cCompilerInfo info api).
Hypothesis I_cxxCompilerInfo : forall info api, I api -> I (set_cxxCompilerInfo info api).

Lemma keeps_parseReplyFile f : keeps I (_parseReplyFile f).
Proof. unfold _parseReplyFile, existsSync, readJson. repeat keeps_step. Qed.

Lemma keeps_existsSync p : keeps I (existsSync p).
Proof. unfold existsSync. keeps_step. Qed.

Lemma keeps_readdirSync p : keeps I (readdirSync p).
Proof. unfold readdirSync. repeat keeps_step. Qed.

Lemma keeps_loadCache f : keeps I (_loadCache f).
Proof.
  unfold _loadCache. apply keeps_bind; [apply keeps_parseReplyFile|]. intros data.
  apply keeps_modify_this. induction (entries_of data) as [|entry entries IH]; intros api HI.
  - exact HI.
  - cbn [fold_left]. apply IH, I_cache_set, HI.
Qed.

Lemma keeps_loadCodemodel d f : keeps I (_loadCodemodel d f).
Proof.
  unfold _loadCodemodel. apply keeps_bind; [apply keeps_parseReplyFile|]. intros data.
  destruct data; try apply keeps_throw.
  apply keeps_bind; [|intros ?; apply keeps_modify_this; intros api; apply I_sourceRoot].
  apply keeps_modify_this.
  induction (match configurations c with first :: _ => first | [] => [] end)
    as [|jsonFile targets IH]; intros api HI.
  - exact HI.
  - cbn [fold_left]. apply IH, I_push, HI.
Qed.

Lemma keeps_require_MSVC : keeps I require_MSVC.
Proof. unfold require_MSVC. repeat keeps_step. Qed.

Lemma keeps_toolchain_step toolchain api : I api -> I (toolchain_step api toolchain).
Proof.
  intros HI. unfold toolchain_step.
  destruct (_ && _); [now apply I_cCompilerInfo|].
  destruct (_ && _); [now apply I_cxxCompilerInfo|exact HI].
Qed.

Lemma keeps_loadToolchains f : keeps I (_loadToolchains f).
Proof.
  unfold _loadToolchains. apply keeps_bind; [apply keeps_parseReplyFile|]. intros data.
  apply keeps_bind; [|intros ?; apply keeps_require_MSVC].
  apply keeps_modify_this.
  induction (toolchains_of data) as [|toolchain toolchains IH]; intros api HI.
  - exact HI.
  - cbn [fold_left]. apply IH, keeps_toolchain_step, HI.
Qed.

Lemma keeps_loadToolchainsFromCache : keeps I _loadToolchainsFromCache.
Proof.
  unfold _loadToolchainsFromCache.
  repeat first [ apply keeps_require_MSVC
               | apply keeps_modify_this; intros api;
                 first [apply I_cCompilerInfo|apply I_cxxCompilerInfo]
               | keeps_step ].
Qed.

Lemma keeps_getApiReplyIndex apiDir : keeps I (_getApiReplyIndex apiDir).
Proof.
  unfold _getApiReplyIndex.
  repeat first [ apply keeps_existsSync | apply keeps_readdirSync
               | apply keeps_parseReplyFile | keeps_step ].
Qed.

Lemma keeps_findExecutableOnPath executable : keeps I (findExecutableOnPath executable).
Proof.
  intros env s s' o. unfold findExecutableOnPath.
  generalize (String_split ";" (process_cwd env +:+ ";" +:+ process_env_PATH env)).
  intros dirs. revert s. induction dirs as [|pathDir rest IH]; intros s;
    cbn [findExecutable_loop].
  - apply keeps_throw.
  - intros H HI. apply bind_inv in H as [(e & H & _)|(s1 & found & H1 & H2)].
    + eapply keeps_existsSync; eassumption.
    + assert (HI1 : I (this s1)) by (eapply keeps_existsSync; eassumption).
      destruct found; [eapply keeps_ret; eassumption|eapply IH; eassumption].
Qed.

Lemma keeps_createApiQuery apiDir : keeps I (_createApiQuery apiDir).
Proof.
  unfold _createApiQuery, mkdirSync, writeFile.
  repeat first [apply keeps_existsSync | keeps_step].
Qed.

End KeptByLoading.

Lemma returned_require_MSVC env s s' :
  require_MSVC env s = (s', Return tt) -> s' = s /\ has_compiler (this s).
Proof.
  unfold require_MSVC, bind, get_this, has_compiler.
  destruct (no_compiler (this s)); [discriminate|]. now intros [= <-].
Qed.

Lemma _loadToolchains_establishes f : establishes has_compiler (_loadToolchains f).
Proof.
  intros env s s' [] H. unfold _loadToolchains in H.
  apply bind_Return_inv in H as (s1 & data & _ & H).
  apply bind_Return_inv in H as (s2 & [] & _ & H).
  now apply returned_require_MSVC in H as [-> H].
Qed.

Lemma _loadToolchainsFromCache_establishes :
  establishes has_compiler _loadToolchainsFromCache.
Proof.
  intros env s s' [] H. unfold _loadToolchainsFromCache in H.
  apply bind_Return_inv in H as (st1 & api & _ & H).
  destruct (cache api !! "CMAKE_C_COMPILER") as [cPath|]; [|discriminate].
  apply bind_Return_inv in H as (st2 & [] & _ & H).
  apply bind_Return_inv in H as (st3 & api3 & _ & H).
  destruct (cache api3 !! "CMAKE_CXX_COMPILER") as [cxxPath|]; [|discriminate].
  apply bind_Return_inv in H as (st4 & [] & _ & H).
  now apply returned_require_MSVC in H as [-> H].
Qed.

Lemma _loadCodemodel_establishes d f : establishes has_sourceRoot (_loadCodemodel d f).
Proof.
  intros env s s' [] H. unfold _loadCodemodel in H.
  apply bind_Return_inv in H as (s1 & data & _ & H).
  destruct data; try discriminate.
  apply bind_Return_inv in H as (s2 & [] & _ & H).
  injection H as <-. discriminate.
Qed.

(** When the loop over the responses has come to its end, a [codemodel]
    response among them has left a source root and a [toolchains] response
    has left a compiler. *)
Lemma responses_loop_resolved replyDir responses flags env s s' flags' :
  responses_loop replyDir responses flags env s = (s', Return flags') ->
  (codemodelLoaded flags = true -> has_sourceRoot (this s)) ->
  (toolchainLoaded flags = true -> has_compiler (this s)) ->
  (codemodelLoaded flags' = true -> has_sourceRoot (this s'))
  /\ (toolchainLoaded flags' = true -> has_compiler (this s')).
Proof.
  revert flags s. induction responses as [|response rest IH]; intros flags s H Hroot Hcomp.
  - injection H as <- <-. now split.
  - cbn [responses_loop] in H. apply bind_Return_inv in H as (s1 & flags1 & Hstep & Hrest).
    apply (IH _ _ Hrest); clear IH Hrest; revert Hstep.
    + destruct (String.eqb (response_kind response) "cache"); intros Hstep.
      { apply bind_Return_inv in Hstep as (s2 & [] & Hload & [= <- <-]). cbn.
        intros Hm. eapply (keeps_loadCache has_sourceRoot); eauto;
          intros; assumption. }
      revert Hstep.
      destruct (String.eqb (response_kind response) "codemodel"); intros Hstep.
      { apply bind_Return_inv in Hstep as (s2 & [] & Hload & [= <- <-]).
        intros _. eapply _loadCodemodel_establishes; eassumption. }
      revert Hstep.
      destruct (String.eqb (response_kind response) "toolchains"); intros Hstep.
      { apply bind_Return_inv in Hstep as (s2 & [] & Hload & [= <- <-]). cbn.
        intros Hm. eapply (keeps_loadToolchains has_sourceRoot); eauto;
          intros; assumption. }
      injection Hstep as <- <-. exact Hroot.
    + destruct (String.eqb (response_kind response) "cache"); intros Hstep.
      { apply bind_Return_inv in Hstep as (s2 & [] & Hload & [= <- <-]). cbn.
        intros Hm. eapply (keeps_loadCache has_compiler); eauto;
          intros; assumption. }
      revert Hstep.
      destruct (String.eqb (response_kind response) "codemodel"); intros Hstep.
      { apply bind_Return_inv in Hstep as (s2 & [] & Hload & [= <- <-]). cbn.
        intros Hm. eapply (keeps_loadCodemodel has_compiler); eauto;
          intros; assumption. }
      revert Hstep.
      destruct (String.eqb (response_kind response) "toolchains"); intros Hstep.
      { apply bind_Return_inv in Hstep as (s2 & [] & Hload & [= <- <-]).
        intros _. eapply _loadToolchains_establishes; eassumption. }
      injection Hstep as <- <-. exact Hcomp.
Qed.

Lemma load_responses_resolved apiDir indexReply env s s' :
  load_responses apiDir indexReply env s = (s', Return tt) ->
  has_compiler (this s') /\ has_sourceRoot (this s').
Proof.
  unfold load_responses. destruct indexReply as [i| | | | |]; try discriminate.
  destruct (client_reply i) as [responses|]; [|discriminate]. intros H.
  apply bind_Return_inv in H as (s1 & flags & Hloop & H).
  apply responses_loop_resolved in Hloop as [Hroot Hcomp]; try discriminate.
  destruct (cacheLoaded flags); [|discriminate].
  destruct (codemodelLoaded flags); [|discriminate].
  cbn [negb] in H. destruct (toolchainLoaded flags); cbn [negb] in H.
  - injection H as <-. auto.
  - split; [eapply _loadToolchainsFromCache_establishes; eassumption|].
    eapply (keeps_loadToolchainsFromCache has_sourceRoot); eauto; intros; assumption.
Qed.

(** X13.  When [_loadReplyFiles] returns, the object holds a source root
    and at least one of the two compilers: a load that could not resolve
    either of them does not return. *)
Theorem _loadReplyFiles_resolves apiDir env s s' :
  _loadReplyFiles apiDir env s = (s', Return tt) ->
  has_compiler (this s') /\ has_sourceRoot (this s').
Proof.
  unfold _loadReplyFiles. intros H.
  apply bind_Return_inv in H as (s1 & indexReply & _ & H).
  apply bind_Return_inv in H as (s2 & [] & Hgate & H).
  apply version_gate_silent in Hgate. subst s2.
  now apply load_responses_resolved in H.
Qed.

Lemma _loadReplyFiles_resolves_witness :
  let env := env_settled all_kinds both_compilers in
  snd (_loadReplyFiles api_dir env start) = Return tt
  /\ has_compiler (this (fst (_loadReplyFiles api_dir env start)))
  /\ has_sourceRoot (this (fst (_loadReplyFiles api_dir env start))).
Proof.
  intros env.
  assert (H : _loadReplyFiles api_dir env start
              = (fst (_loadReplyFiles api_dir env start), Return tt))
    by (vm_compute; reflexivity).
  split; [exact (f_equal snd H)|].
  exact (_loadReplyFiles_resolves api_dir env start _ H).
Defined.

(** ** What [loadApi] leaves behind *)

(** No step of [loadApi] before the call of [spawn] assigns to the
    object, and the call throws. *)
Lemma loadApi_keeps (I : CMakeApi -> Prop) buildRoot : keeps I (loadApi buildRoot).
Proof.
  unfold loadApi. destruct (String.eqb buildRoot EmptyString); [apply keeps_throw|].
  apply keeps_bind; [apply keeps_existsSync|]. intros found.
  destruct (negb found); [apply keeps_throw|].
  apply keeps_bind; [apply keeps_readdirSync|]. intros names.
  destruct (length names =? 0); [apply keeps_throw|].
  apply keeps_bind; [apply keeps_findExecutableOnPath|]. intros cmakePath.
  apply keeps_bind; [apply keeps_getApiReplyIndex|]. intros indexQuery.
  apply keeps_bind; [apply keeps_createApiQuery|]. intros _.
  intros env st st' o H HI. unfold bind in H. rewrite spawn_string in H.
  now injection H as <- _.
Qed.

Lemma loadApi_this buildRoot env s s' o :
  loadApi buildRoot env s = (s', o) -> this s' = this s.
Proof.
  intros H. symmetry.
  exact (loadApi_keeps (fun api => this s = api) buildRoot env s s' o H eq_refl).
Qed.

(** X14.  [loadApi] never loads: in every world it throws, and it leaves
    the object as it found it, so that [loaded] and every other field
    keep the value they had. *)
Theorem loadApi_never_loads buildRoot env s s' o :
  loadApi buildRoot env s = (s', o) ->
  this s' = this s /\ exists e, o = Throw e.
Proof.
  intros H. split; [exact (loadApi_this _ _ _ _ _ H)|].
  apply loadApi_throws in H as (e & -> & _). eauto.
Qed.

Lemma loadApi_never_loads_witness :
  let load := loadApi "/work/build" (env_answered all_kinds both_compilers) start in
  snd load = Throw TypeError
  /\ this (fst load) = CMakeApi_new
  /\ exists e, snd load = Throw e.
Proof.
  intros load.
  assert (H : loadApi "/work/build" (env_answered all_kinds both_compilers) start
              = (fst load, snd load)) by apply surjective_pairing.
  split; [vm_compute; reflexivity|].
  exact (loadApi_never_loads _ _ _ _ _ H).
Defined.

(** X15.  After [loadApi], an object that was not loaded is refused by
    the iterator: whatever [loadApi] has done, in whatever world,
    [compileCommandsIterator] on the object it leaves yields nothing, asks
    nothing of the world and ends with its error. *)
Theorem failed_load_refuses_iteration buildRoot env s s' o options env' :
  loaded (this s) = false ->
  loadApi buildRoot env s = (s', o) ->
  compileCommandsIterator options env' s'
  = (s', ([], Some (Error "CMakeApi: getCompileCommands called before API is loaded"))).
Proof.
  intros Hnot H. apply loadApi_this in H.
  unfold compileCommandsIterator. now rewrite H, Hnot.
Qed.

Lemma failed_load_refuses_iteration_witness :
  let load := loadApi "/work/build" (env_settled all_kinds both_compilers) start in
  loaded (this start) = false
  /\ snd load = Throw TypeError
  /\ compileCommandsIterator no_options (env_settled all_kinds both_compilers) (fst load)
     = (fst load,
        ([], Some (Error "CMakeApi: getCompileCommands called before API is loaded"))).
Proof.
  intros load.
  assert (H0 : loaded (this start) = false) by reflexivity.
  assert (H : loadApi "/work/build" (env_settled all_kinds both_compilers) start
              = (fst load, Throw TypeError)) by (vm_compute; reflexivity).
  split; [exact H0|]. split; [exact (f_equal snd H)|].
  exact (failed_load_refuses_iteration _ _ start _ _ no_options
           (env_settled all_kinds both_compilers) H0 H).
Defined.

(** X16.  [loadApi] ends with a [TypeError] exactly in the runs in which
    it has written the query document, and the write is then the last
    thing it has done: every other failure comes before the write. *)
Theorem loadApi_TypeError_iff_query_written buildRoot env s s' o :
  loadApi buildRoot env s = (s', o) ->
  o = Throw TypeError
  <-> exists h,
        done s' = done s ++ h ++ [EvWriteFile (query_file (api_dir_of buildRoot)) queryData].
Proof.
  intros H. split.
  - intros ->. apply loadApi_run in H. cbv zeta in H.
    destruct H as [(h & e & _ & _ & He & Hp)
                  |[(h & idx & e & _ & _ & He & Hk & _)
                   |(h & idx & d & hq & _ & _ & E & Hq)]].
    + injection He as <-. now destruct Hp as [Hp _].
    + injection He as <-. destruct Hk as [Hk|Hk]; discriminate Hk.
    + destruct Hq as [[_ Hq]|(hm & _ & -> & _)]; [discriminate Hq|].
      exists (h ++ [EvReadFileSync idx]
                ++ EvExistsSync (query_dir (api_dir_of buildRoot)) :: hm).
      rewrite E. cbn [app]. now rewrite <- !app_assoc.
  - intros (h & Hdone). now apply (loadApi_write_is_last _ _ _ _ _ _ _ _ _ H) in Hdone.
Qed.

Lemma loadApi_TypeError_iff_query_written_witness :
  let stopped := loadApi "/work/build" no_index_env start in
  let written := loadApi "/work/build" (env_running "3.13.6") start in
  (snd stopped = Throw TypeError
   <-> exists h, done (fst stopped)
                 = done start ++ h
                   ++ [EvWriteFile (query_file (api_dir_of "/work/build")) queryData])
  /\ snd stopped = Throw (Error "CMake build root not found at: /work/build")
  /\ snd written = Throw TypeError
  /\ exists h, done (fst written)
               = done start ++ h
                 ++ [EvWriteFile (query_file (api_dir_of "/work/build")) queryData].
Proof.
  intros stopped written.
  assert (Hs : loadApi "/work/build" no_index_env start = (fst stopped, snd stopped))
    by apply surjective_pairing.
  assert (Hw : loadApi "/work/build" (env_running "3.13.6") start
               = (fst written, snd written)) by apply surjective_pairing.
  assert (Ht : snd written = Throw TypeError) by (vm_compute; reflexivity).
  split; [exact (loadApi_TypeError_iff_query_written _ _ _ _ _ Hs)|].
  split; [vm_compute; reflexivity|]. split; [exact Ht|].
  exact (proj1 (loadApi_TypeError_iff_query_written _ _ _ _ _ Hw) Ht).
Defined.

(** ** The iterator and the world *)

Lemma _parseReplyFile_reads target :
  emits (reads_target [target]) (_parseReplyFile target).
Proof.
  assert (Hexists : reads_target [target] (EvExistsSync target))
    by (exists target; split; [now left|now left]).
  assert (Hread : reads_target [target] (EvReadFileSync target))
    by (exists target; split; [now left|now right]).
  unfold _parseReplyFile, existsSync, readJson.
  repeat first [ apply emits_perform; assumption | emits_step ].
Qed.

Lemma reads_target_incl targets targets' ev :
  incl targets targets' -> reads_target targets ev -> reads_target targets' ev.
Proof. intros Hincl (target & Hin & Hev). exists target. split; [now apply Hincl|exact Hev]. Qed.

Lemma reads_target_weaken targets targets' h :
  incl targets targets' ->
  Forall (reads_target targets) h -> Forall (reads_target targets') h.
Proof.
  intros Hincl. apply List.Forall_impl. intros ev. now apply reads_target_incl.
Qed.

Lemma yield_targets_reads options targets env s :
  this (fst (yield_targets options targets env s)) = this s
  /\ exists h, done (fst (yield_targets options targets env s)) = done s ++ h
               /\ Forall (reads_target targets) h.
Proof.
  revert s. induction targets as [|target rest IH]; intros s.
  - split; [reflexivity|]. exists []. split; [now rewrite app_nil_r|constructor].
  - assert (Hfirst : incl [target] (target :: rest)) by (intros x [<-|[]]; now left).
    assert (Hrest : incl rest (target :: rest)) by (intros x Hx; now right).
    cbn [yield_targets].
    destruct (_parseReplyFile target env s) as [s1 [targetData|e]] eqn:Hparse.
    + pose proof (_parseReplyFile_this _ _ _ _ _ Hparse) as Hthis.
      apply _parseReplyFile_reads in Hparse as (h1 & E1 & F1).
      apply (reads_target_weaken _ _ _ Hfirst) in F1.
      destruct (yield_groups (this s1) options targetData (compileGroups_of targetData))
        as [ys [e|]].
      * split; [exact Hthis|]. exists h1. now split.
      * destruct (IH s1) as (Hthis2 & h2 & E2 & F2).
        apply (reads_target_weaken _ _ _ Hrest) in F2.
        destruct (yield_targets options rest env s1) as [s2 [more e]].
        cbn [fst] in *. split; [congruence|]. exists (h1 ++ h2).
        split; [now rewrite E2, E1, app_assoc|]. now apply Forall_app.
    + pose proof (_parseReplyFile_this _ _ _ _ _ Hparse) as Hthis.
      apply _parseReplyFile_reads in Hparse as (h1 & E1 & F1).
      apply (reads_target_weaken _ _ _ Hfirst) in F1.
      split; [exact Hthis|]. exists h1. now split.
Qed.

(** X17.  The iterator only reads: whatever it yields and however it
    ends, it leaves the object as it was, and all it does to the world is
    to look for and to read target files the object lists. *)
Theorem compileCommandsIterator_only_reads options env s :
  this (fst (compileCommandsIterator options env s)) = this s
  /\ exists h,
       done (fst (compileCommandsIterator options env s)) = done s ++ h
       /\ Forall (reads_target (targetFilepaths (this s))) h.
Proof.
  unfold compileCommandsIterator. destruct (negb (loaded (this s))).
  - split; [reflexivity|]. exists []. split; [now rewrite app_nil_r|constructor].
  - apply yield_targets_reads.
Qed.

(** ** What the iterator yields *)

Lemma yield_sources_compiler api targetData args0 compilerInfo indexes :
  Forall (fun command => compiler command = compilerInfo /\ args command = args0)
         (fst (yield_sources api targetData args0 compilerInfo indexes)).
Proof.
  induction indexes as [|sourceIndex rest IH]; [constructor|].
  cbn [yield_sources].
  destruct (sources_of targetData !! sourceIndex) as [p|]; [|constructor].
  destruct (sourceRoot api) as [root|]; [|constructor].
  destruct (yield_sources api targetData args0 compilerInfo rest) as [more e].
  cbn [fst] in *. constructor; [now split|exact IH].
Qed.

Lemma yield_groups_compiler api options targetData groups :
  Forall (compiler_of api) (fst (yield_groups api options targetData groups)).
Proof.
  induction groups as [|group rest IH]; [constructor|].
  cbn [yield_groups].
  destruct (compilerInfo_for api (language group)) as [compilerInfo|] eqn:Hinfo;
    [|exact IH].
  pose proof (yield_sources_compiler api targetData
                (_getCompileGroupArguments group options) compilerInfo
                (sourceIndexes group)) as Hys.
  assert (Hof : forall command, compiler command = compilerInfo -> compiler_of api command).
  { intros command <-. unfold compiler_of. unfold compilerInfo_for in Hinfo.
    destruct (String.eqb (language group) "C"); [now left|].
    destruct (String.eqb (language group) "CXX"); [now right|discriminate]. }
  destruct (yield_sources api targetData _ compilerInfo (sourceIndexes group))
    as [ys [e|]]; cbn [fst] in *.
  - eapply List.Forall_impl; [|exact Hys]. intros command [Hc _]. now apply Hof.
  - destruct (yield_groups api options targetData rest) as [more e]. cbn [fst] in *.
    apply Forall_app. split; [|exact IH].
    eapply List.Forall_impl; [|exact Hys]. intros command [Hc _]. now apply Hof.
Qed.

Lemma yield_targets_compiler options targets env s :
  Forall (compiler_of (this s)) (fst (snd (yield_targets options targets env s))).
Proof.
  revert s. induction targets as [|target rest IH]; intros s; [constructor|].
  cbn [yield_targets].
  destruct (_parseReplyFile target env s) as [s1 [targetData|e]] eqn:Hparse; [|constructor].
  apply _parseReplyFile_this in Hparse.
  pose proof (yield_groups_compiler (this s1) options targetData
                (compileGroups_of targetData)) as Hys.
  specialize (IH s1). rewrite Hparse in *.
  destruct (yield_groups (this s) options targetData (compileGroups_of targetData))
    as [ys [e|]]; cbn [fst snd] in *; [exact Hys|].
  destruct (yield_targets options rest env s1) as [s2 [more e]]. cbn [fst snd] in *.
  now apply Forall_app.
Qed.

(** X18.  Every descriptor the iterator yields, in whatever world and
    whether or not the iteration ends in an error, names a compiler the
    object holds: its [compiler] is the object's C compiler or its C++
    compiler. *)
Theorem yielded_compilers_are_resolved options env s :
  Forall (compiler_of (this s)) (fst (snd (compileCommandsIterator options env s))).
Proof.
  unfold compileCommandsIterator. destruct (negb (loaded (this s))); [constructor|].
  apply yield_targets_compiler.
Qed.

(** ** How an iteration ends early *)

Lemma yield_targets_prefix env options root rest pre pre_ts :
  Forall2 (holds_target env) pre pre_ts ->
  forall s,
    sourceRoot (this s) = Some root ->
    Forall (valid_indexes (this s)) pre_ts ->
    exists s1,
      this s1 = this s
      /\ yield_targets options (pre ++ rest) env s
         = (let '(s2, (more, e)) := yield_targets options rest env s1 in
            (s2, (expected_descriptors (this s) options root pre_ts ++ more, e))).
Proof.
  induction 1 as [|target t pre pre_ts Hholds _ IH]; intros s Hroot Hvalid.
  - exists s. split; [reflexivity|]. cbn [app expected_descriptors flat_map].
    now destruct (yield_targets options rest env s) as [s2 [more e]].
  - inversion Hvalid as [|? ? Ht Hts]; subst.
    cbn [app yield_targets]. rewrite (_parseReplyFile_target _ _ _ _ Hholds).
    cbn [this compileGroups_of].
    rewrite (yield_groups_valid _ _ _ root) by (assumption || exact Ht).
    set (s0 := {| this := this s; done := _ |}).
    destruct (IH s0) as (s1 & Hthis & Hrest); [assumption|assumption|].
    exists s1. split; [exact Hthis|]. rewrite Hrest. cbn [this s0].
    destruct (yield_targets options rest env s1) as [s2 [more e]].
    cbn [expected_descriptors flat_map]. now rewrite <- app_assoc.
Qed.

(** X19.  A target file that is not there when the iterator comes to it
    ends the iteration with the error that names the file; the
    descriptors of the targets before it have been yielded by then, and
    the targets after it are not looked at. *)
Theorem missing_target_ends_iteration env s options root pre pre_ts missing rest :
  loaded (this s) = true ->
  sourceRoot (this s) = Some root ->
  targetFilepaths (this s) = pre ++ missing :: rest ->
  Forall2 (holds_target env) pre pre_ts ->
  Forall (valid_indexes (this s)) pre_ts ->
  missing <> EmptyString ->
  (forall h, fs_existsSync env h missing = false) ->
  snd (compileCommandsIterator options env s)
  = (expected_descriptors (this s) options root pre_ts,
     Some (Error ("Failed to find CMake API reply file: " +:+ missing))).
Proof.
  intros Hloaded Hroot Htargets Hpre Hvalid Hname Hmissing.
  unfold compileCommandsIterator. rewrite Hloaded, Htargets. cbn [negb].
  destruct (yield_targets_prefix env options root (missing :: rest) pre pre_ts
              Hpre s Hroot Hvalid) as (s1 & _ & ->).
  cbn [yield_targets]. unfold _parseReplyFile.
  apply String.eqb_neq in Hname. rewrite Hname.
  unfold bind, existsSync, perform. rewrite Hmissing. cbn.
  now rewrite app_nil_r.
Qed.

Lemma missing_target_ends_iteration_witness :
  (forall h, fs_existsSync toolset_env h (reply_dir +:+ "/target-app.json") = false)
  /\ snd (compileCommandsIterator no_options toolset_env loaded_example)
     = ([], Some (Error ("Failed to find CMake API reply file: "
                         +:+ reply_dir +:+ "/target-app.json"))).
Proof.
  assert (Hmissing : forall h,
            fs_existsSync toolset_env h (reply_dir +:+ "/target-app.json") = false)
    by (intros h; unfold toolset_env, disk_env, disk_at; cbn [fs_existsSync];
        now destruct (spawned h)).
  split; [exact Hmissing|].
  exact (missing_target_ends_iteration toolset_env loaded_example no_options "/work/src"
           [] [] (reply_dir +:+ "/target-app.json") []
           eq_refl eq_refl eq_refl (List.Forall2_nil _) (List.Forall_nil _)
           ltac:(discriminate) Hmissing).
Defined.

Lemma yield_sources_overrun api t root args0 compilerInfo before i after :
  sourceRoot api = Some root ->
  Forall (fun sourceIndex => sourceIndex < length (sources t)) before ->
  length (sources t) <= i ->
  yield_sources api (RTarget t) args0 compilerInfo (before ++ i :: after)
  = (map (descriptor root t args0 compilerInfo) before, Some TypeError).
Proof.
  intros Hroot Hbefore Hi. induction Hbefore as [|j before Hj _ IH].
  - cbn [app yield_sources sources_of map].
    now rewrite (proj2 (lookup_ge_None (sources t) i)) by lia.
  - cbn [app yield_sources sources_of map]. rewrite Hroot, IH. unfold descriptor.
    destruct (sources t !! j) as [p|] eqn:Hp.
    + now rewrite (nth_lookup_Some _ _ EmptyString _ Hp).
    + apply lookup_ge_None in Hp. lia.
Qed.

Lemma yield_groups_prefix api options t root before rest :
  sourceRoot api = Some root ->
  (forall group, In group before ->
     compilerInfo_for api (language group) <> None ->
     Forall (fun sourceIndex => sourceIndex < length (sources t)) (sourceIndexes group)) ->
  yield_groups api options (RTarget t) (before ++ rest)
  = (let '(more, e) := yield_groups api options (RTarget t) rest in
     (flat_map (expected_group api options root t) before ++ more, e)).
Proof.
  intros Hroot. induction before as [|group before IH]; intros Hvalid.
  - cbn [app flat_map]. now destruct (yield_groups api options (RTarget t) rest).
  - cbn [app yield_groups flat_map]. unfold expected_group at 1.
    rewrite IH by (intros g Hg; apply Hvalid; now right).
    rewrite <- compilerInfo_for_resolved.
    destruct (compilerInfo_for api (language group)) as [compilerInfo|] eqn:Hinfo;
      [|reflexivity].
    rewrite (yield_sources_valid _ _ root) by
      (first [assumption|apply Hvalid; [now left|congruence]]).
    rewrite _getCompileGroupArguments_expected.
    destruct (yield_groups api options (RTarget t) rest) as [more e].
    now rewrite <- app_assoc.
Qed.

(** X20.  A source index that the [sources] of its target do not have
    ends the iteration with a [TypeError]: the descriptors of the groups
    before and of the source indexes before it in its group have been
    yielded by then, and nothing that comes after it is. *)
Theorem source_index_out_of_range env s options root target rest t
    before group after compilerInfo indexes i indexes' :
  loaded (this s) = true ->
  sourceRoot (this s) = Some root ->
  targetFilepaths (this s) = target :: rest ->
  holds_target env target t ->
  compileGroups t = before ++ group :: after ->
  (forall g, In g before ->
     compilerInfo_for (this s) (language g) <> None ->
     Forall (fun sourceIndex => sourceIndex < length (sources t)) (sourceIndexes g)) ->
  compilerInfo_for (this s) (language group) = Some compilerInfo ->
  sourceIndexes group = indexes ++ i :: indexes' ->
  Forall (fun sourceIndex => sourceIndex < length (sources t)) indexes ->
  length (sources t) <= i ->
  snd (compileCommandsIterator options env s)
  = (flat_map (expected_group (this s) options root t) before
     ++ map (descriptor root t (_getCompileGroupArguments group options) compilerInfo)
            indexes,
     Some TypeError).
Proof.
  intros Hloaded Hroot Htargets Hholds Hgroups Hbefore Hinfo Hindexes Hvalid Hi.
  unfold compileCommandsIterator. rewrite Hloaded, Htargets. cbn [negb yield_targets].
  rewrite (_parseReplyFile_target _ _ _ _ Hholds). cbn [this compileGroups_of].
  rewrite Hgroups, (yield_groups_prefix _ _ _ root) by assumption.
  cbn [yield_groups]. rewrite Hinfo, Hindexes.
  now rewrite (yield_sources_overrun _ _ root) by assumption.
Qed.

Lemma holds_target_settled_with t :
  holds_target (env_settled_with t) (reply_dir +:+ "/target-app.json") t.
Proof.
  split; [discriminate|]. intros h.
  unfold env_settled_with, disk_env, disk_at. cbn [fs_existsSync fs_readFileSync].
  destruct (spawned h); split; reflexivity.
Qed.

Lemma source_index_out_of_range_witness :
  holds_target (env_settled_with overrun_target) (reply_dir +:+ "/target-app.json")
               overrun_target
  /\ length (sources overrun_target) <= 3
  /\ snd (compileCommandsIterator no_options (env_settled_with overrun_target)
                                  loaded_example)
     = ([ {| source := "/work/src/src/a.cpp";
             args := "-O2";
             compiler := {| ci_path := cl_exe;
                            ci_version := "19.29.30133.0";
                            ci_includes := [] |} |} ],
        Some TypeError).
Proof.
  assert (Hholds : holds_target (env_settled_with overrun_target)
                     (reply_dir +:+ "/target-app.json") overrun_target)
    by apply holds_target_settled_with.
  assert (Hi : length (sources overrun_target) <= 3) by (cbn; lia).
  assert (Hbefore : forall g, In g [fortran_group] ->
            compilerInfo_for (this loaded_example) (language g) <> None ->
            Forall (fun sourceIndex => sourceIndex < length (sources overrun_target))
                   (sourceIndexes g))
    by (intros g [<-|[]] Hg; exfalso; now apply Hg).
  assert (Hvalid : Forall (fun sourceIndex => sourceIndex < length (sources overrun_target))
                          [0])
    by (repeat constructor).
  split; [exact Hholds|]. split; [exact Hi|].
  exact (source_index_out_of_range (env_settled_with overrun_target) loaded_example
           no_options "/work/src" (reply_dir +:+ "/target-app.json") [] overrun_target
           [fortran_group] overrun_group []
           {| ci_path := cl_exe; ci_version := "19.29.30133.0"; ci_includes := [] |}
           [0] 3 [1]
           eq_refl eq_refl eq_refl Hholds eq_refl Hbefore eq_refl eq_refl Hvalid Hi).
Defined.

(** ** The inputs of the action *)

Lemma path_normalize_not_empty x : path_normalize x <> EmptyString.
Proof.
  destruct (String.eqb_spec x EmptyString) as [->|Hx]; [discriminate|].
  rewrite path_normalize_canon by assumption. apply canon_not_empty.
Qed.

Lemma path_join_one_of x q :
  path_join [x; q]
  = if String.eqb x EmptyString
    then (if String.eqb q EmptyString then "." else path_normalize q)
    else if String.eqb q EmptyString then path_normalize x
         else path_normalize (x +:+ String "/" q).
Proof. destruct x, q; reflexivity. Qed.

Lemma path_join_pair_not_empty x q : path_join [x; q] <> EmptyString.
Proof.
  rewrite path_join_one_of.
  destruct (String.eqb x EmptyString), (String.eqb q EmptyString);
    first [discriminate|apply path_normalize_not_empty].
Qed.

Lemma resolveInputPath_returns inputs input required env s s' p :
  resolveInputPath inputs input required env s = (s', Return p) ->
  s' = s /\ p <> EmptyString
  /\ (isAbsolute (core_getInput inputs input) = true -> p = core_getInput inputs input).
Proof.
  intros H. unfold resolveInputPath in H.
  apply bind_Return_inv in H as (s1 & [] & Hcheck & H).
  assert (Hs1 : s1 = s).
  { destruct (String.eqb _ EmptyString); [|now injection Hcheck].
    destruct required; [discriminate|now injection Hcheck]. }
  subst s1.
  destruct (isAbsolute (core_getInput inputs input)) eqn:Habs; cbn [negb] in H.
  - injection H as <- <-. split; [reflexivity|]. split; [|reflexivity].
    intros Hempty. rewrite Hempty in Habs. discriminate Habs.
  - destruct (process_env_GITHUB_WORKSPACE inputs) as [workspace|]; [|discriminate].
    injection H as <- <-. split; [reflexivity|].
    split; [apply path_join_pair_not_empty|discriminate].
Qed.

(** X21.  [resolveInputPath] never gives the empty path: an input that
    is set to an absolute path is returned as it is, and any other input,
    an optional one that is not set among them, is joined to the
    workspace directory; so an optional input that is not set resolves to
    the workspace directory itself, and no input gives a result that is
    falsy. *)
Theorem resolveInputPath_never_empty inputs input :
  (forall required env s s' p,
      resolveInputPath inputs input required env s = (s', Return p) ->
      p <> EmptyString
      /\ (isAbsolute (core_getInput inputs input) = true -> p = core_getInput inputs input))
  /\ (forall workspace env s,
        core_getInput inputs input = EmptyString ->
        process_env_GITHUB_WORKSPACE inputs = Some workspace ->
        workspace <> EmptyString ->
        resolveInputPath inputs input false env s = (s, Return (path_normalize workspace))).
Proof.
  split.
  - intros required env s s' p H.
    now apply resolveInputPath_returns in H as (_ & Hne & Habs).
  - intros workspace env s Hunset Hworkspace Hne. unfold resolveInputPath.
    rewrite Hunset, Hworkspace. cbn.
    rewrite path_join_one_of. apply String.eqb_neq in Hne. now rewrite Hne.
Qed.

Lemma resolveInputPath_never_empty_witness :
  core_getInput example_inputs "ruleset" = EmptyString
  /\ process_env_GITHUB_WORKSPACE example_inputs = Some "/work"
  /\ resolveInputPath example_inputs "ruleset" false toolset_env start
     = (start, Return "/work").
Proof.
  split; [reflexivity|]. split; [reflexivity|].
  exact (proj2 (resolveInputPath_never_empty example_inputs "ruleset")
               "/work" toolset_env start eq_refl eq_refl ltac:(discriminate)).
Defined.

(** X22.  Any value of the input [ignoreSystemHeaders] other than the
    empty string switches the option on, the value [false] among them:
    with the options object made from such inputs, every system include
    of a compile group is passed by [/external:I]. *)
Theorem ignoreSystemHeaders_any_value inputs group :
  core_getInput inputs "ignoreSystemHeaders" <> EmptyString ->
  _getCompileGroupArguments group (CompilerCommandOptions_new inputs)
  = String.concat " "
      (compileCommandFragments group
       ++ map (fun include =>
                 escapeArgument
                   ((if include_isSystem include then "/external:I" else "/I")
                    +:+ include_path include))
              (includes group)
       ++ map (fun define => escapeArgument ("/D" +:+ define)) (defines group)).
Proof.
  intros Hset. rewrite _getCompileGroupArguments_expected. unfold expected_args.
  do 3 f_equal. apply map_ext. intros include.
  unfold include_flag, CompilerCommandOptions_new. cbn [ignoreSystemHeaders].
  apply String.eqb_neq in Hset. now rewrite Hset.
Qed.

Lemma ignoreSystemHeaders_any_value_witness :
  core_getInput example_inputs "ignoreSystemHeaders" = "false"
  /\ _getCompileGroupArguments
       {| language := "CXX";
          compileCommandFragments := [];
          includes := [ {| include_path := "/usr/include"; include_isSystem := true |} ];
          defines := [];
          sourceIndexes := [0] |}
       (CompilerCommandOptions_new example_inputs)
     = str1 dquote +:+ "/external:I/usr/include" +:+ str1 dquote.
Proof.
  split; [reflexivity|].
  exact (ignoreSystemHeaders_any_value example_inputs
           {| language := "CXX";
              compileCommandFragments := [];
              includes := [ {| include_path := "/usr/include"; include_isSystem := true |} ];
              defines := [];
              sourceIndexes := [0] |}
           ltac:(discriminate)).
Defined.

(** ** The search for the analysis engine *)

Lemma list_ascii_app a b :
  list_ascii_of_string (a +:+ b) = list_ascii_of_string a ++ list_ascii_of_string b.
Proof. induction a as [|c a IH]; [reflexivity|]. simpl. now rewrite IH. Qed.

Lemma length_list_ascii s : length (list_ascii_of_string s) = String.length s.
Proof. induction s as [|c s IH]; [reflexivity|]. simpl. now rewrite IH. Qed.

Lemma slash_free_chars n :
  slash_free n -> Forall (fun c => isPathSeparator c = false) (list_ascii_of_string n).
Proof.
  unfold slash_free. induction n as [|c n IH]; [constructor|].
  simpl. intros [Hc Hn]%orb_false_iff. constructor; [exact Hc|now apply IH].
Qed.

(** The scan passes over the characters of a name. *)
Lemma dirname_scan_name chars rest i :
  Forall (fun c => isPathSeparator c = false) chars ->
  dirname_scan (chars ++ rest) i false = dirname_scan rest (i - length chars) false.
Proof.
  intros Hchars. revert i. induction Hchars as [|c chars Hc _ IH]; intros i.
  - cbn. now rewrite Nat.sub_0_r.
  - cbn [app dirname_scan length]. rewrite Hc, IH. f_equal. lia.
Qed.

Lemma dirname_scan_last_name chars rest i matchedSlash :
  chars <> [] ->
  Forall (fun c => isPathSeparator c = false) chars ->
  dirname_scan (chars ++ rest) i matchedSlash
  = dirname_scan rest (i - length chars) false.
Proof.
  intros Hne Hchars. destruct Hchars as [|c chars Hc Hchars]; [congruence|].
  cbn [app dirname_scan length]. rewrite Hc, dirname_scan_name by assumption.
  f_equal. lia.
Qed.

Lemma substring_prefix a b : substring 0 (String.length a) (a +:+ b) = a.
Proof.
  induction a as [|c a IH]; [now destruct b|]. simpl. now rewrite IH.
Qed.

(** [path.dirname] of a directory and a name in it is the directory. *)
Lemma path_dirname_child dir name :
  dir <> EmptyString -> dir <> "/" -> name <> EmptyString -> slash_free name ->
  path_dirname (dir +:+ String "/" name) = dir.
Proof.
  intros Hdir Hroot Hname Hfree. destruct dir as [|first dir']; [congruence|].
  cbn [String.append path_dirname]. rewrite list_ascii_app.
  cbn [list_ascii_of_string]. rewrite rev_app_distr. cbn [rev]. rewrite <- app_assoc.
  rewrite dirname_scan_last_name.
  - cbn [app dirname_scan]. change (isPathSeparator "/") with true. cbn iota.
    rewrite length_rev, length_list_ascii, length_append. cbn [String.length].
    replace (String.length dir' + S (String.length name) - String.length name)
      with (S (String.length dir')) by lia.
    destruct dir' as [|second dir''].
    + cbn. destruct (isPathSeparator first) eqn:Hfirst; [|now destruct name].
      exfalso. apply Hroot. unfold isPathSeparator in Hfirst.
      apply Ascii.eqb_eq in Hfirst. now subst first.
    + replace (S (String.length (String second dir'')) =? 1) with false
        by (symmetry; apply Nat.eqb_neq; cbn; lia).
      rewrite andb_false_r.
      change (String first (String second dir'' +:+ String "/" name))
        with (String first (String second dir'') +:+ String "/" name).
      change (S (String.length (String second dir'')))
        with (String.length (String first (String second dir''))).
      apply substring_prefix.
  - intros H. apply (f_equal (@length _)) in H.
    rewrite length_rev, length_list_ascii in H. destruct name; [congruence|discriminate].
  - apply Forall_rev. now apply slash_free_chars.
Qed.

Lemma unsegments_snoc segs name :
  segs <> [] -> unsegments (segs ++ [name]) = unsegments segs +:+ String "/" name.
Proof.
  induction segs as [|seg segs IH]; [congruence|]. intros _.
  destruct segs as [|seg' segs'].
  - reflexivity.
  - change (unsegments ((seg :: seg' :: segs') ++ [name]))
      with (seg +:+ String "/" (unsegments ((seg' :: segs') ++ [name]))).
    rewrite IH by discriminate.
    change (unsegments (seg :: seg' :: segs'))
      with (seg +:+ String "/" (unsegments (seg' :: segs'))).
    now rewrite append_assoc.
Qed.

Lemma path_of_snoc isAbs segs name :
  segs <> [] -> path_of isAbs (segs ++ [name]) = path_of isAbs segs +:+ String "/" name.
Proof.
  intros Hne. unfold path_of. now rewrite unsegments_snoc, append_assoc.
Qed.

Lemma path_of_proper isAbs segs :
  all_names segs -> segs <> [] ->
  path_of isAbs segs <> EmptyString /\ path_of isAbs segs <> "/".
Proof.
  intros Hnames Hne.
  assert (Hbody : unsegments segs <> EmptyString).
  { rewrite <- (rev_involutive segs).
    apply (unsegments_rev_normal false); [now apply normal_names, all_names_rev|].
    now apply rev_not_nil. }
  destruct isAbs.
  - unfold path_of. destruct (unsegments segs); [congruence|]. split; discriminate.
  - assert (Habs : isAbsolute (path_of false segs) = false).
    { rewrite path_of_canon by assumption. apply isAbsolute_canon.
      now apply normal_names, all_names_rev. }
    split; intros H; rewrite H in *; [now apply Hbody|discriminate].
Qed.

Lemma path_dirname_path_of isAbs segs name :
  all_names (segs ++ [name]) -> segs <> [] ->
  path_dirname (path_of isAbs (segs ++ [name])) = path_of isAbs segs.
Proof.
  intros [Hsegs Hname]%Forall_app Hne. inversion Hname as [|? ? Hn _]; subst.
  destruct (is_name_spec _ Hn) as (Hnn & _ & _ & Hfree).
  destruct (path_of_proper isAbs segs Hsegs Hne) as [H1 H2].
  rewrite path_of_snoc by assumption. now apply path_dirname_child.
Qed.

Lemma path_basename_path_of isAbs segs name :
  all_names (segs ++ [name]) ->
  path_basename (path_of isAbs (segs ++ [name])) = name.
Proof.
  intros Hnames. rewrite path_of_canon by (assumption || now destruct segs).
  rewrite rev_app_distr. cbn [rev app]. apply path_basename_canon.
  change (name :: rev segs) with (rev [name] ++ rev segs). rewrite <- rev_app_distr.
  now apply normal_names, all_names_rev.
Qed.

Lemma path_join_path_of isAbs segs name :
  all_names segs -> segs <> [] -> is_name name = true ->
  path_join [path_of isAbs segs; name] = path_of isAbs (segs ++ [name]).
Proof.
  intros Hsegs Hne Hname.
  assert (Hall : all_names (segs ++ [name]))
    by (apply Forall_app; split; [assumption|now constructor]).
  destruct (is_name_spec _ Hname) as (Hnn & _ & _ & Hfree).
  rewrite (path_of_canon isAbs segs), path_join_onto_canon
    by first [assumption | now apply normal_names, all_names_rev].
  rewrite (segments_of_name name Hfree), (path_trailing_slash_free name Hfree).
  unfold normalize_segments. cbn [fold_left]. rewrite normalize_step_name by assumption.
  rewrite path_of_canon by (assumption || now destruct segs).
  now rewrite rev_app_distr.
Qed.

Lemma path_join_three x t n :
  x <> EmptyString -> t <> EmptyString -> n <> EmptyString ->
  path_join [x; t; n] = path_join [x +:+ String "/" t; n].
Proof. destruct x, t, n; try congruence. reflexivity. Qed.

Lemma path_join_path_of_two isAbs segs t name :
  all_names segs -> segs <> [] -> is_name t = true -> is_name name = true ->
  path_join [path_of isAbs segs; t; name] = path_of isAbs (segs ++ [t; name]).
Proof.
  intros Hsegs Hne Ht Hname.
  destruct (is_name_spec _ Ht) as (Htn & _). destruct (is_name_spec _ Hname) as (Hnn & _).
  destruct (path_of_proper isAbs segs Hsegs Hne) as [H1 _].
  rewrite path_join_three by assumption.
  rewrite <- path_of_snoc by assumption.
  rewrite path_join_path_of.
  - now rewrite <- app_assoc.
  - apply Forall_app. split; [assumption|now constructor].
  - now destruct segs.
  - assumption.
Qed.

Lemma path_stack_name name : is_name name = true -> path_stack name = [name].
Proof.
  intros Hname. destruct (is_name_spec _ Hname) as (_ & _ & _ & Hfree).
  unfold path_stack. rewrite (isAbsolute_slash_free name Hfree), (segments_of_name name Hfree).
  unfold normalize_segments. cbn [fold_left]. now apply normalize_step_name.
Qed.

Lemma normal_push aar name res :
  is_name name = true -> normal aar res = true -> normal aar (name :: res) = true.
Proof.
  intros Hname Hres. rewrite <- (normalize_step_name aar name res Hname).
  apply normalize_step_normal; [exact Hres|]. now apply is_name_spec in Hname.
Qed.

Lemma path_basename_join x name :
  is_name name = true -> path_basename (path_join [x; name]) = name.
Proof.
  intros Hname. destruct (is_name_spec _ Hname) as (Hnn & _ & _ & Hfree).
  rewrite path_join_one_of. apply String.eqb_neq in Hnn as Hnn'. rewrite Hnn'.
  destruct (String.eqb_spec x EmptyString) as [->|Hx].
  - rewrite path_normalize_canon, path_stack_name by assumption.
    apply path_basename_canon. rewrite (isAbsolute_slash_free name Hfree).
    now apply normal_push.
  - rewrite <- path_join_two, path_join_canon by assumption.
    rewrite (segments_of_name name Hfree). unfold normalize_segments. cbn [fold_left].
    rewrite normalize_step_name by assumption.
    apply path_basename_canon, normal_push; [assumption|apply path_stack_normal].
Qed.

Lemma path_basename_join_three x t name :
  is_name t = true -> is_name name = true ->
  path_basename (path_join [x; t; name]) = name.
Proof.
  intros Ht Hname. destruct (is_name_spec _ Ht) as (Htn & _).
  destruct (is_name_spec _ Hname) as (Hnn & _).
  destruct (String.eqb_spec x EmptyString) as [->|Hx].
  - replace (path_join [EmptyString; t; name]) with (path_join [t; name])
      by (destruct t, name; congruence || reflexivity).
    now apply path_basename_join.
  - rewrite path_join_three by assumption. now apply path_basename_join.
Qed.

(** X23.  When [findEspXEngine] returns, it returns a path whose last
    segment is [EspXEngine.dll] and that the world has just said is
    there; it has looked for at most one other file before, and it has
    done nothing else. *)
Theorem findEspXEngine_result clPath env s s' dll :
  findEspXEngine clPath env s = (s', Return dll) ->
  path_basename dll = "EspXEngine.dll"
  /\ this s' = this s
  /\ exists h,
       done s' = (done s ++ h) ++ [EvExistsSync dll]
       /\ length h <= 1
       /\ fs_existsSync env (done s ++ h) dll = true.
Proof.
  unfold findEspXEngine. intros H.
  apply bind_Return_inv in H as (s1 & found & Hlook & H).
  unfold existsSync, perform in Hlook. injection Hlook as <- <-.
  destruct (fs_existsSync env (done s) _) eqn:Hbeside.
  - injection H as <- <-. split; [now apply path_basename_join|]. split; [reflexivity|].
    exists []. rewrite app_nil_r. cbn [done length]. auto.
  - apply bind_Return_inv in H as (s2 & targetName & Hswitch & H).
    assert (Htarget : s2 = {| this := this s;
                              done := done s ++ [EvExistsSync
                                (path_join [path_dirname clPath; "EspXEngine.dll"])] |}
                      /\ is_name targetName = true).
    { destruct (String.eqb _ "HostX86"); [now injection Hswitch as <- <-|].
      destruct (String.eqb _ "HostX64"); [now injection Hswitch as <- <-|discriminate]. }
    destruct Htarget as [-> Htarget].
    apply bind_Return_inv in H as (s3 & found & Hlook & H).
    unfold existsSync, perform in Hlook. injection Hlook as E1 E2. subst s3.
    destruct found; [|discriminate].
    injection H as <- <-. split; [now apply path_basename_join_three|].
    split; [reflexivity|]. eexists [_]. cbn [done length]. auto.
Qed.

Lemma findEspXEngine_result_witness :
  snd (findEspXEngine "/VS/bin/HostX64/x86/cl.exe" toolset_env start)
  = Return "/VS/bin/HostX64/x64/EspXEngine.dll"
  /\ path_basename "/VS/bin/HostX64/x64/EspXEngine.dll" = "EspXEngine.dll".
Proof.
  assert (H : findEspXEngine "/VS/bin/HostX64/x86/cl.exe" toolset_env start
              = (fst (findEspXEngine "/VS/bin/HostX64/x86/cl.exe" toolset_env start),
                 Return "/VS/bin/HostX64/x64/EspXEngine.dll"))
    by (vm_compute; reflexivity).
  split; [exact (f_equal snd H)|].
  exact (proj1 (findEspXEngine_result _ toolset_env start _ _ H)).
Defined.

(** X24.  For a compiler at [<dirs>/<host>/<target>/<cl>], every segment
    a plain name, and no engine beside it: [findEspXEngine] goes on to
    [<dirs>/<host>/x86/EspXEngine.dll] when [<host>] is spelt [HostX86]
    and to [<dirs>/<host>/x64/EspXEngine.dll] when it is spelt [HostX64],
    and returns that path or fails according to whether it is there; for
    every other spelling of [<host>], [Hostx64] among them, it fails with
    the unknown-layout error without a second look. *)
Theorem findEspXEngine_layout isAbs dirs host target cl env s :
  all_names (dirs ++ [host; target; cl]) ->
  fs_existsSync env (done s)
    (path_of isAbs (dirs ++ [host; target; "EspXEngine.dll"])) = false ->
  let looked :=
    {| this := this s;
       done := done s ++ [EvExistsSync
                 (path_of isAbs (dirs ++ [host; target; "EspXEngine.dll"]))] |} in
  findEspXEngine (path_of isAbs (dirs ++ [host; target; cl])) env s
  = match host_target host with
    | None => (looked, Throw (Error "Unknown MSVC toolset layout"))
    | Some targetName =>
        let other := path_of isAbs (dirs ++ [host; targetName; "EspXEngine.dll"]) in
        ({| this := this s; done := done looked ++ [EvExistsSync other] |},
         if fs_existsSync env (done looked) other then Return other
         else Throw (Error "Unable to find EspXEngine.dll"))
    end.
Proof.
  intros Hnames Hbeside looked.
  assert (Hsplit : all_names dirs /\ all_names [host; target; cl]) by now apply Forall_app.
  destruct Hsplit as [Hdirs Hlast].
  inversion Hlast as [|? ? Hhost H1]; subst. inversion H1 as [|? ? Htarget H2]; subst.
  inversion H2 as [|? ? Hcl _]; subst.
  assert (Hhosts : all_names (dirs ++ [host]))
    by (apply Forall_app; split; [assumption|now constructor]).
  assert (Htargets : all_names ((dirs ++ [host]) ++ [target]))
    by (apply Forall_app; split; [assumption|now constructor]).
  assert (Hne1 : dirs ++ [host] <> []) by now destruct dirs.
  assert (Hne2 : (dirs ++ [host]) ++ [target] <> []) by now destruct dirs.
  assert (HclDir : path_dirname (path_of isAbs (dirs ++ [host; target; cl]))
                   = path_of isAbs ((dirs ++ [host]) ++ [target])).
  { replace (dirs ++ [host; target; cl]) with (((dirs ++ [host]) ++ [target]) ++ [cl])
      by now rewrite <- !app_assoc.
    apply path_dirname_path_of; [|assumption].
    apply Forall_app. split; [assumption|now constructor]. }
  assert (HhostDir : path_dirname (path_of isAbs ((dirs ++ [host]) ++ [target]))
                     = path_of isAbs (dirs ++ [host]))
    by now apply path_dirname_path_of.
  assert (Hbase : path_basename (path_of isAbs (dirs ++ [host])) = host)
    by now apply path_basename_path_of.
  assert (Hfirst : path_join [path_of isAbs ((dirs ++ [host]) ++ [target]);
                              "EspXEngine.dll"]
                   = path_of isAbs (dirs ++ [host; target; "EspXEngine.dll"])).
  { rewrite path_join_path_of by (assumption || reflexivity).
    now rewrite <- !app_assoc. }
  assert (Hsecond : forall targetName, is_name targetName = true ->
            path_join [path_of isAbs (dirs ++ [host]); targetName; "EspXEngine.dll"]
            = path_of isAbs (dirs ++ [host; targetName; "EspXEngine.dll"])).
  { intros targetName Hn. rewrite path_join_path_of_two by (assumption || reflexivity).
    now rewrite <- !app_assoc. }
  unfold findEspXEngine. rewrite HclDir, HhostDir, Hbase, Hfirst.
  unfold bind at 1, existsSync at 1, perform at 1. rewrite Hbeside.
  unfold host_target.
  destruct (String.eqb host "HostX86").
  { unfold bind, ret, existsSync, perform. rewrite (Hsecond "x86") by reflexivity.
    subst looked. cbn [this done].
    match goal with
    | |- context [if fs_existsSync env ?h ?p then _ else _] =>
        destruct (fs_existsSync env h p)
    end; reflexivity. }
  destruct (String.eqb host "HostX64").
  { unfold bind, ret, existsSync, perform. rewrite (Hsecond "x64") by reflexivity.
    subst looked. cbn [this done].
    match goal with
    | |- context [if fs_existsSync env ?h ?p then _ else _] =>
        destruct (fs_existsSync env h p)
    end; reflexivity. }
  reflexivity.
Qed.

Lemma findEspXEngine_layout_witness :
  all_names (["VS"; "bin"] ++ ["Hostx64"; "x86"; "cl.exe"])
  /\ fs_existsSync lowercase_host_env []
       "/VS/bin/Hostx64/x86/EspXEngine.dll" = false
  /\ fs_existsSync lowercase_host_env []
       "/VS/bin/Hostx64/x64/EspXEngine.dll" = true
  /\ snd (findEspXEngine "/VS/bin/Hostx64/x86/cl.exe" lowercase_host_env start)
     = Throw (Error "Unknown MSVC toolset layout").
Proof.
  assert (Hnames : all_names (["VS"; "bin"] ++ ["Hostx64"; "x86"; "cl.exe"]))
    by (repeat constructor).
  assert (Hbeside : fs_existsSync lowercase_host_env (done start)
                      (path_of true (["VS"; "bin"] ++ ["Hostx64"; "x86"; "EspXEngine.dll"]))
                    = false) by reflexivity.
  split; [exact Hnames|]. split; [exact Hbeside|]. split; [reflexivity|].
  exact (f_equal snd (findEspXEngine_layout true ["VS"; "bin"] "Hostx64" "x86" "cl.exe"
                        lowercase_host_env start Hnames Hbeside)).
Defined.

(** ** The results directory *)

Lemma prepareResultsDir_keeps (I : CMakeApi -> Prop) inputs :
  keeps I (prepareResultsDir inputs).
Proof.
  unfold prepareResultsDir, resolveInputPath, existsSync, mkdirSync, readdirSync,
    clean_loop.
  repeat keeps_step.
Qed.

(** X25.  [prepareResultsDir] returns only when the input [cleanSarif]
    is [false] or [true] in some spelling of upper and lower case, and
    for [true] only when the results directory has no entry at all: the
    loop that is to remove the stale files fails on the first entry it is
    given.  What it returns is not the empty path, and the object is left
    as it is. *)
Theorem prepareResultsDir_returns inputs env s s' resultsDir :
  prepareResultsDir inputs env s = (s', Return resultsDir) ->
  this s' = this s
  /\ resultsDir <> EmptyString
  /\ (toLowerCase (core_getInput inputs "cleanSarif") = "false"
      \/ (toLowerCase (core_getInput inputs "cleanSarif") = "true"
          /\ exists h, done s' = h ++ [EvReaddirSync resultsDir]
                       /\ fs_readdirSync env h resultsDir = Some [])).
Proof.
  intros H.
  assert (Hthis : this s' = this s).
  { symmetry. now apply (prepareResultsDir_keeps (eq (this s)) _ _ _ _ _ H). }
  split; [exact Hthis|]. unfold prepareResultsDir in H.
  apply bind_Return_inv in H as (s1 & dir & Hdir & H).
  apply resolveInputPath_returns in Hdir as (-> & Hne & _).
  apply bind_Return_inv in H as (s2 & found & _ & H).
  apply bind_Return_inv in H as (s3 & [] & _ & H).
  apply bind_Return_inv in H as (s4 & [] & Hclean & H).
  injection H as <- <-. split; [exact Hne|].
  destruct (String.eqb_spec (toLowerCase (core_getInput inputs "cleanSarif")) "true")
    as [Htrue|_].
  - right. split; [exact Htrue|].
    apply bind_Return_inv in Hclean as (s5 & files & Hlist & Hloop).
    unfold readdirSync, bind, perform in Hlist.
    destruct (fs_readdirSync env (done s3) dir) as [names|] eqn:Hnames; [|discriminate].
    injection Hlist as <- <-. destruct names as [|file names]; [|discriminate].
    injection Hloop as <-. exists (done s3). now split.
  - destruct (String.eqb_spec (toLowerCase (core_getInput inputs "cleanSarif")) "false")
      as [Hfalse|_]; [now left|discriminate].
Qed.

Lemma prepareResultsDir_returns_witness :
  snd (prepareResultsDir example_inputs toolset_env start) = Return "/work/out/sarif"
  /\ toLowerCase (core_getInput example_inputs "cleanSarif") = "false".
Proof.
  assert (H : prepareResultsDir example_inputs toolset_env start
              = (fst (prepareResultsDir example_inputs toolset_env start),
                 Return "/work/out/sarif"))
    by (vm_compute; reflexivity).
  split; [exact (f_equal snd H)|].
  destruct (prepareResultsDir_returns example_inputs toolset_env start _ _ H)
    as (_ & _ & [Hfalse|[Htrue _]]); [exact Hfalse|discriminate Htrue].
Defined.

(** ** The version gate compares strings *)

(** X26.  The version gate compares the version strings character by
    character and not number by number: every version that starts with
    [3.9], older than 3.13.7, passes it, and every version that starts
    with [3.100] or with [10.], newer than 3.13.7, is refused. *)
Theorem version_gate_not_numeric rest replies env s :
  version_gate (RIndex {| version_string := "3.9" +:+ rest; client_reply := replies |})
               env s
  = (s, Return tt)
  /\ version_gate (RIndex {| version_string := "3.100" +:+ rest; client_reply := replies |})
                  env s
     = (s, Throw (Error "Action requires CMake version >= 3.13.7"))
  /\ version_gate (RIndex {| version_string := "10." +:+ rest; client_reply := replies |})
                  env s
     = (s, Throw (Error "Action requires CMake version >= 3.13.7")).
Proof.
  rewrite !version_gate_index. cbn [version_string].
  repeat split; reflexivity.
Qed.

(** ** The code model reply *)

Lemma push_fold_targets replyDir jsonFiles api :
  let api' := fold_left (fun api jsonFile =>
                           push_targetFilepath (path_join [replyDir; jsonFile]) api)
                        jsonFiles api in
  targetFilepaths api'
  = targetFilepaths api ++ map (fun jsonFile => path_join [replyDir; jsonFile]) jsonFiles
  /\ cCompilerInfo api' = cCompilerInfo api
  /\ cxxCompilerInfo api' = cxxCompilerInfo api
  /\ cache api' = cache api.
Proof.
  revert api. induction jsonFiles as [|jsonFile rest IH]; intros api; cbn [fold_left map].
  - rewrite app_nil_r. auto.
  - destruct (IH (push_targetFilepath (path_join [replyDir; jsonFile]) api))
      as (Ht & Hc & Hcxx & Hcache).
    cbv zeta in *. rewrite Ht, Hc, Hcxx, Hcache. cbn. rewrite <- app_assoc. auto.
Qed.

(** X27.  After [_loadCodemodel] has read a code model, the targets of
    its first configuration, and of no other, each joined to the reply
    directory, stand at the end of the target files the object had
    before, in their order; the source root is the one of the code model;
    the compilers and the cache are as they were. *)
Theorem _loadCodemodel_first_configuration replyDir codemodelJsonFile env s s1 c :
  _parseReplyFile codemodelJsonFile env s = (s1, Return (RCodemodel c)) ->
  let load := _loadCodemodel replyDir codemodelJsonFile env s in
  snd load = Return tt
  /\ targetFilepaths (this (fst load))
     = targetFilepaths (this s)
       ++ map (fun jsonFile => path_join [replyDir; jsonFile]) (hd [] (configurations c))
  /\ sourceRoot (this (fst load)) = Some (paths_source c)
  /\ cCompilerInfo (this (fst load)) = cCompilerInfo (this s)
  /\ cxxCompilerInfo (this (fst load)) = cxxCompilerInfo (this s)
  /\ cache (this (fst load)) = cache (this s).
Proof.
  intros Hread load. subst load. unfold _loadCodemodel.
  rewrite (bind_Return _ _ _ _ _ _ Hread). unfold bind, modify_this.
  cbn [fst snd this set_sourceRoot targetFilepaths sourceRoot cCompilerInfo
       cxxCompilerInfo cache].
  rewrite (_parseReplyFile_this _ _ _ _ _ Hread).
  destruct (push_fold_targets replyDir (hd [] (configurations c)) (this s))
    as (Ht & Hc & Hcxx & Hcache).
  repeat split; assumption.
Qed.

Lemma _loadCodemodel_first_configuration_witness :
  let env := env_settled all_kinds both_compilers in
  let load := _loadCodemodel reply_dir (reply_dir +:+ "/codemodel.json") env start in
  snd load = Return tt
  /\ targetFilepaths (this (fst load)) = [reply_dir +:+ "/target-app.json"]
  /\ sourceRoot (this (fst load)) = Some "/work/src".
Proof.
  intros env load.
  assert (Hread : _parseReplyFile (reply_dir +:+ "/codemodel.json") env start
                  = (fst (_parseReplyFile (reply_dir +:+ "/codemodel.json") env start),
                     Return (RCodemodel {| paths_source := "/work/src";
                                           configurations := [["target-app.json"]] |})))
    by (vm_compute; reflexivity).
  pose proof (_loadCodemodel_first_configuration reply_dir _ env start _ _ Hread) as H.
  split; [exact (proj1 H)|].
  split; [exact (proj1 (proj2 H))|exact (proj1 (proj2 (proj2 H)))].
Defined.

(** ** Sources outside the source tree *)

Lemma normalize_segments_names aar segs res :
  all_names segs -> normalize_segments aar segs res = rev segs ++ res.
Proof.
  unfold normalize_segments. intros Hsegs. revert res.
  induction Hsegs as [|seg segs Hseg _ IH]; intros res; [reflexivity|].
  cbn [fold_left rev]. rewrite normalize_step_name by assumption.
  now rewrite IH, <- app_assoc.
Qed.

Lemma path_join_paths isAbs rootSegs isAbs' segs :
  all_names rootSegs -> rootSegs <> [] -> all_names segs -> segs <> [] ->
  path_join [path_of isAbs rootSegs; path_of isAbs' segs]
  = path_of isAbs (rootSegs ++ segs).
Proof.
  intros Hroot Hrne Hsegs Hsne.
  assert (Hnormal : normal (negb isAbs') (rev segs) = true)
    by now apply normal_names, all_names_rev.
  rewrite (path_of_canon isAbs rootSegs) by assumption.
  rewrite path_join_onto_canon
    by first [ now apply normal_names, all_names_rev
             | apply (path_of_proper isAbs' segs); assumption ].
  rewrite (path_of_canon isAbs' segs) by assumption.
  rewrite segments_canon, path_trailing_canon by (assumption || now apply rev_not_nil).
  rewrite rev_involutive, app_nil_r, normalize_segments_app.
  replace (normalize_segments (negb isAbs) (if isAbs' then [EmptyString] else [])
                              (rev rootSegs))
    with (rev rootSegs) by now destruct isAbs'.
  rewrite normalize_segments_names by assumption.
  rewrite path_of_canon.
  - now rewrite rev_app_distr.
  - now apply Forall_app.
  - now destruct rootSegs.
Qed.

(** X28.  The source of a descriptor is the source root followed by the
    segments of the path the target lists for the source, also when that
    path is absolute, as the code model gives it for a source outside the
    source tree: the iterator joins the two and does not resolve the one
    against the other. *)
Theorem source_is_joined_to_root api t args0 compilerInfo sourceIndex
    isAbs rootSegs isAbs' segs :
  all_names rootSegs -> rootSegs <> [] -> all_names segs -> segs <> [] ->
  sourceRoot api = Some (path_of isAbs rootSegs) ->
  sources t !! sourceIndex = Some (path_of isAbs' segs) ->
  yield_sources api (RTarget t) args0 compilerInfo [sourceIndex]
  = ([ {| source := path_of isAbs (rootSegs ++ segs);
          args := args0;
          compiler := compilerInfo |} ],
     None).
Proof.
  intros Hroot Hrne Hsegs Hsne Hsource Hpath.
  cbn [yield_sources sources_of]. rewrite Hpath, Hsource.
  now rewrite path_join_paths by assumption.
Qed.

Lemma source_is_joined_to_root_witness :
  sourceRoot (this loaded_example) = Some "/work/src"
  /\ sources generated_target !! 1 = Some "/work/build/gen/moc_a.cpp"
  /\ yield_sources (this loaded_example) (RTarget generated_target) EmptyString
       {| ci_path := cl_exe; ci_version := "19.29.30133.0"; ci_includes := [] |} [1]
     = ([ {| source := "/work/src/work/build/gen/moc_a.cpp";
             args := EmptyString;
             compiler := {| ci_path := cl_exe;
                            ci_version := "19.29.30133.0";
                            ci_includes := [] |} |} ],
        None).
Proof.
  assert (Hnames : all_names ["work"; "src"]) by (repeat constructor).
  assert (Hsegs : all_names ["work"; "build"; "gen"; "moc_a.cpp"]) by (repeat constructor).
  assert (Hroot : sourceRoot (this loaded_example) = Some (path_of true ["work"; "src"]))
    by reflexivity.
  assert (Hpath : sources generated_target !! 1
                  = Some (path_of true ["work"; "build"; "gen"; "moc_a.cpp"]))
    by reflexivity.
  split; [exact Hroot|]. split; [exact Hpath|].
  exact (source_is_joined_to_root (this loaded_example) generated_target EmptyString
           {| ci_path := cl_exe; ci_version := "19.29.30133.0"; ci_includes := [] |}
           1 true ["work"; "src"] true ["work"; "build"; "gen"; "moc_a.cpp"]
           Hnames ltac:(discriminate) Hsegs ltac:(discriminate) Hroot Hpath).
Defined.

(** ** A reply directory without an index *)

Lemma index_fold_none names :
  (forall g, In g names -> is_index g = false) ->
  fold_left index_step names None = None.
Proof.
  intros Hnone.
  assert (Hsel : selected ([] ++ names) (fold_left index_step names None))
    by (apply index_fold_selected; intros g []).
  destruct (fold_left index_step names None) as [f|]; [|reflexivity].
  destruct Hsel as (Hin & Hidx & _). rewrite (Hnone f Hin) in Hidx. discriminate.
Qed.

(** X29.  With the reply directory there and none of its entries named
    as an index file, [_getApiReplyIndex] throws its error for the
    missing index after the one look at the directory and the one
    listing of it: it opens no file and leaves the object as it is. *)
Theorem _getApiReplyIndex_without_index apiDir env s names :
  fs_existsSync env (done s) (path_join [apiDir; "reply"]) = true ->
  fs_readdirSync env (done s ++ [EvExistsSync (path_join [apiDir; "reply"])])
                 (path_join [apiDir; "reply"]) = Some names ->
  (forall g, In g names -> is_index g = false) ->
  _getApiReplyIndex apiDir env s
  = ({| this := this s;
        done := (done s ++ [EvExistsSync (path_join [apiDir; "reply"])])
                ++ [EvReaddirSync (path_join [apiDir; "reply"])] |},
     Throw (Error "Failed to find CMake API index reply file.")).
Proof.
  intros Hdir Hlist Hnone.
  unfold _getApiReplyIndex, bind, existsSync, readdirSync, perform, bind.
  rewrite Hdir. cbn. rewrite Hlist. cbn. now rewrite (index_fold_none names Hnone).
Qed.

Lemma _getApiReplyIndex_without_index_witness :
  fs_existsSync no_index_env [] reply_dir = true
  /\ fs_readdirSync no_index_env [EvExistsSync reply_dir] reply_dir
     = Some ["cache-v2-0123.json"; "codemodel-v2-4567.json"]
  /\ snd (_getApiReplyIndex api_dir no_index_env start)
     = Throw (Error "Failed to find CMake API index reply file.").
Proof.
  assert (H1 : fs_existsSync no_index_env (done start) (path_join [api_dir; "reply"])
               = true) by reflexivity.
  assert (H2 : fs_readdirSync no_index_env
                 (done start ++ [EvExistsSync (path_join [api_dir; "reply"])])
                 (path_join [api_dir; "reply"])
               = Some ["cache-v2-0123.json"; "codemodel-v2-4567.json"]) by reflexivity.
  assert (H3 : forall g, In g ["cache-v2-0123.json"; "codemodel-v2-4567.json"] ->
                         is_index g = false)
    by (intros g [<-|[<-|[]]]; reflexivity).
  split; [exact H1|]. split; [exact H2|].
  exact (f_equal snd (_getApiReplyIndex_without_index api_dir no_index_env start _
                        H1 H2 H3)).
Defined.

(** ** The ruleset *)

(** X30.  [findRuleset] never returns [undefined]: its first test, for
    a ruleset path that is empty, never succeeds, since
    [resolveInputPath] gives no empty path; whenever it returns, it
    returns a path that is not empty.  With no [ruleset] input set and the
    workspace directory there, what it returns for the ruleset is the
    workspace directory itself. *)
Theorem findRuleset_never_undefined inputs rulesetDirectory :
  (forall env s printed s' printed' result,
      findRuleset inputs rulesetDirectory env s printed = ((s', printed'), Return result) ->
      exists p, result = Some p /\ p <> EmptyString)
  /\ (forall workspace env s printed,
        core_getInput inputs "ruleset" = EmptyString ->
        process_env_GITHUB_WORKSPACE inputs = Some workspace ->
        workspace <> EmptyString ->
        fs_existsSync env (done s) (path_normalize workspace) = true ->
        findRuleset inputs rulesetDirectory env s printed
        = (({| this := this s;
               done := done s ++ [EvExistsSync (path_normalize workspace)] |},
            printed),
           Return (Some (path_normalize workspace)))).
Proof.
  split.
  - intros env s printed s' printed' result. unfold findRuleset, bindW, liftW.
    destruct (resolveInputPath inputs "ruleset" false env s) as [s1 [p|e]] eqn:Hpath;
      [|discriminate].
    apply resolveInputPath_returns in Hpath as (-> & Hne & _).
    apply String.eqb_neq in Hne as Hne'. rewrite Hne'.
    unfold existsSync, perform.
    destruct (fs_existsSync env (done s) p).
    { intros [= _ _ <-]. eauto. }
    destruct rulesetDirectory as [directory|].
    + cbn [done]. destruct (fs_existsSync env _ _); [|discriminate].
      intros [= _ _ <-]. eexists. split; [reflexivity|apply path_join_pair_not_empty].
    + discriminate.
  - intros workspace env s printed Hunset Hworkspace Hne Hthere.
    unfold findRuleset, bindW, liftW, resolveInputPath.
    rewrite Hunset, Hworkspace. cbn.
    rewrite path_join_one_of. apply String.eqb_neq in Hne as Hne'. rewrite Hne'. cbn.
    pose proof (path_normalize_not_empty workspace) as Hn.
    apply String.eqb_neq in Hn. rewrite Hn.
    unfold existsSync, perform. now rewrite Hthere.
Qed.

Lemma findRuleset_never_undefined_witness :
  core_getInput example_inputs "ruleset" = EmptyString
  /\ fs_existsSync workspace_env [] "/work" = true
  /\ findRuleset example_inputs None workspace_env start []
     = (({| this := this start; done := [EvExistsSync "/work"] |}, []),
        Return (Some "/work")).
Proof.
  split; [reflexivity|]. split; [reflexivity|].
  exact (proj2 (findRuleset_never_undefined example_inputs None)
               "/work" workspace_env start [] eq_refl eq_refl ltac:(discriminate) eq_refl).
Defined.

